(** * Link graph jobs of the cargo distribution (src/linkgraph/linkgraphjob.cpp)

    A shallow embedding of [LinkGraphJob] (construction, [Init], [EraseFlows],
    [JoinThread], [FinaliseJob]) and of [Path] ([Fork], [AddFlow]), and the
    properties of the specification proved about them.

    Conventions.
    - [uint] is a 32-bit unsigned integer: a [Z] whose arithmetic is wrapped
      with [wrap_uint] wherever the C++ operation can wrap.
    - [StationID], [NodeID], [CargoID] and [LinkGraphID] are unsigned integer
      typedefs in the sources; all four are [nat] here, so that a [NodeID]
      can be handed to a function expecting a [StationID], as the C++ does.
    - Objects reached through pointers ([Path *], [Station *]) live in finite
      maps from addresses (ids) to records; a null or dangling pointer is an
      absent key. *)

From Stdlib Require Import ZArith Lia.
From stdpp Require Import base option list gmap fin_maps sorting.

Abbreviation StationID := nat (only parsing).
Abbreviation NodeID := nat (only parsing).
Abbreviation CargoID := nat (only parsing).
Abbreviation LinkGraphID := nat (only parsing).
Abbreviation PathID := nat (only parsing).

(** ** Machine integers *)

Definition UINT_MAX : Z := 4294967295.
Definition INT_MAX : Z := 2147483647.
Definition INT_MIN : Z := (-2147483648)%Z.
Definition INVALID_DATE : Z := (-1)%Z.
Definition INVALID_NODE : NodeID := Z.to_nat 65535.
Definition INVALID_STATION : StationID := Z.to_nat 65535.
Definition INVALID_LINK_GRAPH : LinkGraphID := Z.to_nat 65535.

(** Unsigned 32-bit wrap-around. *)
Definition wrap_uint (z : Z) : Z := (z mod 4294967296)%Z.
Arguments wrap_uint : simpl never.

(** ** Flow statistics of a station (station_base.h, not part of the sources)

    Modelled from the spec: "per-station mapping from origin-station to a
    share table of next-hop choices", with the operations "lookup-by-origin,
    insertion, erasure, erase all flows from X, restrict flows to X,
    invalidate-and-possibly-erase".  A [FlowStat] is the share table of one
    origin; the origin itself ([GetOrigin]) is the key the entry is stored
    under in the [FlowStatMap]. *)

Record Share := mkShare {
  share_via : StationID;      (* next hop the share routes to *)
  share_amount : Z;           (* size of the share *)
  share_restricted : bool     (* share is only usable by restricted orders *)
}.

Record FlowStat := mkFlowStat { shares : list Share }.

Abbreviation FlowStatMap := (gmap nat FlowStat) (only parsing).

Module FlowStat.

(** [a.SwapShares(b)]: the two entries exchange their share tables; the
    result is (new a, new b). *)
Definition SwapShares (a b : FlowStat) : FlowStat * FlowStat := (b, a).

(** Remove every share routed via [via] (ChangeShare(via, INT_MIN)). *)
Definition DeleteShares (via : StationID) (fs : FlowStat) : FlowStat :=
  mkFlowStat (filter (λ s, share_via s ≠ via) (shares fs)).

(** Mark every share routed via [via] as restricted. *)
Definition RestrictShare (via : StationID) (fs : FlowStat) : FlowStat :=
  mkFlowStat
    ((λ s, if decide (share_via s = via)
           then mkShare (share_via s) (share_amount s) true else s)
       <$> shares fs).

Definition empty (fs : FlowStat) : bool :=
  match shares fs with [] => true | _ => false end.

End FlowStat.

Module FlowStatMap.

(** Keys in the container's canonical (sorted) order: the order in which an
    iteration over a flow map at rest visits its entries. *)
Definition origins (m : FlowStatMap) : list StationID :=
  merge_sort Nat.le (elements (dom m)).

(** Modelled from the spec: "delete all flow shares whose destination is that
    station".  Every entry loses its shares via [via]; an entry left without
    shares is erased and its origin is returned (the [StationIDStack]). *)
Definition DeleteFlows (via : StationID) (m : FlowStatMap)
  : FlowStatMap * list StationID :=
  let m' := FlowStat.DeleteShares via <$> m in
  (filter (λ kv, FlowStat.empty kv.2 = false) m',
   origins (filter (λ kv, FlowStat.empty kv.2 = true) m')).

(** Modelled from the spec: "restrict flows to X". *)
Definition RestrictFlows (via : StationID) (m : FlowStatMap) : FlowStatMap :=
  FlowStat.RestrictShare via <$> m.

(** [insert]: an entry is added under its origin unless the origin is already
    present. *)
Definition insert_new (o : StationID) (fs : FlowStat) (m : FlowStatMap)
  : FlowStatMap :=
  match m !! o with Some _ => m | None => <[o := fs]> m end.

(** [SortStorage]: re-sorts the storage; the mapping itself is unchanged. *)
Definition SortStorage (m : FlowStatMap) : FlowStatMap := m.

End FlowStatMap.

(** ** Link graphs (linkgraph.h, not part of the sources)

    Modelled from the spec: "an ordered set of Node entries (indices 0..N-1)
    each with ... a StationID back-reference, an amount of undelivered supply
    ...; an N×N Edge matrix keyed by (origin, destination) with capacity ...
    and a last update timestamp pair (any-update, unrestricted-update)".
    [out_edges] lists the destinations the node's edge iterator
    ([Begin()] .. [End()]) visits, in iteration order. *)

Module LinkGraph.

Record BaseNode := mkBaseNode {
  supply : Z;
  station : StationID;
  out_edges : list NodeID
}.

Record BaseEdge := mkBaseEdge {
  capacity : Z;
  last_update : Z;               (* LastUpdate() *)
  last_unrestricted_update : Z   (* LastUnrestrictedUpdate() *)
}.

Record t := mk {
  index : LinkGraphID;
  cargo : CargoID;
  nodes : list BaseNode;
  edges : list (list BaseEdge)
}.

(** What an access outside the node or edge arrays reads in the model: a
    node of no station, an edge that was never updated. *)
#[global] Instance BaseNode_inhabited : Inhabited BaseNode :=
  populate (mkBaseNode 0 0 []).
#[global] Instance BaseEdge_inhabited : Inhabited BaseEdge :=
  populate (mkBaseEdge 0 INVALID_DATE INVALID_DATE).
#[global] Instance t_inhabited : Inhabited t := populate (mk 0 0 [] []).

Definition Size (lg : t) : nat := length (nodes lg).

(** [lg[i]] and [lg[i][j]]. *)
Definition node_at (lg : t) (i : NodeID) : BaseNode := nodes lg !!! i.
Definition edge_at (lg : t) (i j : NodeID) : BaseEdge :=
  (edges lg !!! i) !!! j.

End LinkGraph.

(** ** The world the job is merged into

    Stations, their goods entries and the pools are declared in headers
    that are not part of the sources.  Modelled from the spec: "a station
    lookup-by-id that may return does not exist", "per (station, cargo) a
    mutable flow-share table", and a goods entry that "points back at this
    same graph index/node index". *)

Inductive DistributionType := DT_MANUAL | DT_ASYMMETRIC | DT_SYMMETRIC.

#[global] Instance DistributionType_eq_dec : EqDecision DistributionType.
Proof. solve_decision. Defined.

(** Modelled from the spec: "a global settings structure providing
    distribution-type-per-cargo and recalculation timing parameters"
    (settings_type.h is not part of the sources). *)
Record LinkGraphSettings := mkLinkGraphSettings {
  recalc_time : Z;
  recalc_not_scaled_by_daylength : bool;
  GetDistributionType : CargoID → DistributionType
}.

(** The globals read by this file: [_settings_game.linkgraph],
    [_settings_game.economy.day_length_factor], [_date], [_date_fract]. *)
Record Globals := mkGlobals {
  settings_game_linkgraph : LinkGraphSettings;
  day_length_factor : Z;
  date : Z;
  date_fract : Z
}.

Module GoodsEntry.

Record t := mk {
  link_graph : LinkGraphID;
  node : NodeID;
  flows : FlowStatMap
}.

(** A goods entry that belongs to no link graph, as a station constructs it. *)
#[global] Instance t_inhabited : Inhabited t :=
  populate (mk INVALID_LINK_GRAPH INVALID_NODE ∅).

Definition set_flows (m : FlowStatMap) (ge : t) : t :=
  mk (link_graph ge) (node ge) m.

End GoodsEntry.

Module Station.

(** [goods] is the per-cargo array of the station. *)
Record t := mk { goods : gmap nat GoodsEntry.t }.

Definition goods_at (st : t) (c : CargoID) : GoodsEntry.t := goods st !!! c.

Definition set_goods (c : CargoID) (ge : GoodsEntry.t) (st : t) : t :=
  mk (<[c := ge]> (goods st)).

End Station.

(** Calls into other subsystems, recorded in call order. *)
Inductive Event :=
  | RerouteCargo (st : StationID) (c : CargoID) (avoid avoid2 : StationID)
  | InvalidateWindowData (st : StationID) (c : CargoID).

Record World := mkWorld {
  stations : gmap nat Station.t;       (* the station pool *)
  link_graphs : gmap nat LinkGraph.t;  (* the link graph pool *)
  events : list Event
}.

(** [Station::GetIfValid] and [LinkGraph::IsValidID] / [LinkGraph::Get]. *)
Definition Station_GetIfValid (w : World) (s : StationID) : option Station.t :=
  stations w !! s.
Definition LinkGraph_IsValidID (w : World) (i : LinkGraphID) : bool :=
  bool_decide (is_Some (link_graphs w !! i)).
Definition LinkGraph_Get (w : World) (i : LinkGraphID) : LinkGraph.t :=
  link_graphs w !!! i.

(** ** LinkGraphJob *)

(** Ticks per day (date_type.h). *)
Definition DAY_TICKS : Z := 74.

(** Conversion of a value to the signed 32-bit [DateTicks]. *)
Definition wrap_int (z : Z) : Z :=
  ((z + 2147483648) mod 4294967296 - 2147483648)%Z.
Arguments wrap_int : simpl never.

Module LinkGraphJob.

Record NodeAnnotation := mkNodeAnnotation {
  undelivered_supply : Z;
  received_demand : Z;
  paths : list PathID;     (* Paths(): legs registered at this node *)
  flows : FlowStatMap      (* Flows(): the flows computed for this node *)
}.

Record EdgeAnnotation := mkEdgeAnnotation {
  demand : Z;
  unsatisfied_demand : Z;
  flow : Z
}.

Record t := mk {
  link_graph : LinkGraph.t;          (* private copy of the graph *)
  settings : LinkGraphSettings;      (* copy of the settings at creation *)
  join_date_ticks : Z;
  start_date_ticks : Z;
  job_completed : bool;
  abort_job : bool;
  group : option nat;                (* shared_ptr<LinkGraphJobGroup> *)
  nodes : list NodeAnnotation;
  edges : list (list EdgeAnnotation)
}.

(** A default-constructed annotation, also what an access outside the
    arrays reads in the model. *)
#[global] Instance NodeAnnotation_inhabited : Inhabited NodeAnnotation :=
  populate (mkNodeAnnotation 0 0 [] ∅).
#[global] Instance EdgeAnnotation_inhabited : Inhabited EdgeAnnotation :=
  populate (mkEdgeAnnotation 0 0 0).

Definition set_flows (m : FlowStatMap) (n : NodeAnnotation) : NodeAnnotation :=
  mkNodeAnnotation (undelivered_supply n) (received_demand n) (paths n) m.
Definition set_paths (l : list PathID) (n : NodeAnnotation) : NodeAnnotation :=
  mkNodeAnnotation (undelivered_supply n) (received_demand n) l (flows n).
Definition set_flow (f : Z) (e : EdgeAnnotation) : EdgeAnnotation :=
  mkEdgeAnnotation (demand e) (unsatisfied_demand e) f.
Definition set_nodes (ns : list NodeAnnotation) (job : t) : t :=
  mk (link_graph job) (settings job) (join_date_ticks job)
     (start_date_ticks job) (job_completed job) (abort_job job) (group job)
     ns (edges job).
Definition set_edges (es : list (list EdgeAnnotation)) (job : t) : t :=
  mk (link_graph job) (settings job) (join_date_ticks job)
     (start_date_ticks job) (job_completed job) (abort_job job) (group job)
     (nodes job) es.
Definition set_group (g : option nat) (job : t) : t :=
  mk (link_graph job) (settings job) (join_date_ticks job)
     (start_date_ticks job) (job_completed job) (abort_job job) g
     (nodes job) (edges job).
Definition set_settings (s : LinkGraphSettings) (job : t) : t :=
  mk (link_graph job) s (join_date_ticks job)
     (start_date_ticks job) (job_completed job) (abort_job job) (group job)
     (nodes job) (edges job).
Definition set_abort_job (b : bool) (job : t) : t :=
  mk (link_graph job) (settings job) (join_date_ticks job)
     (start_date_ticks job) (job_completed job) b (group job)
     (nodes job) (edges job).

(** [GetLinkGraphJobJoinDateTicks].  The settings, [DAY_TICKS] and the
    date types are declared in headers that are not part of the sources; the
    model takes the product in [uint] (the multiplier is a [uint]), stores
    it in a signed 32-bit [DateTicks], and divides truncating. *)
Definition GetLinkGraphJobJoinDateTicks (g : Globals) (duration_multiplier : Z)
  : Z :=
  let ticks :=
    wrap_int (wrap_uint (recalc_time (settings_game_linkgraph g) * DAY_TICKS
                         * duration_multiplier)) in
  let ticks :=
    if recalc_not_scaled_by_daylength (settings_game_linkgraph g)
    then Z.quot ticks (day_length_factor g) else ticks in
  wrap_int (ticks + date g * DAY_TICKS + date_fract g).

(** The constructor: the graph is copied with its index, the link graph
    settings are copied from the globals as they are now. *)
Definition new (g : Globals) (orig : LinkGraph.t) (duration_multiplier : Z) : t :=
  mk orig
     (settings_game_linkgraph g)
     (GetLinkGraphJobJoinDateTicks g duration_multiplier)
     (wrap_int (date g * DAY_TICKS + date_fract g))
     false false None [] [].

Definition Size (job : t) : nat := LinkGraph.Size (link_graph job).
Definition Cargo (job : t) : CargoID := LinkGraph.cargo (link_graph job).

(** The accessors of the node and edge wrappers (linkgraphjob.h, not part
    of the sources): [job[n].Station()], [job[n].Flows()],
    [job[i][j].Flow()] reads the edge annotation, [job[i][j].Capacity()]
    the edge of the copied graph. *)
Definition Station (job : t) (n : NodeID) : StationID :=
  LinkGraph.station (LinkGraph.node_at (link_graph job) n).
Definition Flows (job : t) (n : NodeID) : FlowStatMap := flows (nodes job !!! n).
Definition Flow (job : t) (i j : NodeID) : Z :=
  flow ((edges job !!! i) !!! j).
Definition Capacity (job : t) (i j : NodeID) : Z :=
  LinkGraph.capacity (LinkGraph.edge_at (link_graph job) i j).

Definition set_Flows (n : NodeID) (m : FlowStatMap) (job : t) : t :=
  set_nodes (alter (set_flows m) n (nodes job)) job.

(** Modelled from the spec: "Apply the accepted amount to the underlying
    parent→node edge's flow counter" ([Edge::AddFlow], linkgraphjob.h):
    [anno.flow += flow] in [uint]. *)
Definition Edge_AddFlow (i j : NodeID) (f : Z) (job : t) : t :=
  set_edges
    (alter (alter (λ e, set_flow (wrap_uint (flow e + f)) e) j) i (edges job))
    job.

(** [job[n].Paths().push_back(p)]: the leg is registered at node [n]. *)
Definition Paths_push_back (n : NodeID) (p : PathID) (job : t) : t :=
  set_nodes (alter (λ a, set_paths (paths a ++ [p]) a) n (nodes job)) job.

(** [NodeAnnotation::Init] and [EdgeAnnotation::Init]. *)
Definition NodeAnnotation_Init (supply : Z) (n : NodeAnnotation) : NodeAnnotation :=
  mkNodeAnnotation supply 0 (paths n) (flows n).
Definition EdgeAnnotation_Init (e : EdgeAnnotation) : EdgeAnnotation :=
  mkEdgeAnnotation 0 0 0.

(** [Init]: both arrays are resized to the size of the graph, then every
    node and every edge annotation is initialised. *)
Definition Init (job : t) : t :=
  let size := Size job in
  let ns := resize size inhabitant (nodes job) in
  let es := resize size [] (edges job) in
  let es := resize size inhabitant <$> es in
  let ns :=
    imap (λ i n,
            NodeAnnotation_Init
              (LinkGraph.supply (LinkGraph.node_at (link_graph job) i)) n) ns in
  set_edges (fmap EdgeAnnotation_Init <$> es) (set_nodes ns job).

(** [EraseFlows]: erase the key [from] in the flows of every node. *)
Definition EraseFlows (from : NodeID) (job : t) : t :=
  foldl (λ job node_id,
           set_nodes
             (alter (λ n, set_flows (delete from (flows n)) n) node_id
                    (nodes job)) job)
        job (seq 0 (Size job)).

Definition SetJobGroup (g : nat) (job : t) : t := set_group (Some g) job.

(** [JoinThread]: joins the group's thread, if there is a group, and drops
    the reference to it. *)
Definition JoinThread (job : t) : t :=
  match group job with
  | Some _ => set_group None job
  | None => job
  end.

Definition IsJobCompleted (job : t) : bool := job_completed job.
Definition IsJobAborted (job : t) : bool := abort_job job.
Definition AbortJob (job : t) : t := set_abort_job true job.

(** *** FinaliseJob

    [Invalidate] is [FlowStat::Invalidate] (station_base.h): it returns the
    invalidated entry and whether the entry should be deleted.  The spec
    leaves its criterion open ("treat it as an injected predicate"), so it is
    an argument of the model. *)

(** Condition of lines 129-131: the destination station is gone, belongs to
    another graph or node, or the live edge was never updated. *)
Definition edge_removed (w : World) (job : t) (lg : LinkGraph.t)
  (node_id to_node : NodeID) : Prop :=
  match Station_GetIfValid w (Station job to_node) with
  | None => True
  | Some st2 =>
      GoodsEntry.link_graph (Station.goods_at st2 (Cargo job))
        ≠ LinkGraph.index (link_graph job)
      ∨ GoodsEntry.node (Station.goods_at st2 (Cargo job)) ≠ to_node
      ∨ LinkGraph.last_update (LinkGraph.edge_at lg node_id to_node)
        = INVALID_DATE
  end.

#[global] Instance edge_removed_dec w job lg node_id to_node :
  Decision (edge_removed w job lg node_id to_node).
Proof. unfold edge_removed. destruct (Station_GetIfValid _ _); apply _. Defined.

(** Body of the loop over the edges of [node_id] (lines 126-141).  The state
    is ([flows], [ge.flows]): the flows computed for the node and the live
    flows of its station. *)
Definition edge_step (w : World) (job : t) (lg : LinkGraph.t) (node_id : NodeID)
  (acc : FlowStatMap * FlowStatMap) (to_node : NodeID)
  : FlowStatMap * FlowStatMap :=
  let '(flows, ge_flows) := acc in
  if decide (Flow job node_id to_node = 0%Z) then acc else
  let to := Station job to_node in
  if decide (edge_removed w job lg node_id to_node) then
    (* Edge has been removed. Delete flows. *)
    let '(flows, erased) := FlowStatMap.DeleteFlows to flows in
    (flows, foldl (λ m o, delete o m) ge_flows erased)
  else if decide (LinkGraph.last_unrestricted_update
                    (LinkGraph.edge_at lg node_id to_node) = INVALID_DATE) then
    (* Edge is fully restricted. *)
    (FlowStatMap.RestrictFlows to flows, ge_flows)
  else acc.

(** Body of the loop over the live flows (lines 149-170), at the entry of
    origin [o].  The state is ([ge.flows], [flows], events). *)
Definition merge_step (Invalidate : FlowStat → FlowStat * bool) (g : Globals)
  (st : StationID) (c : CargoID)
  (acc : FlowStatMap * FlowStatMap * list Event) (o : StationID)
  : FlowStatMap * FlowStatMap * list Event :=
  let '(ge_flows, flows, ev) := acc in
  match ge_flows !! o with
  | None => acc
  | Some it =>
      match flows !! o with
      | None =>
          let '(it, should_erase) :=
            if decide (GetDistributionType (settings_game_linkgraph g) c
                       ≠ DT_MANUAL)
            then Invalidate it else (it, true) in
          if should_erase then
            let '(_, shares_) :=
              FlowStat.SwapShares it
                (mkFlowStat [mkShare INVALID_STATION 1 false]) in
            (delete o ge_flows, flows,
             ev ++ ((λ s, RerouteCargo st c (share_via s) st)
                      <$> shares shares_))
          else (<[o := it]> ge_flows, flows, ev)
      | Some new_it =>
          let '(it, _) := FlowStat.SwapShares it new_it in
          (<[o := it]> ge_flows, delete o flows, ev)
      end
  end.

(** Lines 148-174: the merge loop over the live flows, in their stored
    order, then the insertion of the computed flows that are left. *)
Definition merge_flows (Invalidate : FlowStat → FlowStat * bool) (g : Globals)
  (st : StationID) (c : CargoID) (ge_flows flows : FlowStatMap)
  : FlowStatMap * FlowStatMap * list Event :=
  let '(ge_flows, flows, ev) :=
    foldl (merge_step Invalidate g st c) (ge_flows, flows, [])
          (FlowStatMap.origins ge_flows) in
  (foldl (λ m o, match flows !! o with
                 | Some fs => FlowStatMap.insert_new o fs m
                 | None => m
                 end) ge_flows (FlowStatMap.origins flows),
   flows, ev).

(** Body of the loop over the nodes (lines 105-176). *)
Definition finalise_node (Invalidate : FlowStat → FlowStat * bool) (g : Globals)
  (acc : World * t) (node_id : NodeID) : World * t :=
  let '(w, job) := acc in
  let from_station := Station job node_id in
  match Station_GetIfValid w from_station with
  | None =>
      (* The station can have been deleted. *)
      (w, EraseFlows node_id job)
  | Some st =>
      let ge := Station.goods_at st (Cargo job) in
      if decide (GoodsEntry.link_graph ge ≠ LinkGraph.index (link_graph job)
                 ∨ GoodsEntry.node ge ≠ node_id)
      then (w, EraseFlows node_id job)
      else
        let lg := LinkGraph_Get w (GoodsEntry.link_graph ge) in
        let '(flows, ge_flows) :=
          foldl (edge_step w job lg node_id)
                (Flows job node_id, GoodsEntry.flows ge)
                (LinkGraph.out_edges
                   (LinkGraph.node_at (link_graph job) node_id)) in
        let '(ge_flows, flows, ev) :=
          merge_flows Invalidate g from_station (Cargo job) ge_flows flows in
        let ge_flows := FlowStatMap.SortStorage ge_flows in
        let st :=
          Station.set_goods (Cargo job) (GoodsEntry.set_flows ge_flows ge) st in
        (mkWorld (<[from_station := st]> (stations w)) (link_graphs w)
                 (events w ++ ev
                  ++ [InvalidateWindowData from_station (Cargo job)]),
         set_Flows node_id flows job)
  end.

(** [FinaliseJob]: join the thread, give up if the graph is gone, else
    merge the flows of every node into its station. *)
Definition FinaliseJob (Invalidate : FlowStat → FlowStat * bool) (g : Globals)
  (w : World) (job : t) : World * t :=
  let job := JoinThread job in
  if negb (LinkGraph_IsValidID w (LinkGraph.index (link_graph job)))
  then (w, job)
  else foldl (finalise_node Invalidate g) (w, job) (seq 0 (Size job)).

End LinkGraphJob.

(** ** Path: one leg of a route, linked to its parent leg

    [Path] objects are allocated by the solver and linked by raw parent
    pointers; the model keeps them in a heap indexed by address.  An
    operation is [None] when it dereferences an address that holds no path,
    or when an assertion fails. *)

Module Path.

Record t := mk {
  distance : Z;             (* uint *)
  capacity : Z;             (* uint *)
  free_capacity : Z;        (* int *)
  flow : Z;                 (* uint *)
  node : NodeID;
  origin : NodeID;
  num_children : Z;         (* uint *)
  parent : option PathID    (* GetParent(); None is nullptr *)
}.

Abbreviation Heap := (gmap nat t) (only parsing).

(** [Path::Path(n, source)]. *)
Definition new (n : NodeID) (source : bool) : t :=
  mk (if source then 0 else UINT_MAX)
     (if source then UINT_MAX else 0)
     (if source then INT_MAX else INT_MIN)
     0 n (if source then n else INVALID_NODE)
     0 None.

(** The static [Path::invalid_path]. *)
Definition invalid_path : t := new INVALID_NODE true.

Definition set_distance (v : Z) (p : t) : t :=
  mk v (capacity p) (free_capacity p) (flow p) (node p) (origin p)
     (num_children p) (parent p).
Definition set_capacity (v : Z) (p : t) : t :=
  mk (distance p) v (free_capacity p) (flow p) (node p) (origin p)
     (num_children p) (parent p).
Definition set_free_capacity (v : Z) (p : t) : t :=
  mk (distance p) (capacity p) v (flow p) (node p) (origin p)
     (num_children p) (parent p).
Definition set_flow (v : Z) (p : t) : t :=
  mk (distance p) (capacity p) (free_capacity p) v (node p) (origin p)
     (num_children p) (parent p).
Definition set_origin (v : NodeID) (p : t) : t :=
  mk (distance p) (capacity p) (free_capacity p) (flow p) (node p) v
     (num_children p) (parent p).
Definition set_num_children (v : Z) (p : t) : t :=
  mk (distance p) (capacity p) (free_capacity p) (flow p) (node p) (origin p)
     v (parent p).
Definition set_parent (v : option PathID) (p : t) : t :=
  mk (distance p) (capacity p) (free_capacity p) (flow p) (node p) (origin p)
     (num_children p) v.

(** A write through the pointer [p]. *)
Definition update (p : PathID) (f : t → t) (h : Heap) : option Heap :=
  x ← h !! p; Some (<[p := f x]> h).

(** Modelled from the spec: "detached from its old parent (decrementing that
    parent's child count)" ([Detach], [SetParent] and [GetParent] are
    declared in linkgraphjob.h, which is not part of the sources). *)
Definition Detach (this : PathID) (h : Heap) : option Heap :=
  x ← h !! this;
  match parent x with
  | Some q =>
      h ← update q (λ y, set_num_children (wrap_uint (num_children y - 1)) y) h;
      update this (set_parent None) h
  | None => Some h
  end.

Definition SetParent (this : PathID) (q : PathID) (h : Heap) : option Heap :=
  update this (set_parent (Some q)) h.

(** [this->Fork(base, cap, free_cap, dist)].  Every statement reads the
    heap left by the statement before it, so the model is also right when
    [this] and [base] are the same object. *)
Definition Fork (this base : PathID) (cap free_cap dist : Z) (h : Heap)
  : option Heap :=
  b ← h !! base;
  h ← update this (set_capacity (Z.min (capacity b) cap)) h;
  b ← h !! base;
  h ← update this (set_free_capacity (Z.min (free_capacity b) free_cap)) h;
  b ← h !! base;
  h ← update this (set_distance (wrap_uint (distance b + dist))) h;
  x ← h !! this;
  if decide (distance x > 0)%Z then
    h ← (if decide (parent x ≠ Some base) then
           h ← Detach this h;
           h ← SetParent this base h;
           update base
             (λ y, set_num_children (wrap_uint (num_children y + 1)) y) h
         else Some h);
    b ← h !! base;
    update this (set_origin (origin b)) h
  else None.

(** [edge.Capacity() * max_saturation / 100] for the edge from [i] to [j],
    computed in [uint]. *)
Definition usable_cap (job : LinkGraphJob.t) (max_saturation : Z)
  (i j : NodeID) : Z :=
  (wrap_uint (LinkGraphJob.Capacity job i j * max_saturation) / 100)%Z.

(** [this->AddFlow(new_flow, job, max_saturation)].  The recursion follows
    the parent pointers; [fuel] bounds its depth, and the result is [None]
    when the fuel runs out. *)
Fixpoint AddFlow (fuel : nat) (this : PathID) (new_flow : Z)
  (max_saturation : Z) (s : Heap * LinkGraphJob.t)
  : option (Z * (Heap * LinkGraphJob.t)) :=
  match fuel with
  | O => None
  | S fuel =>
      let '(h, job) := s in
      x ← h !! this;
      match parent x with
      | Some par =>
          p ← h !! par;
          let i := node p in
          let j := node x in
          let clamped :=
            if decide (max_saturation ≠ UINT_MAX) then
              let usable_cap := usable_cap job max_saturation i j in
              if decide (usable_cap > LinkGraphJob.Flow job i j)%Z
              then Some (Z.min new_flow (usable_cap - LinkGraphJob.Flow job i j))
              else None
            else Some new_flow in
          match clamped with
          | None => Some (0%Z, s)
          | Some new_flow =>
              '(new_flow, (h, job)) ←
                AddFlow fuel par new_flow max_saturation (h, job);
              x ← h !! this;
              par' ← parent x;
              p ← h !! par';
              let job :=
                if decide (flow x = 0 ∧ new_flow > 0)%Z
                then LinkGraphJob.Paths_push_back (node p) this job
                else job in
              let job := LinkGraphJob.Edge_AddFlow i j new_flow job in
              h ← update this (λ y, set_flow (wrap_uint (flow y + new_flow)) y) h;
              Some (new_flow, (h, job))
          end
      | None =>
          h ← update this (λ y, set_flow (wrap_uint (flow y + new_flow)) y) h;
          Some (new_flow, (h, job))
      end
  end.

(** *** Parent chains

    [ancestry h p l]: following the parent pointers from [p] reaches a leg
    without parent; [l] lists the legs met, [p] first and the root last. *)
Inductive ancestry (h : Heap) : PathID → list PathID → Prop :=
  | ancestry_root p x :
      h !! p = Some x → parent x = None → ancestry h p [p]
  | ancestry_step p x q l :
      h !! p = Some x → parent x = Some q → ancestry h q l →
      ancestry h p (p :: l).

(** The edge a leg runs along: from its parent's node to its own node. *)
Definition leg (h : Heap) (p : PathID) : option (NodeID * NodeID) :=
  x ← h !! p; q ← parent x; y ← h !! q; Some (node y, node x).

Definition legs (h : Heap) (l : list PathID) : list (NodeID * NodeID) :=
  omap (leg h) l.

(** Every edge flow of the job is a [uint] within the usable capacity. *)
Definition saturation_bound (max_saturation : Z) (job : LinkGraphJob.t) : Prop :=
  ∀ i j, (0 ≤ LinkGraphJob.Flow job i j ≤ usable_cap job max_saturation i j)%Z.

(** A sequence of [AddFlow] calls with one [max_saturation], each on a chain
    that runs along no edge twice; the paths may be rebuilt between calls. *)
Inductive pushes (max_saturation : Z) : LinkGraphJob.t → LinkGraphJob.t → Prop :=
  | pushes_nil job : pushes max_saturation job job
  | pushes_cons job h p l new_flow fuel r h' job' job'' :
      ancestry h p l → NoDup (legs h l) → (0 ≤ new_flow)%Z →
      AddFlow fuel p new_flow max_saturation (h, job) = Some (r, (h', job')) →
      pushes max_saturation job' job'' →
      pushes max_saturation job job''.

(** The chain invariant of the spec along the parent chain of [p]: distance
    grows strictly towards the leaf, capacity and free capacity do not
    grow. *)
Inductive ordered (h : Heap) : PathID → Prop :=
  | ordered_root p x :
      h !! p = Some x → parent x = None → ordered h p
  | ordered_step p x q y :
      h !! p = Some x → parent x = Some q → h !! q = Some y →
      (distance y < distance x)%Z →
      (capacity x ≤ capacity y)%Z →
      (free_capacity x ≤ free_capacity y)%Z →
      ordered h q →
      ordered h p.

(** The same invariant for all legs of the heap at once: the parent of
    every leg is allocated, strictly nearer, and has at least the leg's
    capacity and free capacity. *)
Definition well_ordered (h : Heap) : Prop :=
  ∀ p x q,
    h !! p = Some x → parent x = Some q →
    ∃ y, h !! q = Some y
         ∧ (distance y < distance x)%Z
         ∧ (capacity x ≤ capacity y)%Z
         ∧ (free_capacity x ≤ free_capacity y)%Z.

(** A sequence of [Fork] calls, each of which forks a leg that no other leg
    has as its parent at that moment onto a different leg, with a positive
    [dist] and a new distance that does not overflow a [uint]. *)
Inductive forks : Heap → Heap → Prop :=
  | forks_nil h : forks h h
  | forks_cons h this base cap free_cap dist x b h' h'' :
      h !! this = Some x → h !! base = Some b → this ≠ base →
      (∀ q y, h !! q = Some y → parent y ≠ Some this) →
      (0 < dist)%Z → (0 ≤ distance b)%Z →
      (distance b + dist ≤ UINT_MAX)%Z →
      Fork this base cap free_cap dist h = Some h' →
      forks h' h'' →
      forks h h''.

End Path.

(** ** Notions used in the statements *)

(** All fields of a leg but its flow tally. *)
Definition shape (x : Path.t) : Path.t := Path.set_flow 0 x.

(** The four fields the chain invariant reads. *)
Definition measures (y : Path.t) : Z * Z * Z * option nat :=
  (Path.distance y, Path.capacity y, Path.free_capacity y, Path.parent y).

(** The loop body of [EraseFlows]. *)
Definition erase_at (from : nat) (n : LinkGraphJob.NodeAnnotation)
  : LinkGraphJob.NodeAnnotation :=
  LinkGraphJob.set_flows (delete from (LinkGraphJob.flows n)) n.

(** What the merge loop leaves of a live entry whose origin has no computed
    flows: nothing under manual distribution, else the invalidated entry
    unless the invalidation asks for its erasure. *)
Definition kept (Invalidate : FlowStat → FlowStat * bool) (g : Globals)
  (c : nat) (it : FlowStat) : option FlowStat :=
  if decide (GetDistributionType (settings_game_linkgraph g) c ≠ DT_MANUAL)
  then (if (Invalidate it).2 then None else Some (Invalidate it).1)
  else None.

(** No share of the flow map [m] is routed via station [via]. *)
Definition no_via (via : nat) (m : gmap nat FlowStat) : Prop :=
  ∀ o fs s, m !! o = Some fs → s ∈ shares fs → share_via s ≠ via.

(** The edge from [i] to [j] has an annotation in the job's edge matrix. *)
Definition in_range (job : LinkGraphJob.t) (i j : nat) : Prop :=
  i < length (LinkGraphJob.edges job)
  ∧ j < length (LinkGraphJob.edges job !!! i).

(** Every leg that has a parent and a positive flow tally is listed in the
    paths of its parent's node. *)
Definition registered (h : gmap nat Path.t) (job : LinkGraphJob.t) : Prop :=
  ∀ p x q y,
    h !! p = Some x → Path.parent x = Some q → h !! q = Some y →
    (0 < Path.flow x)%Z →
    p ∈ LinkGraphJob.paths (LinkGraphJob.nodes job !!! Path.node y).

(** The test of lines 108-120: the station of node [n] still exists and its
    goods entry for the job's cargo points back at the job's graph and at
    [n]. *)
Definition node_current (w : World) (job : LinkGraphJob.t) (n : nat) : Prop :=
  match Station_GetIfValid w (LinkGraphJob.Station job n) with
  | Some st =>
      GoodsEntry.link_graph (Station.goods_at st (LinkGraphJob.Cargo job))
      = LinkGraph.index (LinkGraphJob.link_graph job)
      ∧ GoodsEntry.node (Station.goods_at st (LinkGraphJob.Cargo job)) = n
  | None => False
  end.

(** Two worlds with the same link graphs and the same stations, whose goods
    entries differ at most in the flows for the cargo [c]. *)
Definition same_layout (c : nat) (w w' : World) : Prop :=
  link_graphs w' = link_graphs w
  ∧ ∀ s,
      match stations w !! s, stations w' !! s with
      | Some st, Some st' =>
          (∀ c', c' ≠ c → Station.goods_at st' c' = Station.goods_at st c')
          ∧ GoodsEntry.link_graph (Station.goods_at st' c)
            = GoodsEntry.link_graph (Station.goods_at st c)
          ∧ GoodsEntry.node (Station.goods_at st' c)
            = GoodsEntry.node (Station.goods_at st c)
      | None, None => True
      | _, _ => False
      end.

(** [job'] is [job] with some entries of its computed flows changed or
    taken away: all other fields of the job and of its node annotations
    are the same, and no node has flows for an origin it had none for. *)
Definition flows_shrunk (job job' : LinkGraphJob.t) : Prop :=
  LinkGraphJob.set_nodes (LinkGraphJob.nodes job) job' = job
  ∧ length (LinkGraphJob.nodes job') = length (LinkGraphJob.nodes job)
  ∧ ∀ i n n',
      LinkGraphJob.nodes job !! i = Some n →
      LinkGraphJob.nodes job' !! i = Some n' →
      LinkGraphJob.set_flows (LinkGraphJob.flows n) n' = n
      ∧ ∀ o, LinkGraphJob.flows n !! o = None →
             LinkGraphJob.flows n' !! o = None.

(** The [RerouteCargo] calls for the live entry of origin [o], given the
    live flows [L] and the computed flows [C]: none if there is no such
    entry or if [C] has flows for [o]; else one call per share of the
    entry being erased (the invalidated entry, unless distribution is
    manual), none if the invalidation keeps the entry. *)
Definition rerouted (Invalidate : FlowStat → FlowStat * bool) (g : Globals)
  (st c : nat) (L C : gmap nat FlowStat) (o : nat) : list Event :=
  match L !! o, C !! o with
  | Some it, None =>
      let '(it, should_erase) :=
        if decide (GetDistributionType (settings_game_linkgraph g) c
                   ≠ DT_MANUAL)
        then Invalidate it else (it, true) in
      if should_erase
      then (λ s, RerouteCargo st c (share_via s) st) <$> shares it
      else []
  | _, _ => []
  end.

(** ** Sample data

    A graph of two stations (ids 10 and 11, nodes 0 and 1) with an edge in
    each direction, and a job created from it. *)

Definition sample_graph : LinkGraph.t :=
  LinkGraph.mk 0 0
    [LinkGraph.mkBaseNode 0 10 [1]; LinkGraph.mkBaseNode 0 11 [0]]
    [[LinkGraph.mkBaseEdge 0 INVALID_DATE INVALID_DATE;
      LinkGraph.mkBaseEdge 100 5 5];
     [LinkGraph.mkBaseEdge 1000 5 5;
      LinkGraph.mkBaseEdge 0 INVALID_DATE INVALID_DATE]].

Definition sample_settings (d : DistributionType) : LinkGraphSettings :=
  mkLinkGraphSettings 16 false (λ _, d).

Definition sample_globals (d : DistributionType) : Globals :=
  mkGlobals (sample_settings d) 1 100 3.

Definition sample_job : LinkGraphJob.t :=
  LinkGraphJob.Init (LinkGraphJob.new (sample_globals DT_ASYMMETRIC) sample_graph 1).

(** A source leg at node 0 (address 0) and a leg to node 1 (address 1)
    forked onto it. *)
Definition chain_heap : gmap nat Path.t :=
  {[ 0 := Path.mk 0 UINT_MAX INT_MAX 0 0 0 1 None;
     1 := Path.mk 5 100 100 0 1 0 0 (Some 0) ]}.

(** A chain 0 ← 1 ← 2 ← 3 whose legs visit the nodes 0, 1, 0, 1: the legs
    at the addresses 1 and 3 both run along the edge from node 0 to node 1. *)
Definition unforked_heap : gmap nat Path.t :=
  {[ 0 := Path.new 0 true; 1 := Path.new 1 false;
     2 := Path.new 0 false; 3 := Path.new 1 false ]}.

Definition loop_heap : gmap nat Path.t :=
  {[ 0 := Path.mk 0 UINT_MAX INT_MAX 0 0 0 1 None;
     1 := Path.mk 5 100 100 0 1 0 1 (Some 0);
     2 := Path.mk 10 100 100 0 0 0 1 (Some 1);
     3 := Path.mk 15 100 100 0 1 0 0 (Some 2) ]}.

(** Two source legs (addresses 0 and 2) and a leg (address 1) forked onto
    the first. *)
Definition two_roots_heap : gmap nat Path.t :=
  {[ 0 := Path.mk 0 UINT_MAX INT_MAX 0 0 0 1 None;
     1 := Path.mk 5 100 100 0 1 0 0 (Some 0);
     2 := Path.new 2 true ]}.

(** [chain_heap] and a fresh leg at address 2. *)
Definition fresh_leg_heap : gmap nat Path.t :=
  <[2 := Path.new 2 false]> chain_heap.

(** The two stations of [sample_graph], both still at their nodes.  Station
    10 holds a live flow entry for cargo from origin 7 (routed via station
    11); the job has computed no flows from that origin. *)
Definition sample_world : World :=
  mkWorld
    {[ 10 := Station.mk
               {[ 0 := GoodsEntry.mk 0 0
                         {[ 7 := mkFlowStat [mkShare 11 1 false] ]} ]};
       11 := Station.mk {[ 0 := GoodsEntry.mk 0 1 ∅ ]} ]}
    {[ 0 := sample_graph ]}
    [].

(** An invalidation policy that never asks for the entry to be erased. *)
Definition keep_invalidated (fs : FlowStat) : FlowStat * bool := (fs, false).

(** A world in which the graph of [sample_job] is gone. *)
Definition merged_away_world : World :=
  mkWorld (stations sample_world) ∅ [].

(** A live flow set and a computed flow set with different origins. *)
Definition sample_live : gmap nat FlowStat :=
  {[ 7 := mkFlowStat [mkShare 11 1 false] ]}.
Definition sample_computed : gmap nat FlowStat :=
  {[ 8 := mkFlowStat [mkShare 11 3 false] ]}.

(** [sample_job] after the solver: 5 units of flow on the edge from node 0
    to node 1, and at node 0 computed flows for the origins 10 (all via
    station 11) and 12 (via the stations 11 and 13). *)
Definition solved_job : LinkGraphJob.t :=
  LinkGraphJob.set_Flows 0
    {[ 10 := mkFlowStat [mkShare 11 4 false];
       12 := mkFlowStat [mkShare 11 1 false; mkShare 13 2 false] ]}
    (LinkGraphJob.Edge_AddFlow 0 1 5 sample_job).



(** Station 11 has been moved to the link graph 4; it holds a live flow
    entry of its own.  Station 10 is still at node 0 of [sample_graph]. *)
Definition foreign_world : World :=
  mkWorld
    {[ 10 := Station.mk {[ 0 := GoodsEntry.mk 0 0 ∅ ]};
       11 := Station.mk
               {[ 0 := GoodsEntry.mk 4 1
                         {[ 7 := mkFlowStat [mkShare 10 1 false] ]} ]} ]}
    {[ 0 := sample_graph ]}
    [].

(** [sample_job] with computed flows at node 0 under the keys 1 and 10. *)
Definition stale_job : LinkGraphJob.t :=
  LinkGraphJob.set_Flows 0
    {[ 1 := mkFlowStat [mkShare 11 2 false];
       10 := mkFlowStat [mkShare 11 4 false] ]}
    sample_job.

(** Station 10 of [sample_world]. *)
Definition sample_station : Station.t :=
  Station.mk
    {[ 0 := GoodsEntry.mk 0 0 {[ 7 := mkFlowStat [mkShare 11 1 false] ]} ]}.

(** The live flows of station [s] for cargo [c], as a list of entries. *)
Definition live_flows (w : World) (s c : nat)
  : option (list (nat * FlowStat)) :=
  st ← stations w !! s;
  Some (map_to_list (GoodsEntry.flows (Station.goods_at st c))).

Definition chain_job_pushed : LinkGraphJob.t :=
  LinkGraphJob.Edge_AddFlow 0 1 50
    (LinkGraphJob.Paths_push_back 0 1 sample_job).

(** * Properties *)

(** Membership in a list written out with cons and nil. *)
Ltac list_mem :=
  repeat match goal with
         | H : _ ∈ _ :: _ |- _ => apply elem_of_cons in H
         | H : _ ∈ [] |- _ => by apply elem_of_nil in H
         | H : _ ∉ _ :: _ |- _ => apply not_elem_of_cons in H
         end;
  rewrite ?elem_of_cons, ?not_elem_of_cons, ?elem_of_nil;
  intuition (subst; try done; try congruence).

(** Concrete parent chains in a literal heap. *)
Ltac chain :=
  repeat (eapply Path.ancestry_step; [reflexivity|reflexivity|]);
  eapply Path.ancestry_root; reflexivity.

(** ** Machine integers *)

Lemma wrap_uint_range z : (0 ≤ wrap_uint z ≤ UINT_MAX)%Z.
Proof. unfold wrap_uint, UINT_MAX. pose proof (Z.mod_pos_bound z 4294967296). lia. Qed.

Lemma wrap_uint_small z : (0 ≤ z ≤ UINT_MAX)%Z → wrap_uint z = z.
Proof. unfold wrap_uint, UINT_MAX. intros. apply Z.mod_small. lia. Qed.

Lemma wrap_uint_le z : (0 ≤ z)%Z → (wrap_uint z ≤ z)%Z.
Proof. unfold wrap_uint. intros. apply Z.mod_le; lia. Qed.

(** ** Path heaps *)

Lemma update_Some p f (h h' : gmap nat Path.t) :
  Path.update p f h = Some h' ↔ ∃ x, h !! p = Some x ∧ h' = <[p := f x]> h.
Proof.
  unfold Path.update. destruct (h !! p) as [x|]; simpl; split.
  - intros [= <-]. eauto.
  - intros (? & [= <-] & ->). done.
  - done.
  - intros (? & ? & _). done.
Qed.

Lemma ancestry_head h p l : Path.ancestry h p l → ∃ l', l = p :: l'.
Proof. destruct 1; eauto. Qed.

Lemma ancestry_det h p l1 l2 :
  Path.ancestry h p l1 → Path.ancestry h p l2 → l1 = l2.
Proof.
  intros H1. revert l2. induction H1 as [p x Hp Hx|p x q l Hp Hx _ IH];
    intros l2 H2; inversion H2; simplify_eq; [done|]. f_equal. by apply IH.
Qed.

Lemma ancestry_elem h p l q :
  Path.ancestry h p l → q ∈ l →
  ∃ l', Path.ancestry h q l' ∧ length l' ≤ length l.
Proof.
  induction 1 as [p x Hp Hx|p x r l Hp Hx Hr IH]; intros Hq.
  - apply list_elem_of_singleton in Hq as ->. exists [p]. split; [|done].
    by eapply Path.ancestry_root.
  - apply elem_of_cons in Hq as [->|Hq].
    + exists (p :: l). split; [|done]. by eapply Path.ancestry_step.
    + destruct (IH Hq) as (l' & ? & ?). exists l'. split; [done|]. simpl. lia.
Qed.

Lemma ancestry_not_below h p x q l :
  h !! p = Some x → Path.parent x = Some q → Path.ancestry h q l → p ∉ l.
Proof.
  intros Hp Hx Hq Hin.
  destruct (ancestry_elem _ _ _ _ Hq Hin) as (l' & Hl' & Hlen).
  assert (l' = p :: l) as ->.
  { eapply ancestry_det; [done|]. by eapply Path.ancestry_step. }
  simpl in Hlen. lia.
Qed.

Lemma ancestry_NoDup h p l : Path.ancestry h p l → NoDup l.
Proof.
  induction 1 as [p x Hp Hx|p x q l Hp Hx Hq IH].
  - apply NoDup_singleton.
  - apply NoDup_cons. split; [|done]. by eapply ancestry_not_below.
Qed.

(** ** AddFlow *)

Lemma shape_set_flow v x : shape (Path.set_flow v x) = shape x.
Proof. done. Qed.

Lemma AddFlow_effect ms fuel :
  ∀ p l nf (h : gmap nat Path.t) job r h' job',
    Path.ancestry h p l →
    Path.AddFlow fuel p nf ms (h, job) = Some (r, (h', job')) →
    (∀ q, q ∉ l → h' !! q = h !! q) ∧
    (∀ q, shape <$> h' !! q = shape <$> h !! q) ∧
    LinkGraphJob.link_graph job' = LinkGraphJob.link_graph job.
Proof.
  induction fuel as [|fuel IH]; intros p l nf h job r h' job' Hanc Hrun;
    [done|].
  simpl in Hrun.
  destruct (h !! p) as [x|] eqn:Hp; [|done]. simpl in Hrun.
  destruct (Path.parent x) as [par|] eqn:Hpar.
  - assert (∃ l', l = p :: l' ∧ Path.ancestry h par l') as (l' & -> & Hq).
    { inversion Hanc; simplify_eq; eauto. }
    destruct (h !! par) as [y|] eqn:Hy; [|done]. simpl in Hrun.
    match type of Hrun with
    | match ?c with _ => _ end = _ => destruct c as [nf'|] eqn:Hclamp
    end; [|by simplify_eq].
    destruct (Path.AddFlow fuel par nf' ms (h, job))
      as [[r1 [h1 job1]]|] eqn:Hrec; [|done].
    simpl in Hrun.
    destruct (IH _ _ _ _ _ _ _ _ Hq Hrec) as (Hframe & Hshape & Hlg).
    destruct (h1 !! p) as [x1|] eqn:Hp1; [|done]. simpl in Hrun.
    destruct (Path.parent x1) as [par1|]; [|done]. simpl in Hrun.
    destruct (h1 !! par1) as [y1|]; [|done]. simpl in Hrun.
    destruct (Path.update p _ h1) as [h2|] eqn:Hupd; [|done].
    simpl in Hrun. simplify_eq.
    apply update_Some in Hupd as (x2 & Hx2 & ->).
    split_and!.
    + intros q' Hq'. apply not_elem_of_cons in Hq' as [? ?].
      rewrite lookup_insert_ne by done. by apply Hframe.
    + intros q'. destruct (decide (p = q')) as [<-|?].
      * rewrite lookup_insert_eq. simpl. rewrite shape_set_flow.
        specialize (Hshape p). rewrite Hx2 in Hshape. done.
      * rewrite lookup_insert_ne by done. apply Hshape.
    + rewrite <- Hlg. by destruct (decide (_ ∧ _)).
  - destruct (Path.update p _ h) as [h2|] eqn:Hupd; [|done].
    simpl in Hrun. simplify_eq.
    apply update_Some in Hupd as (x2 & Hx2 & ->).
    inversion Hanc; simplify_eq.
    split_and!; [| |done].
    + intros q' Hq'. apply not_elem_of_cons in Hq' as [? ?].
      by rewrite lookup_insert_ne.
    + intros q'. destruct (decide (p = q')) as [<-|?].
      * rewrite lookup_insert_eq. simpl. rewrite shape_set_flow.
        by rewrite Hp.
      * by rewrite lookup_insert_ne.
Qed.

Lemma Flow_Edge_AddFlow i j f job i' j' :
  LinkGraphJob.Flow (LinkGraphJob.Edge_AddFlow i j f job) i' j' =
  if decide ((i = i' ∧ i < length (LinkGraphJob.edges job))
             ∧ (j = j' ∧ j < length (LinkGraphJob.edges job !!! i)))
  then wrap_uint (LinkGraphJob.Flow job i j + f)
  else LinkGraphJob.Flow job i' j'.
Proof.
  unfold LinkGraphJob.Flow, LinkGraphJob.Edge_AddFlow. simpl.
  rewrite list_lookup_total_alter.
  destruct (decide (i = i' ∧ _)) as [[<- ?]|?].
  - rewrite list_lookup_total_alter.
    destruct (decide (j = j' ∧ _)) as [[<- ?]|?].
    + rewrite decide_True by done. done.
    + rewrite decide_False by tauto. done.
  - rewrite decide_False by tauto. done.
Qed.

Lemma Flow_Paths_push_back n p job i j :
  LinkGraphJob.Flow (LinkGraphJob.Paths_push_back n p job) i j
  = LinkGraphJob.Flow job i j.
Proof. done. Qed.

Lemma usable_cap_link_graph job job' ms i j :
  LinkGraphJob.link_graph job' = LinkGraphJob.link_graph job →
  Path.usable_cap job' ms i j = Path.usable_cap job ms i j.
Proof. unfold Path.usable_cap, LinkGraphJob.Capacity. by intros ->. Qed.

Lemma usable_cap_nonneg job ms i j : (0 ≤ Path.usable_cap job ms i j)%Z.
Proof.
  unfold Path.usable_cap. apply Z.div_pos; [|lia].
  apply wrap_uint_range.
Qed.

Lemma usable_cap_uint job ms i j : (Path.usable_cap job ms i j ≤ UINT_MAX)%Z.
Proof.
  unfold Path.usable_cap.
  pose proof (wrap_uint_range (LinkGraphJob.Capacity job i j * ms)) as [H0 H1].
  transitivity (wrap_uint (LinkGraphJob.Capacity job i j * ms)); [|done].
  apply Z.div_le_upper_bound; lia.
Qed.

(** The amount a call returns lies between 0 and the amount requested. *)
Lemma AddFlow_result_range ms fuel :
  ∀ p nf s r s',
    (0 ≤ nf)%Z →
    Path.AddFlow fuel p nf ms s = Some (r, s') → (0 ≤ r ≤ nf)%Z.
Proof.
  induction fuel as [|fuel IH]; intros p nf [h job] r s' Hnf Hrun; [done|].
  simpl in Hrun.
  destruct (h !! p) as [x|] eqn:Hp; [|done]. simpl in Hrun.
  destruct (Path.parent x) as [par|] eqn:Hpar.
  - destruct (h !! par) as [y|] eqn:Hy; [|done]. simpl in Hrun.
    match type of Hrun with
    | match ?c with _ => _ end = _ => destruct c as [nf'|] eqn:Hclamp
    end; [|simplify_eq; lia].
    assert (0 ≤ nf' ≤ nf)%Z as Hnf'.
    { destruct (decide (ms ≠ UINT_MAX)); [|simplify_eq; lia].
      destruct (decide (_ > _)%Z); simplify_eq. lia. }
    destruct (Path.AddFlow fuel par nf' ms (h, job))
      as [[r1 [h1 job1]]|] eqn:Hrec; [|done].
    apply IH in Hrec; [|lia]. simpl in Hrun.
    destruct (h1 !! p) as [x1|]; [|done]. simpl in Hrun.
    destruct (Path.parent x1) as [par1|]; [|done]. simpl in Hrun.
    destruct (h1 !! par1) as [y1|]; [|done]. simpl in Hrun.
    destruct (Path.update p _ h1) as [h2|]; [|done].
    simpl in Hrun. simplify_eq. lia.
  - destruct (Path.update p _ h) as [h2|]; [|done].
    simpl in Hrun. simplify_eq. lia.
Qed.

(** With fuel for the whole parent chain the call returns. *)
Lemma AddFlow_total ms (h : gmap nat Path.t) p l :
  Path.ancestry h p l →
  ∀ fuel nf job, length l ≤ fuel →
    ∃ r h' job', Path.AddFlow fuel p nf ms (h, job) = Some (r, (h', job')).
Proof.
  induction 1 as [p x Hp Hx|p x q l Hp Hx Hq IH]; intros fuel nf job Hfuel.
  - destruct fuel as [|fuel]; [simpl in Hfuel; lia|].
    simpl. rewrite Hp. simpl. rewrite Hx. unfold Path.update. rewrite Hp.
    simpl. eauto.
  - destruct fuel as [|fuel]; [simpl in Hfuel; lia|].
    simpl in Hfuel.
    assert (∃ y, h !! q = Some y) as [y Hy] by (inversion Hq; eauto).
    simpl. rewrite Hp. simpl. rewrite Hx, Hy. simpl.
    match goal with
    | |- ∃ _ _ _, match ?c with _ => _ end = _ => destruct c as [nf'|]
    end; [|eauto].
    destruct (IH fuel nf' job) as (r1 & h1 & job1 & Hrec); [lia|].
    rewrite Hrec. simpl.
    destruct (AddFlow_effect _ _ _ _ _ _ _ _ _ _ Hq Hrec)
      as (Hframe & Hshape & _).
    rewrite Hframe by (by eapply ancestry_not_below).
    rewrite Hp. simpl. rewrite Hx. simpl.
    pose proof (Hshape q) as Hsq. rewrite Hy in Hsq.
    destruct (h1 !! q) as [y1|] eqn:Hy1; [|done]. simpl.
    unfold Path.update. rewrite Hframe by (by eapply ancestry_not_below).
    rewrite Hp. simpl. eauto.
Qed.

Lemma legs_cons h p x q y l :
  h !! p = Some x → Path.parent x = Some q → h !! q = Some y →
  Path.legs h (p :: l) = (Path.node y, Path.node x) :: Path.legs h l.
Proof.
  intros Hp Hx Hq. unfold Path.legs. simpl.
  unfold Path.leg at 1. rewrite Hp. simpl. rewrite Hx. simpl. by rewrite Hq.
Qed.

(** One call with a finite saturation, on a chain that runs along no edge
    twice: edges off the chain keep their flow, and no edge flow grows
    beyond the larger of its old value and its usable capacity. *)
Lemma AddFlow_bound ms fuel :
  ms ≠ UINT_MAX →
  ∀ p l nf (h : gmap nat Path.t) job r h' job',
    Path.ancestry h p l → NoDup (Path.legs h l) → (0 ≤ nf)%Z →
    Path.AddFlow fuel p nf ms (h, job) = Some (r, (h', job')) →
    (∀ i j, (i, j) ∉ Path.legs h l →
            LinkGraphJob.Flow job' i j = LinkGraphJob.Flow job i j) ∧
    (∀ i j, (0 ≤ LinkGraphJob.Flow job i j)%Z →
            (0 ≤ LinkGraphJob.Flow job' i j
             ≤ LinkGraphJob.Flow job i j `max` Path.usable_cap job ms i j)%Z).
Proof.
  intros Hms.
  induction fuel as [|fuel IH];
    intros p l nf h job r h' job' Hanc Hnd Hnf Hrun; [done|].
  pose proof Hrun as Hrun0.
  simpl in Hrun.
  destruct (h !! p) as [x|] eqn:Hp; [|done]. simpl in Hrun.
  destruct (Path.parent x) as [par|] eqn:Hpar.
  - assert (∃ l', l = p :: l' ∧ Path.ancestry h par l') as (l' & -> & Hq).
    { inversion Hanc; simplify_eq; eauto. }
    destruct (h !! par) as [y|] eqn:Hy; [|done]. simpl in Hrun.
    rewrite (legs_cons _ _ _ _ _ _ Hp Hpar Hy) in Hnd |- *.
    apply NoDup_cons in Hnd as [Hfresh Hnd].
    rewrite decide_True in Hrun by done.
    destruct (decide (Path.usable_cap job ms (Path.node y) (Path.node x) >
                      LinkGraphJob.Flow job (Path.node y) (Path.node x))%Z)
      as [Hroom|Hfull].
    2:{ simplify_eq. split; [done|]. intros; lia. }
    set (i := Path.node y) in *. set (j := Path.node x) in *.
    set (nf' := (nf `min` (Path.usable_cap job ms i j
                           - LinkGraphJob.Flow job i j))%Z) in *.
    destruct (Path.AddFlow fuel par nf' ms (h, job))
      as [[r1 [h1 job1]]|] eqn:Hrec; [|done].
    assert (0 ≤ nf')%Z as Hnf' by (unfold nf'; lia).
    pose proof (AddFlow_result_range _ _ _ _ _ _ _ Hnf' Hrec) as Hr1.
    destruct (IH _ _ _ _ _ _ _ _ Hq Hnd Hnf' Hrec) as (Hframe & Hbound).
    simpl in Hrun.
    destruct (h1 !! p) as [x1|]; [|done]. simpl in Hrun.
    destruct (Path.parent x1) as [par1|]; [|done]. simpl in Hrun.
    destruct (h1 !! par1) as [y1|]; [|done]. simpl in Hrun.
    destruct (Path.update p _ h1) as [h2|]; [|done].
    simpl in Hrun. simplify_eq.
    assert (∀ i' j' job2,
      LinkGraphJob.Flow job2 = LinkGraphJob.Flow job1 →
      LinkGraphJob.edges job2 = LinkGraphJob.edges job1 →
      ((i', j') ∉ (i, j) :: Path.legs h l' →
         LinkGraphJob.Flow (LinkGraphJob.Edge_AddFlow i j r job2) i' j'
         = LinkGraphJob.Flow job i' j') ∧
      ((0 ≤ LinkGraphJob.Flow job i' j')%Z →
       (0 ≤ LinkGraphJob.Flow (LinkGraphJob.Edge_AddFlow i j r job2) i' j'
        ≤ LinkGraphJob.Flow job i' j' `max` Path.usable_cap job ms i' j')%Z))
      as Hall.
    { intros i' j' job2 HF HE. rewrite Flow_Edge_AddFlow, HF, HE. split.
      - intros [Hne Hnot]%not_elem_of_cons.
        rewrite decide_False by (intros [[-> _] [-> _]]; done).
        by apply Hframe.
      - intros H0.
        destruct (decide ((i = i' ∧ _) ∧ _)) as [[[Hi _] [Hj _]]|_].
        + rewrite <- Hi, <- Hj in *. rewrite (Hframe i j Hfresh).
          pose proof (usable_cap_uint job ms i j).
          rewrite wrap_uint_small by lia. lia.
        + by apply Hbound. }
    destruct (decide (_ ∧ _)); split; intros i' j'; by apply Hall.
  - destruct (Path.update p _ h) as [h2|]; [|done].
    simpl in Hrun. simplify_eq. split; [done|]. intros; lia.
Qed.

Lemma Flow_Init job i j : LinkGraphJob.Flow (LinkGraphJob.Init job) i j = 0%Z.
Proof.
  unfold LinkGraphJob.Flow, LinkGraphJob.Init. simpl.
  rewrite !list_lookup_total_alt.
  rewrite !list_lookup_fmap.
  destruct (resize _ _ _ !! i) as [row|]; simpl; [|done].
  rewrite !list_lookup_fmap.
  by destruct (resize _ _ _ !! j).
Qed.

(** A freshly initialised job is within every saturation bound. *)
Lemma Init_saturation_bound ms job :
  Path.saturation_bound ms (LinkGraphJob.Init job).
Proof.
  intros i j. rewrite Flow_Init. split; [done|]. apply usable_cap_nonneg.
Qed.

Lemma pushes_saturation_bound ms job job' :
  ms ≠ UINT_MAX → Path.pushes ms job job' →
  Path.saturation_bound ms job → Path.saturation_bound ms job'.
Proof.
  intros Hms. induction 1 as [|job h p l nf fuel r h' job' job'' Hanc Hnd Hnf Hrun _ IH];
    intros Hb; [done|].
  apply IH. intros i j.
  destruct (AddFlow_bound _ _ Hms _ _ _ _ _ _ _ _ Hanc Hnd Hnf Hrun) as [_ Hbound].
  destruct (AddFlow_effect _ _ _ _ _ _ _ _ _ _ Hanc Hrun) as (_ & _ & Hlg).
  rewrite (usable_cap_link_graph _ _ _ _ _ Hlg).
  specialize (Hb i j). specialize (Hbound i j). lia.
Qed.

(** C3 (amended).  Let [max_saturation] be finite (not [UINT_MAX]).
    (1) Starting from a job in which every edge flow is within its usable
    capacity [capacity * max_saturation / 100] (computed in [uint], as the
    code does), after any sequence of [AddFlow] calls with that
    [max_saturation], each on a parent chain that runs along no edge twice,
    every edge flow is still within its usable capacity, and so at most
    the exact quotient [capacity * max_saturation / 100].
    (2) When the flow of the edge into a leg is at or above the usable
    capacity, [AddFlow] on that leg returns 0 and changes neither the paths
    nor the job: no recursion, no push. *)
Theorem AddFlow_respects_saturation max_saturation job :
  max_saturation ≠ UINT_MAX →
  (Path.saturation_bound max_saturation job →
   ∀ job', Path.pushes max_saturation job job' →
     ∀ i j,
       (0 ≤ LinkGraphJob.Flow job' i j
        ≤ Path.usable_cap job' max_saturation i j)%Z
       ∧ ((0 ≤ LinkGraphJob.Capacity job' i j * max_saturation)%Z →
          (LinkGraphJob.Flow job' i j
           ≤ LinkGraphJob.Capacity job' i j * max_saturation / 100)%Z))
  ∧ (∀ (h : gmap nat Path.t) this x par y new_flow fuel,
       h !! this = Some x → Path.parent x = Some par → h !! par = Some y →
       (Path.usable_cap job max_saturation (Path.node y) (Path.node x)
        ≤ LinkGraphJob.Flow job (Path.node y) (Path.node x))%Z →
       Path.AddFlow (S fuel) this new_flow max_saturation (h, job)
       = Some (0%Z, (h, job))).
Proof.
  intros Hms. split.
  - intros Hb job' Hpush i j.
    pose proof (pushes_saturation_bound _ _ _ Hms Hpush Hb i j) as Hij.
    split; [done|]. intros Hpos.
    etransitivity; [apply Hij|]. unfold Path.usable_cap.
    apply Z.div_le_mono; [lia|]. by apply wrap_uint_le.
  - intros h this x par y nf fuel Hthis Hpar Hy Hfull.
    simpl. rewrite Hthis. simpl. rewrite Hpar, Hy. simpl.
    rewrite decide_True by done. rewrite decide_False by lia. done.
Qed.

Lemma AddFlow_respects_saturation_witness :
  (0 ≤ LinkGraphJob.Flow chain_job_pushed 0 1
   ≤ Path.usable_cap chain_job_pushed 50 0 1)%Z.
Proof.
  assert (50%Z ≠ UINT_MAX) as Hms by discriminate.
  refine (proj1 (proj1 (AddFlow_respects_saturation 50 sample_job Hms)
             (Init_saturation_bound 50 _) chain_job_pushed _ 0 1)).
  eapply (Path.pushes_cons 50 sample_job chain_heap 1 [1; 0] 70 2);
    [| | |reflexivity|apply Path.pushes_nil].
  - chain.
  - apply NoDup_singleton.
  - discriminate.
Defined.

(** C3, as stated, fails on a chain that runs along an edge twice: the legs
    at the addresses 1 and 3 of [loop_heap] both run from node 0 to node 1,
    an edge of capacity 100.  With [max_saturation] 50 its usable capacity
    is 50; pushing 50 along the chain leaves a flow of 100 on it. *)
Lemma AddFlow_saturation_counterexample :
  (h ← Path.Fork 1 0 100 100 5 unforked_heap;
   h ← Path.Fork 2 1 1000 100 5 h;
   Path.Fork 3 2 100 100 5 h) = Some loop_heap
  ∧ Path.ancestry loop_heap 3 [3; 2; 1; 0]
  ∧ Path.saturation_bound 50 sample_job
  ∧ ∃ r h' job',
      Path.AddFlow 4 3 50 50 (loop_heap, sample_job) = Some (r, (h', job'))
      ∧ LinkGraphJob.Capacity job' 0 1 = 100%Z
      ∧ Path.usable_cap job' 50 0 1 = 50%Z
      ∧ LinkGraphJob.Flow job' 0 1 = 100%Z
      ∧ ¬ Path.saturation_bound 50 job'.
Proof.
  split_and!.
  - vm_compute. reflexivity.
  - chain.
  - apply Init_saturation_bound.
  - eexists _, _, _. split; [vm_compute; reflexivity|].
    split_and!; [reflexivity..|].
    intros Hb. specialize (Hb 0 1). vm_compute in Hb.
    destruct Hb as [_ Hb]. by apply Hb.
Qed.

(** C4.  For a leg [this] whose parent chain [l] ends in a root, a requested
    amount [new_flow] that is a [uint], and any [max_saturation]: [AddFlow],
    given fuel for the chain, returns an amount [r] with
    [0 ≤ r ≤ new_flow], and the leg's own flow tally has grown by exactly
    [r] in [uint] arithmetic, that is by [r] itself unless the tally
    overflows. *)
Theorem AddFlow_returns_amount_applied
  (h : gmap nat Path.t) job this l x new_flow max_saturation fuel :
  Path.ancestry h this l → length l ≤ fuel →
  h !! this = Some x → (0 ≤ Path.flow x ≤ UINT_MAX)%Z →
  (0 ≤ new_flow ≤ UINT_MAX)%Z →
  ∃ r h' job' x',
    Path.AddFlow fuel this new_flow max_saturation (h, job)
    = Some (r, (h', job'))
    ∧ (0 ≤ r ≤ new_flow)%Z
    ∧ h' !! this = Some x'
    ∧ Path.flow x' = wrap_uint (Path.flow x + r)
    ∧ ((Path.flow x + r ≤ UINT_MAX)%Z → Path.flow x' = (Path.flow x + r)%Z).
Proof.
  intros Hanc Hfuel Hthis Hflow Hnf.
  destruct (AddFlow_total max_saturation _ _ _ Hanc fuel new_flow job Hfuel)
    as (r & h' & job' & Hrun).
  pose proof (AddFlow_result_range _ _ _ _ _ _ _ (proj1 Hnf) Hrun) as Hr.
  assert (∃ x', h' !! this = Some x'
                ∧ Path.flow x' = wrap_uint (Path.flow x + r)) as (x' & Hx' & Hfl).
  { destruct fuel as [|fuel]; [done|]. pose proof Hrun as Hrun0.
    simpl in Hrun. rewrite Hthis in Hrun. simpl in Hrun.
    destruct (Path.parent x) as [par|] eqn:Hpar.
    - assert (∃ l', l = this :: l' ∧ Path.ancestry h par l') as (l' & -> & Hq).
      { inversion Hanc; simplify_eq; eauto. }
      destruct (h !! par) as [y|] eqn:Hy; [|done]. simpl in Hrun.
      match type of Hrun with
      | match ?c with _ => _ end = _ => destruct c as [nf'|] eqn:Hclamp
      end.
      + destruct (Path.AddFlow fuel par nf' max_saturation (h, job))
          as [[r1 [h1 job1]]|] eqn:Hrec; [|done].
        simpl in Hrun.
        destruct (AddFlow_effect _ _ _ _ _ _ _ _ _ _ Hq Hrec) as (Hframe & _ & _).
        rewrite Hframe in Hrun by (by eapply ancestry_not_below).
        rewrite Hthis in Hrun. simpl in Hrun. rewrite Hpar in Hrun.
        simpl in Hrun.
        destruct (h1 !! par) as [y1|]; [|done]. simpl in Hrun.
        unfold Path.update in Hrun.
        rewrite Hframe in Hrun by (by eapply ancestry_not_below).
        rewrite Hthis in Hrun. simpl in Hrun. simplify_eq.
        eexists. rewrite lookup_insert_eq. done.
      + simplify_eq. exists x. split; [done|].
        rewrite Z.add_0_r, wrap_uint_small; done.
    - unfold Path.update in Hrun. rewrite Hthis in Hrun. simpl in Hrun.
      simplify_eq. eexists. rewrite lookup_insert_eq. done. }
  exists r, h', job', x'. split_and!; [done|lia|lia|done|done|].
  intros Hov. rewrite Hfl. apply wrap_uint_small. lia.
Qed.

Lemma AddFlow_returns_amount_applied_witness :
  ∃ r h' job' x',
    Path.AddFlow 2 1 70 50 (chain_heap, sample_job) = Some (r, (h', job'))
    ∧ (0 ≤ r ≤ 70)%Z
    ∧ h' !! 1 = Some x'
    ∧ Path.flow x' = wrap_uint (0 + r)
    ∧ ((0 + r ≤ UINT_MAX)%Z → Path.flow x' = (0 + r)%Z).
Proof.
  apply (AddFlow_returns_amount_applied chain_heap sample_job 1 [1; 0]
           (Path.mk 5 100 100 0 1 0 0 (Some 0)) 70 50 2).
  - chain.
  - simpl. lia.
  - reflexivity.
  - simpl. unfold UINT_MAX. lia.
  - unfold UINT_MAX. lia.
Defined.

(** C10.  For a leg without parent, [AddFlow] returns the requested amount
    [f] whatever [max_saturation] is, leaves the job (its edges and node
    annotations) as it was, and adds [f] to the leg's flow tally in [uint]
    arithmetic: exactly [f] unless the tally overflows.  No other leg is
    changed. *)
Theorem AddFlow_root (h : gmap nat Path.t) job this x f max_saturation fuel :
  h !! this = Some x → Path.parent x = None →
  Path.AddFlow (S fuel) this f max_saturation (h, job)
  = Some (f, (<[this := Path.set_flow (wrap_uint (Path.flow x + f)) x]> h, job))
  ∧ ((0 ≤ Path.flow x + f ≤ UINT_MAX)%Z →
     wrap_uint (Path.flow x + f) = (Path.flow x + f)%Z).
Proof.
  intros Hthis Hroot. split; [|apply wrap_uint_small].
  simpl. rewrite Hthis. simpl. rewrite Hroot.
  unfold Path.update. rewrite Hthis. done.
Qed.

Lemma AddFlow_root_witness :
  Path.AddFlow 1 0 7 50 (chain_heap, sample_job)
  = Some (7%Z, (<[0 := Path.set_flow (wrap_uint (0 + 7))
                         (Path.mk 0 UINT_MAX INT_MAX 0 0 0 1 None)]> chain_heap,
                sample_job))
  ∧ ((0 ≤ 0 + 7 ≤ UINT_MAX)%Z → wrap_uint (0 + 7) = (0 + 7)%Z).
Proof.
  apply (AddFlow_root chain_heap sample_job 0
           (Path.mk 0 UINT_MAX INT_MAX 0 0 0 1 None) 7 50 0);
    reflexivity.
Defined.

(** ** Fork *)

Lemma update_other p f (h h' : gmap nat Path.t) q :
  Path.update p f h = Some h' → q ≠ p → h' !! q = h !! q.
Proof.
  intros (x & _ & ->)%update_Some ?. by rewrite lookup_insert_ne.
Qed.

Lemma update_at p f (h h' : gmap nat Path.t) x :
  Path.update p f h = Some h' → h !! p = Some x → h' !! p = Some (f x).
Proof.
  intros (x' & Hx' & ->)%update_Some ?. rewrite lookup_insert_eq. congruence.
Qed.

(** A write that keeps the projection [g] of the written leg keeps it
    everywhere. *)
Lemma update_fmap {A} (g : Path.t → A) p f (h h' : gmap nat Path.t) q :
  Path.update p f h = Some h' → (∀ x, g (f x) = g x) →
  g <$> h' !! q = g <$> h !! q.
Proof.
  intros (x & Hx & ->)%update_Some Hg. destruct (decide (q = p)) as [->|?].
  - rewrite lookup_insert_eq, Hx. simpl. by rewrite Hg.
  - by rewrite lookup_insert_ne.
Qed.

Lemma update_fmap_at {A} (g : Path.t → A) p f (h h' : gmap nat Path.t) :
  Path.update p f h = Some h' →
  g <$> h' !! p = (λ x, g (f x)) <$> h !! p.
Proof.
  intros (x & Hx & ->)%update_Some. by rewrite lookup_insert_eq, Hx.
Qed.

(** A run of [Fork], statement by statement. *)
Lemma Fork_Some_inv (h h' : gmap nat Path.t) this base cap fc dist :
  Path.Fork this base cap fc dist h = Some h' →
  ∃ b0 h1 b1 h2 b2 h3 x3 h4 b4 x4,
    h !! base = Some b0
    ∧ Path.update this (Path.set_capacity (Path.capacity b0 `min` cap)) h
      = Some h1
    ∧ h1 !! base = Some b1
    ∧ Path.update this
        (Path.set_free_capacity (Path.free_capacity b1 `min` fc)) h1 = Some h2
    ∧ h2 !! base = Some b2
    ∧ Path.update this
        (Path.set_distance (wrap_uint (Path.distance b2 + dist))) h2 = Some h3
    ∧ h3 !! this = Some x3
    ∧ (Path.distance x3 > 0)%Z
    ∧ (if decide (Path.parent x3 ≠ Some base) then
         h ← Path.Detach this h3;
         h ← Path.SetParent this base h;
         Path.update base
           (λ y, Path.set_num_children (wrap_uint (Path.num_children y + 1)) y)
           h
       else Some h3) = Some h4
    ∧ h4 !! base = Some b4
    ∧ h4 !! this = Some x4
    ∧ h' = <[this := Path.set_origin (Path.origin b4) x4]> h4.
Proof.
  unfold Path.Fork. intros H.
  apply bind_Some in H as (b0 & Hb0 & H).
  apply bind_Some in H as (h1 & Hh1 & H).
  apply bind_Some in H as (b1 & Hb1 & H).
  apply bind_Some in H as (h2 & Hh2 & H).
  apply bind_Some in H as (b2 & Hb2 & H).
  apply bind_Some in H as (h3 & Hh3 & H).
  apply bind_Some in H as (x3 & Hx3 & H).
  destruct (decide (Path.distance x3 > 0)%Z) as [Hpos|]; [|done].
  apply bind_Some in H as (h4 & Hh4 & H).
  apply bind_Some in H as (b4 & Hb4 & H).
  apply update_Some in H as (x4 & Hx4 & ->).
  by exists b0, h1, b1, h2, b2, h3, x3, h4, b4, x4.
Qed.

(** The child counts after [Detach]. *)
Lemma Detach_num_children this (h h' : gmap nat Path.t) x q :
  h !! this = Some x → Path.Detach this h = Some h' →
  Path.num_children <$> h' !! q
  = (λ n, if decide (Path.parent x = Some q) then wrap_uint (n - 1) else n)
      <$> (Path.num_children <$> h !! q).
Proof.
  intros Hx H. unfold Path.Detach in H. rewrite Hx in H. simpl in H.
  destruct (Path.parent x) as [old|] eqn:Hold.
  - apply bind_Some in H as (h1 & H1 & H2).
    rewrite (update_fmap _ _ _ _ _ q H2) by done.
    destruct (decide (Some old = Some q)) as [[= ->]|Hne].
    + rewrite (update_fmap_at _ _ _ _ _ H1). rewrite <- option_fmap_compose.
      done.
    + rewrite (update_other _ _ _ _ q H1) by congruence.
      rewrite <- option_fmap_compose. by destruct (h !! q).
  - simplify_eq. rewrite <- option_fmap_compose. by destruct (_ !! q).
Qed.

(** The child counts after [Fork], for a leg [this] that was [x]. *)
Lemma Fork_num_children (h h' : gmap nat Path.t) this base cap fc dist x q :
  h !! this = Some x → Path.Fork this base cap fc dist h = Some h' →
  Path.num_children <$> h' !! q
  = (λ n, if decide (Path.parent x = Some base) then n
          else
            let n := if decide (Path.parent x = Some q)
                     then wrap_uint (n - 1) else n in
            if decide (q = base) then wrap_uint (n + 1) else n)
      <$> (Path.num_children <$> h !! q).
Proof.
  intros Hx H.
  apply Fork_Some_inv in H
    as (b0 & h1 & b1 & h2 & b2 & h3 & x3 & h4 & b4 & x4
        & Hb0 & Hh1 & Hb1 & Hh2 & Hb2 & Hh3 & Hx3 & Hpos & Hh4 & Hb4 & Hx4 & ->).
  assert (Path.parent x3 = Path.parent x) as Hpar.
  { pose proof (update_fmap Path.parent _ _ _ _ this Hh1 (λ _, eq_refl)) as E1.
    pose proof (update_fmap Path.parent _ _ _ _ this Hh2 (λ _, eq_refl)) as E2.
    pose proof (update_fmap Path.parent _ _ _ _ this Hh3 (λ _, eq_refl)) as E3.
    rewrite Hx3, E2, E1, Hx in E3. by injection E3. }
  assert (Path.num_children <$> h3 !! q = Path.num_children <$> h !! q)
    as Hcount.
  { by rewrite (update_fmap Path.num_children _ _ _ _ q Hh3 (λ _, eq_refl)),
      (update_fmap Path.num_children _ _ _ _ q Hh2 (λ _, eq_refl)),
      (update_fmap Path.num_children _ _ _ _ q Hh1 (λ _, eq_refl)). }
  assert (Path.num_children <$>
            <[this := Path.set_origin (Path.origin b4) x4]> h4 !! q
          = Path.num_children <$> h4 !! q) as ->.
  { destruct (decide (q = this)) as [->|?].
    - by rewrite lookup_insert_eq, Hx4.
    - by rewrite lookup_insert_ne. }
  rewrite Hpar in Hh4. rewrite <- Hcount.
  destruct (decide (Path.parent x = Some base)) as [Heq|Hne].
  - rewrite decide_False in Hh4 by (by intros []).
    injection Hh4 as <-. by destruct (h3 !! q).
  - rewrite decide_True in Hh4 by done.
    apply bind_Some in Hh4 as (h5 & Hh5 & Hh4).
    apply bind_Some in Hh4 as (h6 & Hh6 & Hh7).
    unfold Path.SetParent in Hh6.
    pose proof (Detach_num_children _ _ _ _ q Hx3 Hh5) as E5.
    rewrite Hpar in E5.
    pose proof (update_fmap Path.num_children _ _ _ _ q Hh6 (λ _, eq_refl)) as E6.
    destruct (decide (q = base)) as [->|Hqb].
    + rewrite (update_fmap_at _ _ _ _ _ Hh7).
      rewrite (option_fmap_compose Path.num_children
                 (λ n, wrap_uint (n + 1))), E6, E5.
      rewrite <- !option_fmap_compose. done.
    + rewrite (update_other _ _ _ _ q Hh7) by done. rewrite E6, E5.
      rewrite <- !option_fmap_compose. done.
Qed.

Lemma update_is_Some p f (h : gmap nat Path.t) :
  is_Some (h !! p) → ∃ h', Path.update p f h = Some h'.
Proof. intros [x Hx]. unfold Path.update. rewrite Hx. simpl. eauto. Qed.

Lemma update_dom p f (h h' : gmap nat Path.t) q :
  Path.update p f h = Some h' → is_Some (h' !! q) ↔ is_Some (h !! q).
Proof.
  intros (x & Hx & ->)%update_Some. rewrite lookup_insert_is_Some.
  destruct (decide (p = q)) as [<-|]; [|tauto].
  split; [by eauto|tauto].
Qed.

Lemma Detach_is_Some this (h : gmap nat Path.t) x :
  h !! this = Some x →
  (∀ old, Path.parent x = Some old → is_Some (h !! old)) →
  ∃ h', Path.Detach this h = Some h'
        ∧ ∀ q, is_Some (h' !! q) ↔ is_Some (h !! q).
Proof.
  intros Hx Hold. unfold Path.Detach. rewrite Hx. simpl.
  destruct (Path.parent x) as [old|]; [|by eauto].
  destruct (update_is_Some old
              (λ y, Path.set_num_children (wrap_uint (Path.num_children y - 1)) y)
              h (Hold _ eq_refl)) as [h1 H1].
  rewrite H1. simpl.
  destruct (update_is_Some this (Path.set_parent None) h1) as [h2 H2].
  { apply (update_dom _ _ _ _ this H1). eauto. }
  exists h2. split; [done|]. intros q.
  by rewrite (update_dom _ _ _ _ q H2), (update_dom _ _ _ _ q H1).
Qed.

(** [Fork] runs through when its pointers are valid and the assertion on
    the new distance holds. *)
Lemma Fork_succeeds (h : gmap nat Path.t) this base cap fc dist x b :
  h !! this = Some x → h !! base = Some b →
  (∀ old, Path.parent x = Some old → is_Some (h !! old)) →
  (wrap_uint (Path.distance b + dist) > 0)%Z →
  is_Some (Path.Fork this base cap fc dist h).
Proof.
  intros Hx Hb Hold Hpos.
  destruct (update_is_Some this
              (Path.set_capacity (Path.capacity b `min` cap)) h)
    as [h1 H1]; [by eauto|].
  assert (∀ q, is_Some (h1 !! q) ↔ is_Some (h !! q)) as Hdom1
    by (intros q; apply (update_dom _ _ _ _ q H1)).
  destruct (proj2 (Hdom1 base)) as [b1 Hb1]; [by eauto|].
  destruct (update_is_Some this
              (Path.set_free_capacity (Path.free_capacity b1 `min` fc)) h1)
    as [h2 H2]; [apply Hdom1; by eauto|].
  assert (∀ q, is_Some (h2 !! q) ↔ is_Some (h !! q)) as Hdom2
    by (intros q; rewrite (update_dom _ _ _ _ q H2); apply Hdom1).
  destruct (proj2 (Hdom2 base)) as [b2 Hb2]; [by eauto|].
  destruct (update_is_Some this
              (Path.set_distance (wrap_uint (Path.distance b2 + dist))) h2)
    as [h3 H3]; [apply Hdom2; by eauto|].
  assert (∀ q, is_Some (h3 !! q) ↔ is_Some (h !! q)) as Hdom3
    by (intros q; rewrite (update_dom _ _ _ _ q H3); apply Hdom2).
  assert (Path.distance b2 = Path.distance b) as Hd.
  { pose proof (update_fmap Path.distance _ _ _ _ base H1 (λ _, eq_refl)) as E1.
    pose proof (update_fmap Path.distance _ _ _ _ base H2 (λ _, eq_refl)) as E2.
    rewrite Hb2, E1, Hb in E2. by injection E2. }
  assert (∃ x2, h2 !! this = Some x2 ∧ Path.parent x2 = Path.parent x)
    as (x2 & Hx2 & Hp2).
  { pose proof (update_fmap Path.parent _ _ _ _ this H1 (λ _, eq_refl)) as E1.
    pose proof (update_fmap Path.parent _ _ _ _ this H2 (λ _, eq_refl)) as E2.
    rewrite E1, Hx in E2. destruct (h2 !! this) as [x2|]; [|done].
    exists x2. split; [done|]. by injection E2. }
  pose proof (update_at _ _ _ _ _ H3 Hx2) as Hx3.
  set (x3 := Path.set_distance (wrap_uint (Path.distance b2 + dist)) x2) in *.
  assert (∃ h4, (if decide (Path.parent x3 ≠ Some base) then
                   h ← Path.Detach this h3;
                   h ← Path.SetParent this base h;
                   Path.update base
                     (λ y, Path.set_num_children
                             (wrap_uint (Path.num_children y + 1)) y) h
                 else Some h3) = Some h4
                ∧ ∀ q, is_Some (h4 !! q) ↔ is_Some (h !! q))
    as (h4 & Hh4 & Hdom4).
  { destruct (decide _); [|by eauto].
    destruct (Detach_is_Some this h3 x3 Hx3) as (h5 & H5 & Hdom5).
    { intros old Ho. apply Hdom3, Hold. by rewrite <- Hp2. }
    destruct (update_is_Some this (Path.set_parent (Some base)) h5)
      as [h6 H6]; [apply Hdom5, Hdom3; by eauto|].
    destruct (update_is_Some base
                (λ y, Path.set_num_children
                        (wrap_uint (Path.num_children y + 1)) y) h6)
      as [h7 H7]; [apply (update_dom _ _ _ _ base H6), Hdom5, Hdom3; by eauto|].
    exists h7. split.
    - apply bind_Some. exists h5. split; [done|].
      apply bind_Some. exists h6. by split.
    - intros q.
      by rewrite (update_dom _ _ _ _ q H7), (update_dom _ _ _ _ q H6), Hdom5. }
  destruct (proj2 (Hdom4 base)) as [b4 Hb4]; [by eauto|].
  destruct (update_is_Some this (Path.set_origin (Path.origin b4)) h4)
    as [h8 H8]; [apply Hdom4; by eauto|].
  exists h8. unfold Path.Fork.
  apply bind_Some. exists b. split; [done|].
  apply bind_Some. exists h1. split; [done|].
  apply bind_Some. exists b1. split; [done|].
  apply bind_Some. exists h2. split; [done|].
  apply bind_Some. exists b2. split; [done|].
  apply bind_Some. exists h3. split; [done|].
  apply bind_Some. exists x3. split; [done|].
  rewrite decide_True by (unfold x3; cbn [Path.distance Path.set_distance];
                          by rewrite Hd).
  apply bind_Some. exists h4. split; [done|].
  apply bind_Some. exists b4. by split.
Qed.

(** The re-parenting block of [Fork] (lines 283-287) only writes child
    counts and the parent of [this]. *)
Lemma reparent_inv (h3 h4 : gmap nat Path.t) this base x3 :
  h3 !! this = Some x3 →
  (if decide (Path.parent x3 ≠ Some base) then
     h ← Path.Detach this h3;
     h ← Path.SetParent this base h;
     Path.update base
       (λ y, Path.set_num_children (wrap_uint (Path.num_children y + 1)) y) h
   else Some h3) = Some h4 →
  (∀ {A} (g : Path.t → A),
     (∀ v y, g (Path.set_num_children v y) = g y) →
     (∀ v y, g (Path.set_parent v y) = g y) →
     ∀ q, g <$> h4 !! q = g <$> h3 !! q)
  ∧ (∀ q, q ≠ this → Path.parent <$> h4 !! q = Path.parent <$> h3 !! q)
  ∧ Path.parent <$> h4 !! this = Some (Some base).
Proof.
  intros Hx3 H. destruct (decide (Path.parent x3 ≠ Some base)) as [Hne|Heq].
  - apply bind_Some in H as (h5 & H5 & H).
    apply bind_Some in H as (h6 & H6 & H7).
    unfold Path.SetParent in H6. unfold Path.Detach in H5.
    rewrite Hx3 in H5. simpl in H5.
    assert ((∀ {A} (g : Path.t → A),
               (∀ v y, g (Path.set_num_children v y) = g y) →
               (∀ v y, g (Path.set_parent v y) = g y) →
               ∀ q, g <$> h5 !! q = g <$> h3 !! q)
            ∧ (∀ q, q ≠ this →
                    Path.parent <$> h5 !! q = Path.parent <$> h3 !! q))
      as [Hg5 Hp5].
    { destruct (Path.parent x3) as [old|].
      - apply bind_Some in H5 as (h5' & H5' & H5). split.
        + intros A g Hg1 Hg2 q.
          rewrite (update_fmap g _ _ _ _ q H5) by (intros; apply Hg2).
          apply (update_fmap g _ _ _ _ q H5'). intros; apply Hg1.
        + intros q Hq. rewrite (update_other _ _ _ _ q H5) by done.
          by apply (update_fmap Path.parent _ _ _ _ q H5').
      - by simplify_eq. }
    split_and!.
    + intros A g Hg1 Hg2 q.
      rewrite (update_fmap g _ _ _ _ q H7) by (intros; apply Hg1).
      rewrite (update_fmap g _ _ _ _ q H6) by (intros; apply Hg2).
      by apply Hg5.
    + intros q Hq.
      rewrite (update_fmap Path.parent _ _ _ _ q H7) by done.
      rewrite (update_other _ _ _ _ q H6) by done. by apply Hp5.
    + rewrite (update_fmap Path.parent _ _ _ _ this H7) by done.
      rewrite (update_fmap_at _ _ _ _ _ H6).
      apply update_Some in H6 as (y & -> & _). done.
  - apply dec_stable in Heq. simplify_eq. split_and!; [done|done|].
    by rewrite Hx3, <- Heq.
Qed.

(** What [Fork] leaves in [this], and that it leaves the measures and
    parents of all other legs alone. *)
Lemma Fork_effect (h h' : gmap nat Path.t) this base cap fc dist b :
  h !! base = Some b → Path.Fork this base cap fc dist h = Some h' →
  (∃ x', h' !! this = Some x'
         ∧ Path.capacity x' = (Path.capacity b `min` cap)%Z
         ∧ Path.free_capacity x' = (Path.free_capacity b `min` fc)%Z
         ∧ Path.distance x' = wrap_uint (Path.distance b + dist)
         ∧ Path.parent x' = Some base)
  ∧ (∀ q, q ≠ this →
       (λ y, (Path.distance y, Path.capacity y, Path.free_capacity y,
              Path.parent y)) <$> h' !! q
       = (λ y, (Path.distance y, Path.capacity y, Path.free_capacity y,
                Path.parent y)) <$> h !! q).
Proof.
  intros Hb H.
  apply Fork_Some_inv in H
    as (b0 & h1 & b1 & h2 & b2 & h3 & x3 & h4 & b4 & x4
        & Hb0 & Hh1 & Hb1 & Hh2 & Hb2 & Hh3 & Hx3 & Hpos & Hh4 & Hb4 & Hx4 & ->).
  assert (b0 = b) as -> by congruence.
  destruct (reparent_inv _ _ _ _ _ Hx3 Hh4) as (Hg & Hpo & Hpt).
  split.
  - eexists. rewrite lookup_insert_eq. split; [done|]. simpl.
    assert (Path.free_capacity b1 = Path.free_capacity b) as Hfc.
    { pose proof (update_fmap Path.free_capacity _ _ _ _ base Hh1 (λ _, eq_refl)) as E.
      rewrite Hb1, Hb in E. by injection E. }
    assert (Path.distance b2 = Path.distance b) as Hd.
    { pose proof (update_fmap Path.distance _ _ _ _ base Hh1 (λ _, eq_refl)) as E1.
      pose proof (update_fmap Path.distance _ _ _ _ base Hh2 (λ _, eq_refl)) as E2.
      rewrite Hb2, E1, Hb in E2. by injection E2. }
    split_and!.
    + pose proof (Hg _ Path.capacity (λ _ _, eq_refl) (λ _ _, eq_refl) this) as E4.
      rewrite (update_fmap Path.capacity _ _ _ _ this Hh3 (λ _, eq_refl)) in E4.
      rewrite (update_fmap Path.capacity _ _ _ _ this Hh2 (λ _, eq_refl)) in E4.
      rewrite (update_fmap_at _ _ _ _ _ Hh1) in E4.
      apply update_Some in Hh1 as (y & Hy & _).
      rewrite Hx4, Hy in E4. by injection E4.
    + pose proof (Hg _ Path.free_capacity (λ _ _, eq_refl) (λ _ _, eq_refl) this) as E4.
      rewrite (update_fmap Path.free_capacity _ _ _ _ this Hh3 (λ _, eq_refl)) in E4.
      rewrite (update_fmap_at _ _ _ _ _ Hh2) in E4.
      apply update_Some in Hh2 as (y & Hy & _).
      rewrite Hx4, Hy, Hfc in E4. by injection E4.
    + pose proof (Hg _ Path.distance (λ _ _, eq_refl) (λ _ _, eq_refl) this) as E4.
      rewrite (update_fmap_at _ _ _ _ _ Hh3) in E4.
      apply update_Some in Hh3 as (y & Hy & _).
      rewrite Hx4, Hy, Hd in E4. by injection E4.
    + rewrite Hx4 in Hpt. by injection Hpt.
  - intros q Hq. rewrite lookup_insert_ne by done.
    pose proof (Hg _ (λ y, (Path.distance y, Path.capacity y,
                             Path.free_capacity y))
                  (λ _ _, eq_refl) (λ _ _, eq_refl) q) as E4.
    pose proof (Hpo q Hq) as P4.
    rewrite (update_other _ _ _ _ q Hh3), (update_other _ _ _ _ q Hh2),
      (update_other _ _ _ _ q Hh1) in E4, P4 by done.
    destruct (h4 !! q) as [y4|], (h !! q) as [y|]; simplify_eq/=; congruence.
Qed.

Lemma ancestry_ext (h h' : gmap nat Path.t) p l :
  Path.ancestry h p l →
  (∀ q, q ∈ l → measures <$> h' !! q = measures <$> h !! q) →
  Path.ancestry h' p l.
Proof.
  induction 1 as [p x Hp Hx|p x q l Hp Hx Hq IH]; intros Hext.
  - pose proof (Hext p ltac:(list_mem)) as E. rewrite Hp in E.
    destruct (h' !! p) as [x'|] eqn:Hp'; [|done].
    apply (Path.ancestry_root _ _ x'); [done|]. simplify_eq/=. congruence.
  - pose proof (Hext p ltac:(list_mem)) as E. rewrite Hp in E.
    destruct (h' !! p) as [x'|] eqn:Hp'; [|done].
    apply (Path.ancestry_step _ _ x' q); [done| |].
    + simplify_eq/=. congruence.
    + apply IH. intros q' Hq'. apply Hext. list_mem.
Qed.

Lemma ordered_ext (h h' : gmap nat Path.t) p l :
  Path.ancestry h p l →
  (∀ q, q ∈ l → measures <$> h' !! q = measures <$> h !! q) →
  Path.ordered h p → Path.ordered h' p.
Proof.
  intros Hanc Hext Hord. revert l Hanc Hext.
  induction Hord as [p x Hp Hx|p x q y Hp Hx Hq Hd Hc Hf Hord IH];
    intros l Hanc Hext.
  - pose proof (Hext p) as E. rewrite Hp in E.
    destruct (ancestry_head _ _ _ Hanc) as [l' ->].
    specialize (E ltac:(list_mem)).
    destruct (h' !! p) as [x'|] eqn:Hp'; [|done].
    apply (Path.ordered_root _ _ x'); [done|]. simplify_eq/=. congruence.
  - assert (∃ l', l = p :: l' ∧ Path.ancestry h q l') as (l' & -> & Hq').
    { inversion Hanc; simplify_eq; eauto. }
    destruct (ancestry_head _ _ _ Hq') as [l'' ->].
    pose proof (Hext p ltac:(list_mem)) as Ep. rewrite Hp in Ep.
    pose proof (Hext q ltac:(list_mem)) as Eq. rewrite Hq in Eq.
    destruct (h' !! p) as [x'|] eqn:Hp'; [|done].
    destruct (h' !! q) as [y'|] eqn:Hq''; [|done].
    unfold measures in Ep, Eq. simplify_eq/=.
    apply (Path.ordered_step _ _ x' q y'); try done; try congruence; try lia.
    apply (IH (q :: l'')); [done|]. intros q' Hq'0. apply Hext.
    apply elem_of_cons. by right.
Qed.

Lemma ordered_inv (h : gmap nat Path.t) p x q y :
  Path.ordered h p →
  h !! p = Some x → Path.parent x = Some q → h !! q = Some y →
  (Path.distance y < Path.distance x)%Z
  ∧ (Path.capacity x ≤ Path.capacity y)%Z
  ∧ (Path.free_capacity x ≤ Path.free_capacity y)%Z.
Proof. destruct 1; intros; simplify_eq; done. Qed.

(** One admissible [Fork] keeps the invariant of the whole heap. *)
Lemma Fork_well_ordered
  (h h' : gmap nat Path.t) this base cap free_cap dist x b :
  h !! this = Some x → h !! base = Some b → this ≠ base →
  (∀ q y, h !! q = Some y → Path.parent y ≠ Some this) →
  (0 < dist)%Z → (0 ≤ Path.distance b)%Z →
  (Path.distance b + dist ≤ UINT_MAX)%Z →
  Path.Fork this base cap free_cap dist h = Some h' →
  Path.well_ordered h → Path.well_ordered h'.
Proof.
  intros Hx Hb Hne Hleaf Hdist Hd0 Hov Hfork Hwo.
  assert (wrap_uint (Path.distance b + dist) = Path.distance b + dist)%Z
    as Hwrap by (apply wrap_uint_small; lia).
  destruct (Fork_effect _ _ _ _ _ _ _ _ Hb Hfork)
    as ((x' & Hx' & Hcap & Hfree & Hdis & Hpar) & Hother).
  assert (∀ q y, q ≠ this → h !! q = Some y →
            ∃ y', h' !! q = Some y' ∧ measures y' = measures y) as Hkeep.
  { intros q y Hq Hy. pose proof (Hother q Hq) as E. rewrite Hy in E.
    destruct (h' !! q) as [y'|]; [|done]. exists y'. split; [done|].
    simpl in E. unfold measures in *. congruence. }
  intros p x1 q Hp Hq.
  destruct (decide (p = this)) as [->|Hpne].
  - rewrite Hx' in Hp. injection Hp as <-.
    assert (q = base) as -> by congruence.
    destruct (Hkeep base b (not_eq_sym Hne) Hb) as (b' & Hb' & Eb).
    exists b'. unfold measures in Eb. simplify_eq/=.
    split_and!; [done|lia|lia|lia].
  - pose proof (Hother p Hpne) as E. rewrite Hp in E.
    destruct (h !! p) as [x0|] eqn:Hp0; [|done].
    assert (measures x1 = measures x0) as Ex
      by (simpl in E; unfold measures in *; congruence).
    unfold measures in Ex. simplify_eq/=.
    assert (Path.parent x0 = Some q) as Hq0 by congruence.
    destruct (Hwo p x0 q Hp0 Hq0) as (y0 & Hy0 & Hd & Hc & Hf).
    assert (q ≠ this) as Hqne.
    { intros ->. by apply (Hleaf p x0 Hp0). }
    destruct (Hkeep q y0 Hqne Hy0) as (y1 & Hy1 & Ey).
    exists y1. unfold measures in Ey. simplify_eq/=.
    split_and!; [done|lia|lia|lia].
Qed.

(** In a heap with the invariant every parent chain is ordered. *)
Lemma well_ordered_chain (h : gmap nat Path.t) p l :
  Path.well_ordered h → Path.ancestry h p l → Path.ordered h p.
Proof.
  intros Hwo. induction 1 as [p x Hp Hx|p x q l Hp Hx Hq IH].
  - by apply (Path.ordered_root _ _ x).
  - destruct (Hwo p x q Hp Hx) as (y & Hy & Hd & Hc & Hf).
    by apply (Path.ordered_step _ _ x q y).
Qed.

(** C5 (amended).  Start from legs among which every child is strictly
    farther than its parent and has at most its capacity and free capacity
    (legs without parents, as [Path::Path] creates them, are such), and run
    any sequence of [Fork] calls each of which forks a leg that has no
    children at that moment onto a different leg, with a positive [dist] and
    a new distance that does not overflow a [uint].  Then afterwards every
    child is strictly farther than its parent and has at most its capacity
    and free capacity, so along every parent chain distance strictly grows
    from root to leaf and capacity and free capacity do not grow; and every
    further such [Fork] runs through.  (Forking a leg that has children can
    leave its children out of order: [Fork_with_children_breaks_order].) *)
Theorem Fork_keeps_chain_ordered (h h' : gmap nat Path.t) :
  Path.well_ordered h → Path.forks h h' →
  Path.well_ordered h'
  ∧ (∀ p l, Path.ancestry h' p l → Path.ordered h' p)
  ∧ (∀ this base cap free_cap dist x b,
       h' !! this = Some x → h' !! base = Some b →
       (0 < dist)%Z → (0 ≤ Path.distance b)%Z →
       (Path.distance b + dist ≤ UINT_MAX)%Z →
       is_Some (Path.Fork this base cap free_cap dist h')).
Proof.
  intros Hwo Hforks.
  assert (Path.well_ordered h') as Hwo'.
  { induction Hforks
      as [h|h this base cap fc dist x b h1 h2 Hx Hb Hne Hleaf Hdist Hd0 Hov
            Hfork _ IH]; [done|].
    apply IH. by eapply (Fork_well_ordered h h1 this base). }
  split_and!.
  - done.
  - intros p l. by apply well_ordered_chain.
  - intros this base cap fc dist x b Hx Hb Hdist Hd0 Hov.
    apply (Fork_succeeds h' this base cap fc dist x b Hx Hb).
    + intros old Hold. destruct (Hwo' this x old Hx Hold) as (y & -> & _).
      done.
    + rewrite wrap_uint_small by lia. lia.
Qed.

(** A leg has no children if a scan of the heap finds none. *)
Lemma no_children_check (h : gmap nat Path.t) this :
  bool_decide (map_Forall (λ (_ : nat) y, Path.parent y ≠ Some this) h)
  = true →
  ∀ q y, h !! q = Some y → Path.parent y ≠ Some this.
Proof. intros Hscan. by apply bool_decide_eq_true_1 in Hscan. Qed.

Lemma Fork_keeps_chain_ordered_witness :
  ∃ h1 h2 : gmap nat Path.t,
    Path.Fork 2 1 60 40 7 fresh_leg_heap = Some h1
    ∧ Path.Fork 2 0 50 30 9 h1 = Some h2
    ∧ Path.ancestry h1 2 [2; 1; 0]
    ∧ Path.ancestry h2 2 [2; 0]
    ∧ Path.well_ordered h2
    ∧ (∀ p l, Path.ancestry h2 p l → Path.ordered h2 p)
    ∧ (∀ this base cap free_cap dist x b,
         h2 !! this = Some x → h2 !! base = Some b →
         (0 < dist)%Z → (0 ≤ Path.distance b)%Z →
         (Path.distance b + dist ≤ UINT_MAX)%Z →
         is_Some (Path.Fork this base cap free_cap dist h2)).
Proof.
  eexists _, _. split; [vm_compute; reflexivity|].
  split; [vm_compute; reflexivity|].
  split; [chain|]. split; [chain|].
  apply (Fork_keeps_chain_ordered fresh_leg_heap).
  - intros p x q Hp Hq. unfold fresh_leg_heap, chain_heap in Hp.
    apply lookup_insert_Some in Hp as [[<- <-]|[_ Hp]]; [discriminate Hq|].
    apply lookup_insert_Some in Hp as [[<- <-]|[_ Hp]]; [discriminate Hq|].
    apply lookup_singleton_Some in Hp as [<- <-].
    injection Hq as <-. eexists. split; [reflexivity|].
    simpl. unfold UINT_MAX, INT_MAX. lia.
  - eapply (Path.forks_cons fresh_leg_heap 2 1 60 40 7);
      [reflexivity|reflexivity|done| |lia|simpl; lia|simpl; unfold UINT_MAX; lia
      |vm_compute; reflexivity|].
    { apply no_children_check. vm_compute. reflexivity. }
    eapply (Path.forks_cons _ 2 0 50 30 9);
      [reflexivity|reflexivity|done| |lia|simpl; lia|simpl; unfold UINT_MAX; lia
      |vm_compute; reflexivity|apply Path.forks_nil].
    apply no_children_check. vm_compute. reflexivity.
Defined.

(** C5, as stated, fails for a leg forked with [dist = 0]: the assertion
    of [Fork] only asks for a positive distance, so the fork onto the leg
    at address 1 (distance 5) runs through and leaves the child at the
    distance of its parent. *)
Lemma Fork_distance_counterexample :
  ∃ h' x' b',
    Path.Fork 2 1 60 40 0 fresh_leg_heap = Some h'
    ∧ h' !! 2 = Some x' ∧ h' !! 1 = Some b'
    ∧ Path.parent x' = Some 1
    ∧ Path.distance x' = 5%Z ∧ Path.distance b' = 5%Z
    ∧ ¬ Path.ordered h' 2.
Proof.
  eexists _, _, _. split; [vm_compute; reflexivity|].
  split_and!; [reflexivity..|].
  intros Hord.
  pose proof (ordered_inv _ 2 _ 1 _ Hord eq_refl eq_refl eq_refl) as [Hd _].
  simpl in Hd. lia.
Qed.

(** Why the amended C5 asks for a leg without children: once the leg at
    address 2 is forked onto the leg at address 1, forking that leg again
    onto its own parent, with a smaller capacity and a larger distance,
    passes every check of [Fork] and leaves its child at address 2 nearer
    than its parent and with more capacity. *)
Example Fork_with_children_breaks_order :
  ∃ h' : gmap nat Path.t,
    (h ← Path.Fork 2 1 100 100 5 fresh_leg_heap;
     Path.Fork 1 0 10 10 20 h) = Some h'
    ∧ Path.ancestry h' 2 [2; 1; 0]
    ∧ (Path.distance <$> h' !! 1 = Some 20%Z)
    ∧ (Path.distance <$> h' !! 2 = Some 10%Z)
    ∧ ¬ Path.ordered h' 2.
Proof.
  eexists. split; [vm_compute; reflexivity|].
  split_and!; [chain|reflexivity|reflexivity|].
  intros Hord.
  pose proof (ordered_inv _ 2 _ 1 _ Hord eq_refl eq_refl eq_refl) as [Hd _].
  simpl in Hd. lia.
Qed.

(** C9.  [this->Fork(base, ...)] on valid pointers, with the assertion on
    the distance holding, runs through, and for the parent [Path.parent x]
    the leg had before the call:
    - if it was [base] already, no child count changes;
    - otherwise the count of the old parent (if there was one) goes down by
      one, the count of [base] goes up by one, and no other count changes.
    The counts are [uint]s: the steps are exactly -1 and +1 unless the
    counter wraps (an old parent with count 0, a base with count
    [UINT_MAX]). *)
Theorem Fork_child_counts
  (h : gmap nat Path.t) this base cap free_cap dist x b :
  h !! this = Some x → h !! base = Some b →
  (∀ old, Path.parent x = Some old → is_Some (h !! old)) →
  (wrap_uint (Path.distance b + dist) > 0)%Z →
  ∃ h',
    Path.Fork this base cap free_cap dist h = Some h'
    ∧ (Path.parent x = Some base →
       ∀ q, Path.num_children <$> h' !! q = Path.num_children <$> h !! q)
    ∧ (Path.parent x ≠ Some base →
       (∀ old y, Path.parent x = Some old → h !! old = Some y →
          ∃ y', h' !! old = Some y'
                ∧ Path.num_children y' = wrap_uint (Path.num_children y - 1)
                ∧ ((1 ≤ Path.num_children y ≤ UINT_MAX)%Z →
                   Path.num_children y' = (Path.num_children y - 1)%Z))
       ∧ (∃ b', h' !! base = Some b'
                ∧ Path.num_children b' = wrap_uint (Path.num_children b + 1)
                ∧ ((0 ≤ Path.num_children b < UINT_MAX)%Z →
                   Path.num_children b' = (Path.num_children b + 1)%Z))
       ∧ (∀ q, q ≠ base → Path.parent x ≠ Some q →
            Path.num_children <$> h' !! q = Path.num_children <$> h !! q)).
Proof.
  intros Hx Hb Hold Hpos.
  destruct (Fork_succeeds h this base cap free_cap dist x b Hx Hb Hold Hpos)
    as [h' Hfork].
  exists h'. split; [done|].
  pose proof (λ q, Fork_num_children _ _ _ _ _ _ _ _ q Hx Hfork) as Hcount.
  split.
  - intros Hsame q. rewrite Hcount.
    rewrite <- option_fmap_compose.
    destruct (h !! q) as [y|]; [|done]. simpl.
    by rewrite (decide_True (P := Path.parent x = Some base)).
  - intros Hdiff. split_and!.
    + intros old y Hpar Hy. specialize (Hcount old). rewrite Hy in Hcount.
      destruct (h' !! old) as [y'|]; [|discriminate Hcount]. simpl in Hcount.
      rewrite (decide_False (P := Path.parent x = Some base)) in Hcount by done.
      rewrite (decide_True (P := Path.parent x = Some old)) in Hcount by done.
      rewrite (decide_False (P := old = base)) in Hcount by congruence.
      injection Hcount as Hcount.
      exists y'. split_and!; [done|done|].
      intros Hrange. rewrite Hcount. apply wrap_uint_small.
      unfold UINT_MAX in *. lia.
    + specialize (Hcount base). rewrite Hb in Hcount.
      destruct (h' !! base) as [b'|]; [|discriminate Hcount]. simpl in Hcount.
      rewrite (decide_False (P := Path.parent x = Some base)) in Hcount by done.
      rewrite (decide_True (P := base = base)) in Hcount by done.
      assert ((if decide (Path.parent x = Some base)
               then wrap_uint (Path.num_children b - 1)
               else Path.num_children b) = Path.num_children b) as Hkeep
        by (by rewrite decide_False).
      cbv zeta in Hcount. rewrite Hkeep in Hcount.
      injection Hcount as Hcount.
      exists b'. split_and!; [done|done|].
      intros Hrange. rewrite Hcount. apply wrap_uint_small.
      unfold UINT_MAX in *. lia.
    + intros q Hq Hnp. rewrite Hcount.
      rewrite <- option_fmap_compose.
      destruct (h !! q) as [y|]; [|done]. simpl.
      rewrite (decide_False (P := Path.parent x = Some base)) by done.
      rewrite (decide_False (P := Path.parent x = Some q)) by done.
      by rewrite (decide_False (P := q = base)).
Qed.

Lemma Fork_child_counts_witness :
  ∃ h',
    Path.Fork 1 2 60 40 7 two_roots_heap = Some h'
    ∧ (Some 0 = Some 2 →
       ∀ q, Path.num_children <$> h' !! q
            = Path.num_children <$> two_roots_heap !! q)
    ∧ (Some 0 ≠ Some 2 →
       (∀ old y, Some 0 = Some old → two_roots_heap !! old = Some y →
          ∃ y', h' !! old = Some y'
                ∧ Path.num_children y' = wrap_uint (Path.num_children y - 1)
                ∧ ((1 ≤ Path.num_children y ≤ UINT_MAX)%Z →
                   Path.num_children y' = (Path.num_children y - 1)%Z))
       ∧ (∃ b', h' !! 2 = Some b'
                ∧ Path.num_children b' = wrap_uint (0 + 1)
                ∧ ((0 ≤ 0 < UINT_MAX)%Z →
                   Path.num_children b' = (0 + 1)%Z))
       ∧ (∀ q, q ≠ 2 → Some 0 ≠ Some q →
            Path.num_children <$> h' !! q
            = Path.num_children <$> two_roots_heap !! q)).
Proof.
  apply (Fork_child_counts two_roots_heap 1 2 60 40 7
           (Path.mk 5 100 100 0 1 0 0 (Some 0)) (Path.new 2 true)).
  - reflexivity.
  - reflexivity.
  - intros old [= <-]. eexists. reflexivity.
  - reflexivity.
Defined.

(** ** EraseFlows *)

Lemma EraseFlows_loop from job k :
  foldl (λ job node_id,
           LinkGraphJob.set_nodes
             (alter (λ n, LinkGraphJob.set_flows
                            (delete from (LinkGraphJob.flows n)) n) node_id
                    (LinkGraphJob.nodes job)) job)
        job (seq 0 k)
  = LinkGraphJob.set_nodes
      ((erase_at from <$> take k (LinkGraphJob.nodes job))
       ++ drop k (LinkGraphJob.nodes job)) job.
Proof.
  induction k as [|k IH].
  - simpl. rewrite drop_0. by destruct job.
  - rewrite seq_S, foldl_app, IH. simpl.
    set (ns := LinkGraphJob.nodes job).
    change (LinkGraphJob.set_nodes ?a (LinkGraphJob.set_nodes ?b job))
      with (LinkGraphJob.set_nodes a job).
    f_equal.
    apply list_eq. intros i.
    rewrite list_lookup_alter.
    destruct (decide (k = i)) as [<-|Hne].
    + rewrite lookup_app_r by (rewrite length_fmap, length_take; lia).
      rewrite length_fmap, length_take, lookup_drop.
      destruct (decide (k < length ns)) as [Hlt|Hge].
      * rewrite Nat.min_l by lia. replace (k + (k - k)) with k by lia.
        rewrite lookup_app_l by (rewrite length_fmap, length_take; lia).
        rewrite list_lookup_fmap, lookup_take_lt by lia. done.
      * rewrite (lookup_ge_None_2 ns) by lia.
        symmetry. apply lookup_ge_None_2.
        rewrite length_app, length_fmap, length_take, length_drop. lia.
    + destruct (decide (i < k)) as [Hlt|Hge].
      * destruct (decide (i < length ns)) as [Hin|Hout].
        -- rewrite !lookup_app_l by (rewrite length_fmap, length_take; lia).
           rewrite !list_lookup_fmap, !lookup_take_lt by lia. done.
        -- rewrite !(lookup_ge_None_2 (_ ++ _)); [done| |];
             rewrite length_app, length_fmap, length_take, length_drop; lia.
      * destruct (decide (i < length ns)) as [Hin|Hout].
        -- rewrite !lookup_app_r by (rewrite length_fmap, length_take; lia).
           rewrite !length_fmap, !length_take, !lookup_drop.
           f_equal. lia.
        -- rewrite !(lookup_ge_None_2 (_ ++ _)); [done| |];
             rewrite length_app, length_fmap, length_take, length_drop; lia.
Qed.

Lemma EraseFlows_nodes from job :
  length (LinkGraphJob.nodes job) = LinkGraphJob.Size job →
  LinkGraphJob.EraseFlows from job
  = LinkGraphJob.set_nodes (erase_at from <$> LinkGraphJob.nodes job) job.
Proof.
  intros Hlen. unfold LinkGraphJob.EraseFlows. rewrite EraseFlows_loop.
  rewrite <- Hlen, firstn_all, drop_all. by rewrite app_nil_r.
Qed.

(** [Init] sizes the node annotations to the graph. *)
Lemma Init_length_nodes job :
  length (LinkGraphJob.nodes (LinkGraphJob.Init job))
  = LinkGraphJob.Size (LinkGraphJob.Init job).
Proof.
  unfold LinkGraphJob.Init. simpl. by rewrite length_imap, length_resize.
Qed.

(** C8.  In a job whose node annotations are sized to the graph (as [Init]
    leaves them), [EraseFlows(X)] maps every node's flow table to the same
    table without the key [X] and changes nothing else: afterwards no node
    has an entry of origin [X], and the entries of every other origin are
    as before.  [X] is the node id the function is given; the flow tables
    are keyed by origin station, and the code hands the node id to [erase]
    as that key. *)
Theorem EraseFlows_erases_origin X job :
  length (LinkGraphJob.nodes job) = LinkGraphJob.Size job →
  LinkGraphJob.EraseFlows X job
  = LinkGraphJob.set_nodes
      ((λ n, LinkGraphJob.set_flows (delete X (LinkGraphJob.flows n)) n)
         <$> LinkGraphJob.nodes job) job
  ∧ (∀ i n', LinkGraphJob.nodes (LinkGraphJob.EraseFlows X job) !! i = Some n' →
             LinkGraphJob.flows n' !! X = None)
  ∧ (∀ i n, LinkGraphJob.nodes job !! i = Some n →
       ∀ Y, Y ≠ X →
         LinkGraphJob.Flows (LinkGraphJob.EraseFlows X job) i !! Y
         = LinkGraphJob.flows n !! Y).
Proof.
  intros Hlen. rewrite (EraseFlows_nodes _ _ Hlen). split_and!.
  - done.
  - intros i n'. simpl. rewrite list_lookup_fmap.
    destruct (LinkGraphJob.nodes job !! i) as [n|]; [|done].
    intros [= <-]. simpl. apply lookup_delete_eq.
  - intros i n Hn Y HY. unfold LinkGraphJob.Flows. simpl.
    rewrite list_lookup_total_alt, list_lookup_fmap, Hn. simpl.
    by apply lookup_delete_ne.
Qed.

Lemma EraseFlows_erases_origin_witness :
  LinkGraphJob.Flows solved_job 0 !! 10
  = Some (mkFlowStat [mkShare 11 4 false])
  ∧ LinkGraphJob.EraseFlows 10 solved_job
    = LinkGraphJob.set_nodes
        ((λ n, LinkGraphJob.set_flows (delete 10 (LinkGraphJob.flows n)) n)
           <$> LinkGraphJob.nodes solved_job) solved_job
  ∧ (∀ i n', LinkGraphJob.nodes (LinkGraphJob.EraseFlows 10 solved_job) !! i
             = Some n' →
             LinkGraphJob.flows n' !! 10 = None)
  ∧ (∀ i n, LinkGraphJob.nodes solved_job !! i = Some n →
       ∀ Y, Y ≠ 10 →
         LinkGraphJob.Flows (LinkGraphJob.EraseFlows 10 solved_job) i !! Y
         = LinkGraphJob.flows n !! Y).
Proof.
  split; [reflexivity|].
  apply (EraseFlows_erases_origin 10 solved_job).
  vm_compute. reflexivity.
Defined.

(** ** Flow maps *)

Lemma elem_of_origins (m : gmap nat FlowStat) o :
  o ∈ FlowStatMap.origins m ↔ is_Some (m !! o).
Proof.
  unfold FlowStatMap.origins.
  rewrite merge_sort_Permutation, elem_of_elements. apply elem_of_dom.
Qed.

Lemma NoDup_origins (m : gmap nat FlowStat) : NoDup (FlowStatMap.origins m).
Proof.
  unfold FlowStatMap.origins. rewrite merge_sort_Permutation.
  apply NoDup_elements.
Qed.

Lemma foldl_delete_lookup (m : gmap nat FlowStat) l o :
  foldl (λ m o, delete o m) m l !! o
  = if decide (o ∈ l) then None else m !! o.
Proof.
  revert m. induction l as [|k l IH]; intros m.
  - cbn [foldl]. by rewrite decide_False by list_mem.
  - cbn [foldl]. rewrite IH. destruct (decide (o ∈ l)) as [Hin|Hnin].
    + by rewrite decide_True by list_mem.
    + destruct (decide (o = k)) as [->|Hne].
      * rewrite decide_True by list_mem. apply lookup_delete_eq.
      * rewrite decide_False by list_mem. by apply lookup_delete_ne.
Qed.

Lemma insert_loop_lookup (fl : gmap nat FlowStat) ks :
  ∀ (m : gmap nat FlowStat) o,
    foldl (λ m o, match fl !! o with
                  | Some fs => FlowStatMap.insert_new o fs m
                  | None => m
                  end) m ks !! o
    = match m !! o with
      | Some v => Some v
      | None => if decide (o ∈ ks) then fl !! o else None
      end.
Proof.
  induction ks as [|k ks IH]; intros m o.
  - cbn [foldl]. rewrite decide_False by list_mem. by destruct (m !! o).
  - cbn [foldl]. rewrite IH. unfold FlowStatMap.insert_new.
    destruct (fl !! k) as [fs|] eqn:Hk.
    + destruct (m !! k) as [v|] eqn:Hmk.
      * destruct (m !! o) as [v'|] eqn:Hmo; [done|].
        assert (o ≠ k) by congruence.
        destruct (decide (o ∈ ks)).
        -- by rewrite decide_True by list_mem.
        -- by rewrite decide_False by list_mem.
      * rewrite lookup_insert. destruct (decide (k = o)) as [->|Hne].
        -- rewrite Hmk. by rewrite decide_True by list_mem.
        -- destruct (m !! o); [done|].
           destruct (decide (o ∈ ks)).
           ++ by rewrite decide_True by list_mem.
           ++ by rewrite decide_False by list_mem.
    + destruct (m !! o); [done|].
      destruct (decide (o ∈ ks)).
      * by rewrite decide_True by list_mem.
      * destruct (decide (o = k)) as [->|].
        -- rewrite Hk. by destruct (decide _).
        -- by rewrite decide_False by list_mem.
Qed.

(** ** The merge loop of FinaliseJob *)

Section merge_loop.

Context (inv : FlowStat → FlowStat * bool) (g : Globals) (st c : nat).

Lemma merge_step_lookup (gf fl : gmap nat FlowStat) ev k :
  ∃ gf' fl' ev',
    LinkGraphJob.merge_step inv g st c (gf, fl, ev) k = (gf', fl', ev')
    ∧ (∀ o, gf' !! o
            = if decide (o = k)
              then it ← gf !! k;
                   match fl !! k with
                   | Some new_it => Some new_it
                   | None => kept inv g c it
                   end
              else gf !! o)
    ∧ (∀ o, fl' !! o
            = if decide (o = k ∧ is_Some (gf !! k)) then None else fl !! o).
Proof.
  unfold LinkGraphJob.merge_step, kept.
  destruct (gf !! k) as [it|] eqn:Hit.
  - destruct (fl !! k) as [new_it|] eqn:Hnew; simpl.
    + eexists _, _, _. split; [done|]. split; intros o.
      * rewrite lookup_insert. destruct (decide (k = o)) as [->|];
          [by rewrite decide_True|by rewrite decide_False].
      * destruct (decide (o = k ∧ _)) as [[-> _]|Hn];
          [apply lookup_delete_eq|].
        apply lookup_delete_ne. intros ->. apply Hn. eauto.
    + destruct (decide (GetDistributionType _ _ ≠ DT_MANUAL)).
      * destruct (inv it) as [it' e] eqn:Hinv. simpl. destruct e.
        -- eexists _, _, _. split; [done|]. split; intros o.
           ++ destruct (decide (o = k)) as [->|];
                [apply lookup_delete_eq|by apply lookup_delete_ne].
           ++ destruct (decide (o = k ∧ _)) as [[-> _]|]; done.
        -- eexists _, _, _. split; [done|]. split; intros o.
           ++ rewrite lookup_insert. destruct (decide (k = o)) as [->|];
                [by rewrite decide_True|by rewrite decide_False].
           ++ destruct (decide (o = k ∧ _)) as [[-> _]|]; done.
      * eexists _, _, _. split; [done|]. split; intros o.
        -- destruct (decide (o = k)) as [->|];
             [apply lookup_delete_eq|by apply lookup_delete_ne].
        -- destruct (decide (o = k ∧ _)) as [[-> _]|]; done.
  - eexists _, _, _. split; [done|]. split; intros o.
    + destruct (decide (o = k)) as [->|]; done.
    + rewrite decide_False; [done|]. intros [_ []]. done.
Qed.

Lemma merge_loop_lookup ks :
  NoDup ks →
  ∀ (gf fl : gmap nat FlowStat) ev,
  ∃ gf' fl' ev',
    foldl (LinkGraphJob.merge_step inv g st c) (gf, fl, ev) ks
    = (gf', fl', ev')
    ∧ (∀ o, gf' !! o
            = if decide (o ∈ ks)
              then it ← gf !! o;
                   match fl !! o with
                   | Some new_it => Some new_it
                   | None => kept inv g c it
                   end
              else gf !! o)
    ∧ (∀ o, fl' !! o
            = if decide (o ∈ ks ∧ is_Some (gf !! o)) then None else fl !! o).
Proof.
  induction 1 as [|k ks Hk Hnd IH]; intros gf fl ev.
  - exists gf, fl, ev. split; [done|]. split; intros o.
    + by rewrite decide_False by list_mem.
    + rewrite decide_False; [done|]. list_mem.
  - cbn [foldl].
    destruct (merge_step_lookup gf fl ev k)
      as (gf1 & fl1 & ev1 & -> & Hgf1 & Hfl1).
    destruct (IH gf1 fl1 ev1) as (gf' & fl' & ev' & -> & Hgf' & Hfl').
    exists gf', fl', ev'. split; [done|]. split; intros o.
    + rewrite Hgf'. destruct (decide (o ∈ ks)) as [Hin|Hnin].
      * assert (o ≠ k) as Hok by (intros ->; done).
        rewrite (decide_True (P := o ∈ k :: ks)) by list_mem.
        rewrite Hgf1, Hfl1.
        rewrite (decide_False (P := o = k)) by done.
        rewrite (decide_False (P := o = k ∧ _)); [done|]. by intros [? _].
      * rewrite Hgf1. destruct (decide (o = k)) as [->|Hne].
        -- by rewrite (decide_True (P := k ∈ k :: ks)) by list_mem.
        -- by rewrite (decide_False (P := o ∈ k :: ks)) by list_mem.
    + rewrite Hfl'. destruct (decide (o = k)) as [->|Hne].
      * rewrite (decide_False (P := k ∈ ks ∧ _)) by (by intros [? _]).
        rewrite Hfl1. destruct (decide (k = k ∧ is_Some (gf !! k))) as [[_ Hs]|Hn].
        -- rewrite (decide_True (P := k ∈ k :: ks ∧ _)); [done|].
           split; [list_mem|done].
        -- rewrite (decide_False (P := k ∈ k :: ks ∧ _)); [done|].
           intros [_ ?]. apply Hn. done.
      * rewrite Hgf1, Hfl1.
        rewrite (decide_False (P := o = k)) by done.
        rewrite (decide_False (P := o = k ∧ _)) by (by intros [? _]).
        destruct (decide (o ∈ ks ∧ is_Some (gf !! o))) as [[? ?]|Hn].
        -- rewrite (decide_True (P := o ∈ k :: ks ∧ _)); [done|].
           split; [list_mem|done].
        -- rewrite (decide_False (P := o ∈ k :: ks ∧ _)); [done|].
           intros [Hin ?]. apply Hn. split; [list_mem|done].
Qed.

(** The live flows after [merge_flows], origin by origin. *)
Lemma merge_flows_lookup (L C : gmap nat FlowStat) o :
  (LinkGraphJob.merge_flows inv g st c L C).1.1 !! o
  = match C !! o with
    | Some new_it => Some new_it
    | None => L !! o ≫= kept inv g c
    end.
Proof.
  unfold LinkGraphJob.merge_flows.
  destruct (merge_loop_lookup _ (NoDup_origins L) L C [])
    as (gf' & fl' & ev' & -> & Hgf' & Hfl').
  simpl. rewrite insert_loop_lookup, Hgf', Hfl'.
  destruct (L !! o) as [it|] eqn:HL.
  - rewrite decide_True by (apply elem_of_origins; eauto). simpl.
    destruct (C !! o) as [new_it|] eqn:HC; [done|].
    destruct (kept inv g c it); [done|].
    destruct (decide (o ∈ FlowStatMap.origins fl')) as [Hin|]; [|done].
    apply elem_of_origins in Hin as [v Hv]. rewrite Hfl' in Hv.
    rewrite decide_True in Hv; [done|]. split; [|done].
    apply elem_of_origins. eauto.
  - rewrite decide_False by (rewrite elem_of_origins, HL; by intros []).
    rewrite (decide_False (P := _ ∧ _)) by (by intros [_ []]).
    destruct (C !! o) as [new_it|] eqn:HC; simpl.
    + rewrite decide_True; [done|]. apply elem_of_origins.
      rewrite Hfl', decide_False by (intros [_ [? ?]]; congruence). eauto.
    + by destruct (decide _).
Qed.

(** C2 (amended).  The live flows after the merge step are the computed
    flows [C] together with what the loop keeps of the live entries [L]
    whose origin is not in [C]: nothing when distribution is manual for the
    cargo, else the invalidated entry unless its invalidation asks for
    erasure ([kept]).  No origin occurs twice (the result is a map).  So
    (1) for every origin of [C], also one that is in [L], the merged entry
    is the one of [C]; and (2) for disjoint [L] and [C] the result is
    exactly [L ∪ C] whenever every entry of [L] is kept unchanged. *)
Theorem merge_flows_result (L C : gmap nat FlowStat) :
  (LinkGraphJob.merge_flows inv g st c L C).1.1 = C ∪ omap (kept inv g c) L
  ∧ (∀ o new_it, C !! o = Some new_it →
       (LinkGraphJob.merge_flows inv g st c L C).1.1 !! o = Some new_it)
  ∧ (L ##ₘ C → (∀ o it, L !! o = Some it → kept inv g c it = Some it) →
       (LinkGraphJob.merge_flows inv g st c L C).1.1 = L ∪ C).
Proof.
  assert ((LinkGraphJob.merge_flows inv g st c L C).1.1
          = C ∪ omap (kept inv g c) L) as Heq.
  { apply map_eq. intros o. rewrite merge_flows_lookup.
    rewrite lookup_union, lookup_omap.
    destruct (C !! o) as [new_it|]; simpl.
    - by destruct (L !! o ≫= kept inv g c).
    - by destruct (L !! o ≫= kept inv g c). }
  split_and!; [done| |].
  - intros o new_it HC. by rewrite merge_flows_lookup, HC.
  - intros Hdisj Hkept. rewrite Heq.
    assert (omap (kept inv g c) L = L) as ->.
    { apply map_eq. intros o. rewrite lookup_omap.
      destruct (L !! o) as [it|] eqn:HL; [|done]. simpl. eauto. }
    by apply map_union_comm.
Qed.

End merge_loop.

(** C2, as stated, fails: under manual distribution the merge erases every
    live entry whose origin has no computed flows, so for disjoint origins
    the result is [C] alone, not [L ∪ C]. *)
Lemma merge_flows_union_counterexample :
  sample_live ##ₘ sample_computed
  ∧ (LinkGraphJob.merge_flows keep_invalidated (sample_globals DT_MANUAL)
       10 0 sample_live sample_computed).1.1 = sample_computed
  ∧ (LinkGraphJob.merge_flows keep_invalidated (sample_globals DT_MANUAL)
       10 0 sample_live sample_computed).1.1
    ≠ sample_live ∪ sample_computed
  ∧ (LinkGraphJob.merge_flows keep_invalidated (sample_globals DT_MANUAL)
       10 0 sample_live sample_computed).2
    = [RerouteCargo 10 0 11 10].
Proof.
  split_and!.
  - apply map_disjoint_spec. intros o x y Hx Hy.
    unfold sample_live, sample_computed in *.
    apply lookup_singleton_Some in Hx as [<- _].
    apply lookup_singleton_Some in Hy as [? _]. done.
  - vm_compute. reflexivity.
  - intros Heq. apply (f_equal (lookup 7)) in Heq.
    vm_compute in Heq. discriminate.
  - vm_compute. reflexivity.
Qed.

(** ** FinaliseJob *)

(** C7.  When the index of the job's link graph is no longer that of a live
    graph, [FinaliseJob] returns the world as it was (stations, link graphs
    and the trace of calls into other subsystems alike); only the job's
    reference to its thread group is dropped.  A second call does the
    same. *)
Theorem FinaliseJob_vanished_graph inv g w job :
  LinkGraph_IsValidID w (LinkGraph.index (LinkGraphJob.link_graph job))
  = false →
  LinkGraphJob.FinaliseJob inv g w job = (w, LinkGraphJob.JoinThread job)
  ∧ LinkGraphJob.FinaliseJob inv g
      (LinkGraphJob.FinaliseJob inv g w job).1
      (LinkGraphJob.FinaliseJob inv g w job).2
    = (w, LinkGraphJob.JoinThread job).
Proof.
  intros Hgone.
  assert (∀ j, LinkGraphJob.link_graph j = LinkGraphJob.link_graph job →
               LinkGraphJob.FinaliseJob inv g w j
               = (w, LinkGraphJob.JoinThread j)) as Hone.
  { intros j Hj. unfold LinkGraphJob.FinaliseJob. cbv zeta.
    assert (LinkGraphJob.link_graph (LinkGraphJob.JoinThread j)
            = LinkGraphJob.link_graph job) as Hlg.
    { unfold LinkGraphJob.JoinThread. by destruct (LinkGraphJob.group j). }
    by rewrite Hlg, Hgone. }
  rewrite (Hone job eq_refl). simpl. split; [done|].
  rewrite Hone.
  - f_equal. unfold LinkGraphJob.JoinThread.
    destruct (LinkGraphJob.group job) eqn:Hg; simpl; [done|by rewrite Hg].
  - unfold LinkGraphJob.JoinThread. by destruct (LinkGraphJob.group job).
Qed.

Lemma FinaliseJob_vanished_graph_witness :
  LinkGraphJob.FinaliseJob keep_invalidated (sample_globals DT_ASYMMETRIC)
    merged_away_world (LinkGraphJob.SetJobGroup 1 sample_job)
  = (merged_away_world,
     LinkGraphJob.JoinThread (LinkGraphJob.SetJobGroup 1 sample_job))
  ∧ LinkGraphJob.FinaliseJob keep_invalidated (sample_globals DT_ASYMMETRIC)
      (LinkGraphJob.FinaliseJob keep_invalidated
         (sample_globals DT_ASYMMETRIC) merged_away_world
         (LinkGraphJob.SetJobGroup 1 sample_job)).1
      (LinkGraphJob.FinaliseJob keep_invalidated
         (sample_globals DT_ASYMMETRIC) merged_away_world
         (LinkGraphJob.SetJobGroup 1 sample_job)).2
    = (merged_away_world,
       LinkGraphJob.JoinThread (LinkGraphJob.SetJobGroup 1 sample_job)).
Proof.
  apply (FinaliseJob_vanished_graph keep_invalidated
           (sample_globals DT_ASYMMETRIC) merged_away_world
           (LinkGraphJob.SetJobGroup 1 sample_job)).
  reflexivity.
Defined.

Lemma EraseFlows_link_graph from job :
  LinkGraphJob.link_graph (LinkGraphJob.EraseFlows from job)
  = LinkGraphJob.link_graph job.
Proof. unfold LinkGraphJob.EraseFlows. by rewrite EraseFlows_loop. Qed.

Lemma EraseFlows_set_settings from s job :
  LinkGraphJob.EraseFlows from (LinkGraphJob.set_settings s job)
  = LinkGraphJob.set_settings s (LinkGraphJob.EraseFlows from job).
Proof. unfold LinkGraphJob.EraseFlows. by rewrite !EraseFlows_loop. Qed.

(** The merge step reads the global settings only to tell manual
    distribution from the others. *)
Lemma merge_step_settings inv g1 g2 st c acc o :
  (GetDistributionType (settings_game_linkgraph g1) c = DT_MANUAL
   ↔ GetDistributionType (settings_game_linkgraph g2) c = DT_MANUAL) →
  LinkGraphJob.merge_step inv g1 st c acc o
  = LinkGraphJob.merge_step inv g2 st c acc o.
Proof.
  intros Hsame. destruct acc as [[gf fl] ev]. unfold LinkGraphJob.merge_step.
  destruct (gf !! o) as [it|]; [|done].
  destruct (fl !! o) as [new_it|]; [done|].
  destruct (decide (GetDistributionType (settings_game_linkgraph g1) c
                    ≠ DT_MANUAL)) as [H1|H1],
           (decide (GetDistributionType (settings_game_linkgraph g2) c
                    ≠ DT_MANUAL)) as [H2|H2]; try done.
  - apply dec_stable in H2. by apply Hsame in H2.
  - apply dec_stable in H1. by apply Hsame in H1.
Qed.

Lemma merge_flows_settings inv g1 g2 st c (L C : gmap nat FlowStat) :
  (GetDistributionType (settings_game_linkgraph g1) c = DT_MANUAL
   ↔ GetDistributionType (settings_game_linkgraph g2) c = DT_MANUAL) →
  LinkGraphJob.merge_flows inv g1 st c L C
  = LinkGraphJob.merge_flows inv g2 st c L C.
Proof.
  intros Hsame. unfold LinkGraphJob.merge_flows.
  assert (∀ l acc, foldl (LinkGraphJob.merge_step inv g1 st c) acc l
                   = foldl (LinkGraphJob.merge_step inv g2 st c) acc l) as ->;
    [|done].
  induction l as [|o l IH]; intros acc; [done|]. cbn [foldl].
  by rewrite (merge_step_settings _ _ _ _ _ _ _ Hsame), IH.
Qed.

Lemma finalise_node_settings inv g1 g2 s w job node_id :
  (GetDistributionType (settings_game_linkgraph g1) (LinkGraphJob.Cargo job)
   = DT_MANUAL
   ↔ GetDistributionType (settings_game_linkgraph g2) (LinkGraphJob.Cargo job)
     = DT_MANUAL) →
  LinkGraphJob.finalise_node inv g2 (w, LinkGraphJob.set_settings s job) node_id
  = ((LinkGraphJob.finalise_node inv g1 (w, job) node_id).1,
     LinkGraphJob.set_settings s
       (LinkGraphJob.finalise_node inv g1 (w, job) node_id).2)
  ∧ LinkGraphJob.link_graph
      (LinkGraphJob.finalise_node inv g1 (w, job) node_id).2
    = LinkGraphJob.link_graph job.
Proof.
  intros Hsame. unfold LinkGraphJob.finalise_node.
  change (LinkGraphJob.Station (LinkGraphJob.set_settings s job) node_id)
    with (LinkGraphJob.Station job node_id).
  change (LinkGraphJob.Cargo (LinkGraphJob.set_settings s job))
    with (LinkGraphJob.Cargo job).
  change (LinkGraphJob.link_graph (LinkGraphJob.set_settings s job))
    with (LinkGraphJob.link_graph job).
  change (LinkGraphJob.Flows (LinkGraphJob.set_settings s job) node_id)
    with (LinkGraphJob.Flows job node_id).
  destruct (Station_GetIfValid w (LinkGraphJob.Station job node_id)) as [st|].
  2:{ simpl. by rewrite EraseFlows_set_settings, EraseFlows_link_graph. }
  destruct (decide _).
  { simpl. by rewrite EraseFlows_set_settings, EraseFlows_link_graph. }
  change (LinkGraphJob.edge_step w (LinkGraphJob.set_settings s job))
    with (LinkGraphJob.edge_step w job).
  destruct (foldl _ _ _) as [flows ge_flows].
  rewrite (merge_flows_settings inv g2 g1) by done.
  destruct (LinkGraphJob.merge_flows _ _ _ _ _ _) as [[gf fl] ev].
  done.
Qed.

Lemma finalise_loop_settings inv g1 g2 s l :
  ∀ w job,
    (GetDistributionType (settings_game_linkgraph g1) (LinkGraphJob.Cargo job)
     = DT_MANUAL
     ↔ GetDistributionType (settings_game_linkgraph g2)
         (LinkGraphJob.Cargo job) = DT_MANUAL) →
    foldl (LinkGraphJob.finalise_node inv g2)
      (w, LinkGraphJob.set_settings s job) l
    = ((foldl (LinkGraphJob.finalise_node inv g1) (w, job) l).1,
       LinkGraphJob.set_settings s
         (foldl (LinkGraphJob.finalise_node inv g1) (w, job) l).2).
Proof.
  induction l as [|n l IH]; intros w job Hsame; [done|]. cbn [foldl].
  destruct (finalise_node_settings inv g1 g2 s w job n Hsame) as [-> Hlg].
  destruct (LinkGraphJob.finalise_node inv g1 (w, job) n) as [w1 job1].
  simpl in *. apply IH. unfold LinkGraphJob.Cargo in *. by rewrite Hlg.
Qed.

(** C1 (amended).  [FinaliseJob] does not read the settings copied into the
    job, and of the global settings at finalisation time it reads only
    whether the distribution type of the job's cargo is manual.  So two
    runs on the same world and job whose global settings agree on that
    question give the same world, whatever else differs in the global
    settings and whatever settings [s] the job carries. *)
Theorem FinaliseJob_settings_read inv g1 g2 s w job :
  (GetDistributionType (settings_game_linkgraph g1) (LinkGraphJob.Cargo job)
   = DT_MANUAL
   ↔ GetDistributionType (settings_game_linkgraph g2) (LinkGraphJob.Cargo job)
     = DT_MANUAL) →
  LinkGraphJob.FinaliseJob inv g2 w (LinkGraphJob.set_settings s job)
  = ((LinkGraphJob.FinaliseJob inv g1 w job).1,
     LinkGraphJob.set_settings s (LinkGraphJob.FinaliseJob inv g1 w job).2).
Proof.
  intros Hsame. unfold LinkGraphJob.FinaliseJob. cbv zeta.
  assert (LinkGraphJob.JoinThread (LinkGraphJob.set_settings s job)
          = LinkGraphJob.set_settings s (LinkGraphJob.JoinThread job)) as ->.
  { unfold LinkGraphJob.JoinThread. simpl.
    by destruct (LinkGraphJob.group job). }
  change (LinkGraphJob.link_graph
            (LinkGraphJob.set_settings s (LinkGraphJob.JoinThread job)))
    with (LinkGraphJob.link_graph (LinkGraphJob.JoinThread job)).
  change (LinkGraphJob.Size
            (LinkGraphJob.set_settings s (LinkGraphJob.JoinThread job)))
    with (LinkGraphJob.Size (LinkGraphJob.JoinThread job)).
  destruct (negb _); [done|].
  apply finalise_loop_settings.
  unfold LinkGraphJob.JoinThread. by destruct (LinkGraphJob.group job).
Qed.

Lemma FinaliseJob_settings_read_witness :
  LinkGraphJob.FinaliseJob keep_invalidated (sample_globals DT_SYMMETRIC)
    sample_world
    (LinkGraphJob.set_settings (sample_settings DT_MANUAL) sample_job)
  = ((LinkGraphJob.FinaliseJob keep_invalidated
        (sample_globals DT_ASYMMETRIC) sample_world sample_job).1,
     LinkGraphJob.set_settings (sample_settings DT_MANUAL)
       (LinkGraphJob.FinaliseJob keep_invalidated
          (sample_globals DT_ASYMMETRIC) sample_world sample_job).2).
Proof.
  apply (FinaliseJob_settings_read keep_invalidated
           (sample_globals DT_ASYMMETRIC) (sample_globals DT_SYMMETRIC)
           (sample_settings DT_MANUAL) sample_world sample_job).
  split; discriminate.
Defined.

(** C1, as stated, fails: [sample_job] was created while distribution was
    asymmetric; finalising it on the same world gives different live flows
    at station 10 depending on whether the global setting has meanwhile been
    switched to manual (the entry of origin 7 is erased and its cargo
    rerouted) or not (the entry is kept). *)
Lemma FinaliseJob_settings_counterexample :
  LinkGraphJob.settings sample_job = sample_settings DT_ASYMMETRIC
  ∧ live_flows
      (LinkGraphJob.FinaliseJob keep_invalidated
         (sample_globals DT_ASYMMETRIC) sample_world sample_job).1 10 0
    = Some [(7, mkFlowStat [mkShare 11 1 false])]
  ∧ live_flows
      (LinkGraphJob.FinaliseJob keep_invalidated
         (sample_globals DT_MANUAL) sample_world sample_job).1 10 0
    = Some []
  ∧ events
      (LinkGraphJob.FinaliseJob keep_invalidated
         (sample_globals DT_MANUAL) sample_world sample_job).1
    = [RerouteCargo 10 0 11 10; InvalidateWindowData 10 0;
       InvalidateWindowData 11 0].
Proof. split_and!; vm_compute; reflexivity. Qed.

(** ** The edge loop of FinaliseJob *)

Lemma DeleteFlows_lookup via (m : gmap nat FlowStat) o :
  (FlowStatMap.DeleteFlows via m).1 !! o
  = fs ← m !! o;
    if FlowStat.empty (FlowStat.DeleteShares via fs) then None
    else Some (FlowStat.DeleteShares via fs).
Proof.
  unfold FlowStatMap.DeleteFlows. simpl.
  rewrite map_lookup_filter, lookup_fmap.
  destruct (m !! o) as [fs|]; [|done]. simpl.
  destruct (FlowStat.empty _) eqn:He; case_guard; simpl in *; congruence.
Qed.

Lemma DeleteFlows_erased via (m : gmap nat FlowStat) o :
  o ∈ (FlowStatMap.DeleteFlows via m).2
  ↔ ∃ fs, m !! o = Some fs
          ∧ FlowStat.empty (FlowStat.DeleteShares via fs) = true.
Proof.
  unfold FlowStatMap.DeleteFlows. simpl.
  rewrite elem_of_origins. unfold is_Some.
  setoid_rewrite map_lookup_filter_Some. setoid_rewrite lookup_fmap_Some.
  split.
  - intros (? & (fs & <- & Hfs) & He). eauto.
  - intros (fs & Hfs & He). eauto.
Qed.

Lemma DeleteFlows_no_via via (m : gmap nat FlowStat) :
  no_via via (FlowStatMap.DeleteFlows via m).1.
Proof.
  intros o fs s Ho Hs. rewrite DeleteFlows_lookup in Ho.
  destruct (m !! o) as [fs0|]; [|done]. simpl in Ho.
  destruct (FlowStat.empty _); [done|]. simplify_eq.
  unfold FlowStat.DeleteShares in Hs. simpl in Hs.
  by apply list_elem_of_filter in Hs as [? _].
Qed.

Lemma DeleteFlows_keeps_no_via X via (m : gmap nat FlowStat) :
  no_via X m → no_via X (FlowStatMap.DeleteFlows via m).1.
Proof.
  intros Hm o fs s Ho Hs. rewrite DeleteFlows_lookup in Ho.
  destruct (m !! o) as [fs0|] eqn:Ho0; [|done]. simpl in Ho.
  destruct (FlowStat.empty _); [done|]. simplify_eq.
  unfold FlowStat.DeleteShares in Hs. simpl in Hs.
  apply list_elem_of_filter in Hs as [_ Hs]. by eapply Hm.
Qed.

Lemma RestrictFlows_keeps_no_via X via (m : gmap nat FlowStat) :
  no_via X m → no_via X (FlowStatMap.RestrictFlows via m).
Proof.
  intros Hm o fs s Ho Hs. unfold FlowStatMap.RestrictFlows in Ho.
  apply lookup_fmap_Some in Ho as (fs0 & <- & Ho0).
  unfold FlowStat.RestrictShare in Hs. simpl in Hs.
  apply list_elem_of_fmap in Hs as (s0 & -> & Hs0).
  pose proof (Hm _ _ _ Ho0 Hs0). by destruct (decide _).
Qed.

Lemma RestrictFlows_is_Some via (m : gmap nat FlowStat) o :
  is_Some (FlowStatMap.RestrictFlows via m !! o) ↔ is_Some (m !! o).
Proof. unfold FlowStatMap.RestrictFlows. by rewrite lookup_fmap, fmap_is_Some. Qed.

Section edge_loop.

Context (w : World) (job : LinkGraphJob.t) (lg : LinkGraph.t) (node_id : nat).

(** One iteration of the edge loop: the computed flows lose no origin
    without the live flows losing it too, the live flows gain nothing, and
    shares are never added. *)
Lemma edge_step_inv (flows ge_flows : gmap nat FlowStat) to_node :
  ∃ flows' ge_flows',
    LinkGraphJob.edge_step w job lg node_id (flows, ge_flows) to_node
    = (flows', ge_flows')
    ∧ (∀ o, is_Some (flows !! o) → flows' !! o = None → ge_flows' !! o = None)
    ∧ (∀ o, ge_flows !! o = None → ge_flows' !! o = None)
    ∧ (∀ o, flows !! o = None → flows' !! o = None)
    ∧ (∀ X, no_via X flows → no_via X flows')
    ∧ (LinkGraphJob.Flow job node_id to_node ≠ 0%Z →
       LinkGraphJob.edge_removed w job lg node_id to_node →
       no_via (LinkGraphJob.Station job to_node) flows').
Proof.
  unfold LinkGraphJob.edge_step.
  destruct (decide (LinkGraphJob.Flow job node_id to_node = 0%Z)).
  { exists flows, ge_flows. split_and!; try done. intros o [v Hv] ?; congruence. }
  destruct (decide (LinkGraphJob.edge_removed w job lg node_id to_node)).
  - destruct (FlowStatMap.DeleteFlows (LinkGraphJob.Station job to_node) flows)
      as [flows' erased] eqn:Hdel.
    assert (flows' = (FlowStatMap.DeleteFlows
                        (LinkGraphJob.Station job to_node) flows).1) as Hf
      by (by rewrite Hdel).
    assert (erased = (FlowStatMap.DeleteFlows
                        (LinkGraphJob.Station job to_node) flows).2) as He
      by (by rewrite Hdel).
    eexists _, _. split; [done|]. split_and!.
    + intros o [fs Hfs] Hnone. rewrite foldl_delete_lookup.
      rewrite decide_True; [done|]. rewrite He. apply DeleteFlows_erased.
      exists fs. split; [done|]. rewrite Hf, DeleteFlows_lookup, Hfs in Hnone.
      simpl in Hnone. by destruct (FlowStat.empty _).
    + intros o Ho. rewrite foldl_delete_lookup. by destruct (decide _).
    + intros o Ho. by rewrite Hf, DeleteFlows_lookup, Ho.
    + intros X HX. rewrite Hf. by apply DeleteFlows_keeps_no_via.
    + intros _ _. rewrite Hf. apply DeleteFlows_no_via.
  - destruct (decide _).
    + eexists _, _. split; [done|]. split_and!; try done.
      * intros o Ho Hnone.
        apply (RestrictFlows_is_Some (LinkGraphJob.Station job to_node)) in Ho
          as [v Hv].
        congruence.
      * intros o Ho. unfold FlowStatMap.RestrictFlows.
        by rewrite lookup_fmap, Ho.
      * intros X. apply RestrictFlows_keeps_no_via.
    + exists flows, ge_flows. split_and!; try done.
      intros o [v Hv] ?; congruence.
Qed.

Lemma edge_loop_inv tos :
  ∀ (flows ge_flows : gmap nat FlowStat),
  ∃ flows' ge_flows',
    foldl (LinkGraphJob.edge_step w job lg node_id) (flows, ge_flows) tos
    = (flows', ge_flows')
    ∧ (∀ o, is_Some (flows !! o) → flows' !! o = None → ge_flows' !! o = None)
    ∧ (∀ o, ge_flows !! o = None → ge_flows' !! o = None)
    ∧ (∀ o, flows !! o = None → flows' !! o = None)
    ∧ (∀ X, no_via X flows → no_via X flows')
    ∧ (∀ to_node, to_node ∈ tos →
         LinkGraphJob.Flow job node_id to_node ≠ 0%Z →
         LinkGraphJob.edge_removed w job lg node_id to_node →
         no_via (LinkGraphJob.Station job to_node) flows').
Proof.
  induction tos as [|t tos IH]; intros flows ge_flows.
  - exists flows, ge_flows. split_and!; try done.
    + intros o [v Hv] ?; congruence.
    + intros to_node []%elem_of_nil.
  - cbn [foldl].
    destruct (edge_step_inv flows ge_flows t)
      as (f1 & g1 & -> & Hc1 & Hg1 & Hf1 & Hv1 & Hr1).
    destruct (IH f1 g1) as (f2 & g2 & -> & Hc2 & Hg2 & Hf2 & Hv2 & Hr2).
    exists f2, g2. split; [done|]. split_and!.
    + intros o Ho Hnone. destruct (f1 !! o) as [v|] eqn:Hf1o.
      * apply Hc2; [by eauto|done].
      * apply Hg2, Hc1; done.
    + intros o Ho. by apply Hg2, Hg1.
    + intros o Ho. by apply Hf2, Hf1.
    + intros X HX. by apply Hv2, Hv1.
    + intros to_node [->|Hin]%elem_of_cons Hflow Hrem.
      * by apply Hv2, Hr1.
      * by apply Hr2.
Qed.

End edge_loop.




(** ** More on AddFlow *)

(** One level of [AddFlow] on a leg that is on a parent chain, read off its
    three exits: a root leg, a saturated edge, and the push through the
    parent. *)
Lemma AddFlow_S_inv ms fuel p l nf (h : gmap nat Path.t) job r h' job' :
  Path.ancestry h p l →
  Path.AddFlow (S fuel) p nf ms (h, job) = Some (r, (h', job')) →
  ∃ x, h !! p = Some x ∧
    ((Path.parent x = None ∧ l = [p] ∧ r = nf ∧ job' = job
      ∧ h' = <[p := Path.set_flow (wrap_uint (Path.flow x + nf)) x]> h)
     ∨ ∃ par y l',
         Path.parent x = Some par ∧ h !! par = Some y ∧ l = p :: l'
         ∧ Path.ancestry h par l'
         ∧ ((ms ≠ UINT_MAX
             ∧ (Path.usable_cap job ms (Path.node y) (Path.node x)
                ≤ LinkGraphJob.Flow job (Path.node y) (Path.node x))%Z
             ∧ r = 0%Z ∧ h' = h ∧ job' = job)
            ∨ ∃ nf' h1 job1,
                (nf' = nf ∧ ms = UINT_MAX
                 ∨ ms ≠ UINT_MAX
                   ∧ (Path.usable_cap job ms (Path.node y) (Path.node x)
                      > LinkGraphJob.Flow job (Path.node y) (Path.node x))%Z
                   ∧ nf' = (nf `min`
                            (Path.usable_cap job ms (Path.node y) (Path.node x)
                             - LinkGraphJob.Flow job (Path.node y)
                                 (Path.node x)))%Z)
                ∧ Path.AddFlow fuel par nf' ms (h, job) = Some (r, (h1, job1))
                ∧ h1 !! p = Some x
                ∧ job' = LinkGraphJob.Edge_AddFlow (Path.node y) (Path.node x) r
                           (if decide (Path.flow x = 0 ∧ r > 0)%Z
                            then LinkGraphJob.Paths_push_back (Path.node y) p job1
                            else job1)
                ∧ h' = <[p := Path.set_flow (wrap_uint (Path.flow x + r)) x]> h1)).
Proof.
  intros Hanc Hrun. simpl in Hrun.
  destruct (h !! p) as [x|] eqn:Hp; [|done]. simpl in Hrun.
  exists x. split; [done|].
  destruct (Path.parent x) as [par|] eqn:Hpar.
  - right.
    assert (∃ l', l = p :: l' ∧ Path.ancestry h par l') as (l' & -> & Hq).
    { inversion Hanc; simplify_eq; eauto. }
    destruct (h !! par) as [y|] eqn:Hy; [|done]. simpl in Hrun.
    exists par, y, l'. split_and!; try done.
    match type of Hrun with
    | match ?c with _ => _ end = _ => destruct c as [nf'|] eqn:Hclamp
    end.
    + right.
      destruct (Path.AddFlow fuel par nf' ms (h, job))
        as [[r1 [h1 job1]]|] eqn:Hrec; [|done].
      simpl in Hrun.
      destruct (AddFlow_effect _ _ _ _ _ _ _ _ _ _ Hq Hrec)
        as (Hframe & Hshape & _).
      rewrite Hframe in Hrun by (by eapply ancestry_not_below).
      rewrite Hp in Hrun. simpl in Hrun. rewrite Hpar in Hrun. simpl in Hrun.
      pose proof (Hshape par) as Hsp. rewrite Hy in Hsp.
      destruct (h1 !! par) as [y1|] eqn:Hy1; [|done]. simpl in Hrun.
      assert (Path.node y1 = Path.node y) as Hnode by (by injection Hsp).
      unfold Path.update in Hrun.
      rewrite Hframe in Hrun by (by eapply ancestry_not_below).
      rewrite Hp in Hrun. simpl in Hrun. rewrite Hnode in Hrun.
      injection Hrun as <- <- <-.
      exists nf', h1, job1. split_and!; try done.
      * destruct (decide (ms ≠ UINT_MAX)) as [Hms|Hms%dec_stable].
        -- right. destruct (decide (_ > _)%Z); [|done].
           injection Hclamp as <-. done.
        -- left. by injection Hclamp as <-.
      * rewrite Hframe by (by eapply ancestry_not_below). done.
    + left. destruct (decide (ms ≠ UINT_MAX)) as [Hms|]; [|done].
      destruct (decide (_ > _)%Z); [done|].
      injection Hrun as <- <- <-. split_and!; try done; lia.
  - left. inversion Hanc; simplify_eq.
    unfold Path.update in Hrun. rewrite Hp in Hrun. simpl in Hrun.
    by injection Hrun as <- <- <-.
Qed.

Lemma in_range_Edge_AddFlow i j f job a b :
  in_range (LinkGraphJob.Edge_AddFlow i j f job) a b ↔ in_range job a b.
Proof.
  unfold in_range, LinkGraphJob.Edge_AddFlow. simpl.
  rewrite length_alter, list_lookup_total_alter.
  destruct (decide (i = a ∧ _)) as [[<- _]|_]; [|done].
  by rewrite length_alter.
Qed.

Lemma AddFlow_in_range ms fuel :
  ∀ p l nf (h : gmap nat Path.t) job r h' job',
    Path.ancestry h p l →
    Path.AddFlow fuel p nf ms (h, job) = Some (r, (h', job')) →
    ∀ a b, in_range job' a b ↔ in_range job a b.
Proof.
  induction fuel as [|fuel IH]; intros p l nf h job r h' job' Hanc Hrun a b;
    [done|].
  destruct (AddFlow_S_inv _ _ _ _ _ _ _ _ _ _ Hanc Hrun)
    as (x & Hp & [(_ & _ & _ & -> & _)
                 |(par & y & l' & Hpar & Hy & -> & Hq
                   & [(_ & _ & _ & _ & ->)
                     |(nf' & h1 & job1 & _ & Hrec & _ & -> & _)])]);
    [done|done|].
  rewrite in_range_Edge_AddFlow.
  rewrite <- (IH _ _ _ _ _ _ _ _ Hq Hrec a b).
  by destruct (decide (_ ∧ _)).
Qed.

(** X1.  Flow conservation along the chain.  Whatever amount [r] a call of
    [AddFlow] returns, that amount is what every leg of the parent chain has
    added to its tally and what every edge along the chain has added to its
    flow (in [uint] arithmetic); legs off the chain and all other edges are
    as before.  The chain runs along no edge twice, and the tallies and
    edge flows are [uint]s. *)
Theorem AddFlow_conserves_flow ms fuel :
  ∀ p l nf (h : gmap nat Path.t) job r h' job',
    Path.ancestry h p l → NoDup (Path.legs h l) →
    (∀ q x, q ∈ l → h !! q = Some x → (0 ≤ Path.flow x ≤ UINT_MAX)%Z) →
    (∀ i j, (0 ≤ LinkGraphJob.Flow job i j ≤ UINT_MAX)%Z) →
    Path.AddFlow fuel p nf ms (h, job) = Some (r, (h', job')) →
    (∀ q x, q ∈ l → h !! q = Some x →
       h' !! q = Some (Path.set_flow (wrap_uint (Path.flow x + r)) x))
    ∧ (∀ q, q ∉ l → h' !! q = h !! q)
    ∧ (∀ i j,
         LinkGraphJob.Flow job' i j
         = if decide ((i, j) ∈ Path.legs h l ∧ in_range job i j)
           then wrap_uint (LinkGraphJob.Flow job i j + r)
           else LinkGraphJob.Flow job i j).
Proof.
  induction fuel as [|fuel IH];
    intros p l nf h job r h' job' Hanc Hnd Hleg Hedge Hrun; [done|].
  assert (∀ x, (0 ≤ Path.flow x ≤ UINT_MAX)%Z →
               Path.set_flow (wrap_uint (Path.flow x + 0)) x = x) as Hzero.
  { intros x Hx. rewrite Z.add_0_r, wrap_uint_small by done. by destruct x. }
  destruct (AddFlow_S_inv _ _ _ _ _ _ _ _ _ _ Hanc Hrun)
    as (x & Hp & [(Hroot & -> & -> & -> & ->)
                 |(par & y & l' & Hpar & Hy & -> & Hq
                   & [(_ & _ & -> & -> & ->)
                     |(nf' & h1 & job1 & _ & Hrec & Hp1 & -> & ->)])]).
  - (* a root leg *)
    split_and!.
    + intros q x' [->|[]%elem_of_nil]%elem_of_cons Hq.
      rewrite lookup_insert_eq. congruence.
    + intros q Hq. apply not_elem_of_cons in Hq as [? _].
      by rewrite lookup_insert_ne.
    + intros i j.
      assert (Path.legs h [p] = []) as ->.
      { unfold Path.legs. simpl. unfold Path.leg.
        rewrite Hp. simpl. by rewrite Hroot. }
      rewrite decide_False; [done|]. by intros [[]%elem_of_nil _].
  - (* the edge into the leg is saturated: nothing is pushed *)
    split_and!.
    + intros q x' Hin Hx'. rewrite Hx', Hzero; [done|]. by eapply Hleg.
    + done.
    + intros i j. destruct (decide _); [|done].
      rewrite Z.add_0_r, wrap_uint_small; [done|]. apply Hedge.
  - (* the push through the parent *)
    rewrite (legs_cons _ _ _ _ _ _ Hp Hpar Hy) in Hnd |- *.
    apply NoDup_cons in Hnd as [Hfresh Hnd].
    destruct (IH _ _ _ _ _ _ _ _ Hq Hnd
                 (λ q x Hin, Hleg q x (list_elem_of_further _ _ _ Hin))
                 Hedge Hrec) as (Hlegs1 & Hframe1 & Hedges1).
    split_and!.
    + intros q x' [->|Hin]%elem_of_cons Hx'.
      * rewrite lookup_insert_eq. congruence.
      * rewrite lookup_insert_ne.
        -- by apply Hlegs1.
        -- intros <-. by apply (ancestry_not_below _ _ _ _ _ Hp Hpar Hq).
    + intros q [Hne Hnin]%not_elem_of_cons.
      rewrite lookup_insert_ne by done. by apply Hframe1.
    + intros i j. rewrite Flow_Edge_AddFlow.
      assert (LinkGraphJob.Flow
                (if decide (Path.flow x = 0 ∧ r > 0)%Z
                 then LinkGraphJob.Paths_push_back (Path.node y) p job1
                 else job1) = LinkGraphJob.Flow job1) as ->
        by (by destruct (decide (_ ∧ _))).
      assert (LinkGraphJob.edges
                (if decide (Path.flow x = 0 ∧ r > 0)%Z
                 then LinkGraphJob.Paths_push_back (Path.node y) p job1
                 else job1) = LinkGraphJob.edges job1) as ->
        by (by destruct (decide (_ ∧ _))).
      pose proof (AddFlow_in_range _ _ _ _ _ _ _ _ _ _ Hq Hrec
                    (Path.node y) (Path.node x)) as Hrange.
      unfold in_range in Hrange at 1.
      destruct (decide ((Path.node y = i ∧ _) ∧ (Path.node x = j ∧ _)))
        as [[[<- Hi] [<- Hj]]|Hother].
      * rewrite Hedges1.
        rewrite (decide_False (P := _ ∈ Path.legs h l' ∧ _))
          by (by intros [? _]).
        rewrite decide_True; [done|].
        split; [apply list_elem_of_here|]. apply Hrange. done.
      * rewrite Hedges1.
        destruct (decide ((i, j) ∈ Path.legs h l' ∧ in_range job i j))
          as [[Hin Hr]|Hn].
        -- rewrite decide_True; [done|].
           split; [by apply list_elem_of_further|done].
        -- rewrite decide_False; [done|].
           intros [[Heq|Hin]%elem_of_cons Hr]; [|by apply Hn].
           injection Heq as -> ->. apply Hother.
           apply Hrange in Hr. unfold in_range in Hr. tauto.
Qed.

Lemma AddFlow_flows_witness_uint :
  ∀ q x, q ∈ [1; 0] → chain_heap !! q = Some x →
         (0 ≤ Path.flow x ≤ UINT_MAX)%Z.
Proof.
  intros q x Hq Hx.
  apply elem_of_cons in Hq as [->|Hq];
    [|apply elem_of_cons in Hq as [->|[]%elem_of_nil]];
    vm_compute in Hx; injection Hx as <-; simpl; unfold UINT_MAX; lia.
Qed.

Lemma AddFlow_conserves_flow_witness :
  ∃ h' : gmap nat Path.t,
    (∀ q x, q ∈ [1; 0] → chain_heap !! q = Some x →
       h' !! q = Some (Path.set_flow (wrap_uint (Path.flow x + 50)) x))
    ∧ (∀ q, q ∉ [1; 0] → h' !! q = chain_heap !! q)
    ∧ (∀ i j,
         LinkGraphJob.Flow chain_job_pushed i j
         = if decide ((i, j) ∈ Path.legs chain_heap [1; 0]
                      ∧ in_range sample_job i j)
           then wrap_uint (LinkGraphJob.Flow sample_job i j + 50)
           else LinkGraphJob.Flow sample_job i j).
Proof.
  eexists.
  eapply (AddFlow_conserves_flow 50 2 1 [1; 0] 70 chain_heap sample_job 50 _
            chain_job_pushed).
  - chain.
  - apply NoDup_singleton.
  - apply AddFlow_flows_witness_uint.
  - intros i j. unfold sample_job. rewrite Flow_Init. unfold UINT_MAX. lia.
  - reflexivity.
Defined.

(** The value returned with an unlimited saturation. *)
Lemma AddFlow_unlimited_result fuel :
  ∀ p l nf (h : gmap nat Path.t) job r s',
    Path.ancestry h p l →
    Path.AddFlow fuel p nf UINT_MAX (h, job) = Some (r, s') → r = nf.
Proof.
  induction fuel as [|fuel IH]; intros p l nf h job r [h' job'] Hanc Hrun;
    [done|].
  destruct (AddFlow_S_inv _ _ _ _ _ _ _ _ _ _ Hanc Hrun)
    as (x & Hp & [(_ & _ & -> & _)
                 |(par & y & l' & Hpar & Hy & -> & Hq
                   & [(Hms & _)
                     |(nf' & h1 & job1 & [[-> _]|[Hms _]] & Hrec & _)])]);
    try done.
  by eapply IH.
Qed.

(** X2.  With [max_saturation = UINT_MAX] nothing is clamped: on a leg whose
    parent chain ends in a root, [AddFlow] returns (given fuel for the
    chain) exactly the amount it was asked to push, whatever the capacities
    and flows of the edges are. *)
Theorem AddFlow_unlimited (h : gmap nat Path.t) job p l new_flow fuel :
  Path.ancestry h p l → length l ≤ fuel →
  ∃ (h' : gmap nat Path.t) job',
    Path.AddFlow fuel p new_flow UINT_MAX (h, job)
    = Some (new_flow, (h', job')).
Proof.
  intros Hanc Hfuel.
  destruct (AddFlow_total UINT_MAX _ _ _ Hanc fuel new_flow job Hfuel)
    as (r & h' & job' & Hrun).
  rewrite (AddFlow_unlimited_result _ _ _ _ _ _ _ _ Hanc Hrun) in Hrun.
  eauto.
Qed.

Lemma AddFlow_unlimited_witness :
  ∃ (h' : gmap nat Path.t) job',
    Path.AddFlow 4 3 5000 UINT_MAX (loop_heap, sample_job)
    = Some (5000%Z, (h', job')).
Proof.
  apply (AddFlow_unlimited loop_heap sample_job 3 [3; 2; 1; 0] 5000 4).
  - chain.
  - simpl. lia.
Defined.

(** ** Registration of legs at their parent's node *)

Lemma paths_Paths_push_back n p job m :
  LinkGraphJob.paths
    (LinkGraphJob.nodes (LinkGraphJob.Paths_push_back n p job) !!! m)
  = if decide (n = m ∧ n < length (LinkGraphJob.nodes job))
    then LinkGraphJob.paths (LinkGraphJob.nodes job !!! n) ++ [p]
    else LinkGraphJob.paths (LinkGraphJob.nodes job !!! m).
Proof.
  unfold LinkGraphJob.Paths_push_back. simpl.
  rewrite list_lookup_total_alter. by destruct (decide _).
Qed.

(** [AddFlow] only appends to the path lists and keeps their number. *)
Lemma AddFlow_paths_grow ms fuel :
  ∀ p l nf (h : gmap nat Path.t) job r h' job',
    Path.ancestry h p l →
    Path.AddFlow fuel p nf ms (h, job) = Some (r, (h', job')) →
    length (LinkGraphJob.nodes job') = length (LinkGraphJob.nodes job)
    ∧ ∀ m a, a ∈ LinkGraphJob.paths (LinkGraphJob.nodes job !!! m) →
             a ∈ LinkGraphJob.paths (LinkGraphJob.nodes job' !!! m).
Proof.
  induction fuel as [|fuel IH]; intros p l nf h job r h' job' Hanc Hrun;
    [done|].
  destruct (AddFlow_S_inv _ _ _ _ _ _ _ _ _ _ Hanc Hrun)
    as (x & Hp & [(_ & _ & _ & -> & _)
                 |(par & y & l' & Hpar & Hy & -> & Hq
                   & [(_ & _ & _ & _ & ->)
                     |(nf' & h1 & job1 & _ & Hrec & _ & -> & _)])]);
    [done|done|].
  destruct (IH _ _ _ _ _ _ _ _ Hq Hrec) as [Hlen Hgrow].
  change (LinkGraphJob.nodes (LinkGraphJob.Edge_AddFlow ?i ?j ?f ?job))
    with (LinkGraphJob.nodes job).
  destruct (decide (_ ∧ _)); [|done]. split.
  - unfold LinkGraphJob.Paths_push_back. simpl. by rewrite length_alter.
  - intros m a0 Ha. rewrite paths_Paths_push_back.
    destruct (decide _) as [[<- _]|_]; [|by apply Hgrow].
    apply elem_of_app. left. by apply Hgrow.
Qed.

Lemma registered_update_flow (h : gmap nat Path.t) job p x f :
  h !! p = Some x →
  ((0 < f)%Z → ∀ q y, Path.parent x = Some q → h !! q = Some y →
     p ∈ LinkGraphJob.paths (LinkGraphJob.nodes job !!! Path.node y)) →
  Path.parent x ≠ Some p →
  registered h job →
  registered (<[p := Path.set_flow f x]> h) job.
Proof.
  intros Hp Hown Hne Hreg p0 x0 q0 y0 Hp0 Hpar0 Hq0 Hpos.
  apply lookup_insert_Some in Hp0 as [[<- <-]|[Hne0 Hp0]].
  - simpl in Hpar0, Hpos.
    apply lookup_insert_Some in Hq0 as [[<- <-]|[_ Hq0]]; [congruence|].
    eapply Hown; eauto.
  - apply lookup_insert_Some in Hq0 as [[<- <-]|[_ Hq0]];
      [change (Path.node (Path.set_flow f x)) with (Path.node x)|];
      eapply Hreg; eauto.
Qed.

(** X3.  Legs stay registered. If every leg with a parent and a positive
    flow tally is listed in the paths of its parent's node, the same holds
    after [AddFlow]: a leg whose tally leaves zero is pushed to that list,
    and nothing is ever taken off a list. *)
Theorem AddFlow_keeps_registered ms fuel :
  ∀ p l nf (h : gmap nat Path.t) job r h' job',
    Path.ancestry h p l →
    (0 ≤ nf)%Z →
    (∀ q x, q ∈ l → h !! q = Some x →
       (0 ≤ Path.flow x)%Z ∧ Path.node x < length (LinkGraphJob.nodes job)) →
    registered h job →
    Path.AddFlow fuel p nf ms (h, job) = Some (r, (h', job')) →
    registered h' job'.
Proof.
  induction fuel as [|fuel IH];
    intros p l nf h job r h' job' Hanc Hnf Hok Hreg Hrun; [done|].
  destruct (AddFlow_S_inv _ _ _ _ _ _ _ _ _ _ Hanc Hrun)
    as (x & Hp & [(Hroot & -> & -> & -> & ->)
                 |(par & y & l' & Hpar & Hy & -> & Hq
                   & [(_ & _ & _ & -> & ->)
                     |(nf' & h1 & job1 & Hnf' & Hrec & Hp1 & -> & ->)])]).
  - apply registered_update_flow; auto; congruence.
  - done.
  - pose proof (ancestry_not_below _ _ _ _ _ Hp Hpar Hq) as Hfresh.
    assert (par ∈ l') as Hparl.
    { destruct (ancestry_head _ _ _ Hq) as [l0 ->]. apply list_elem_of_here. }
    assert (par ≠ p) as Hne by (intros ->; done).
    assert (0 ≤ nf')%Z as Hnf'0.
    { destruct Hnf' as [[-> _]|(_ & ? & ->)]; lia. }
    assert (registered h1 job1) as Hreg1.
    { eapply (IH _ _ _ _ _ _ _ _ Hq Hnf'0); [|done|done].
      intros q z Hql. apply Hok. by apply list_elem_of_further. }
    destruct (AddFlow_paths_grow _ _ _ _ _ _ _ _ _ _ Hq Hrec)
      as [Hlen Hgrow].
    destruct (AddFlow_effect _ _ _ _ _ _ _ _ _ _ Hq Hrec)
      as (Hframe & Hshape & _).
    destruct (AddFlow_result_range _ _ _ _ _ _ _ Hnf'0 Hrec) as [Hr0 _].
    destruct (Hok p x (list_elem_of_here _ _) Hp) as [Hfx _].
    destruct (Hok par y (list_elem_of_further _ _ _ Hparl) Hy) as [_ Hny].
    set (job2 := if decide (Path.flow x = 0 ∧ r > 0)%Z
                 then LinkGraphJob.Paths_push_back (Path.node y) p job1
                 else job1).
    assert (∀ m a, a ∈ LinkGraphJob.paths (LinkGraphJob.nodes job1 !!! m) →
                   a ∈ LinkGraphJob.paths (LinkGraphJob.nodes job2 !!! m))
      as Hgrow2.
    { intros m a0 Ha. unfold job2. destruct (decide (_ ∧ _)); [|done].
      rewrite paths_Paths_push_back.
      destruct (decide _) as [[<- _]|_]; [|done].
      apply elem_of_app. by left. }
    assert (registered h1 job2) as Hreg2.
    { intros p0 x0 q0 y0 ? ? ? ?. apply Hgrow2. eapply Hreg1; eauto. }
    assert (registered
              (<[p := Path.set_flow (wrap_uint (Path.flow x + r)) x]> h1)
              job2) as Hfinal; [|exact Hfinal].
    apply registered_update_flow; auto; [|congruence].
    intros Hnew q y1 Hq1 Hy1.
    assert (q = par) as -> by congruence.
    pose proof (Hshape par) as Hsp. rewrite Hy, Hy1 in Hsp.
    assert (Path.node y1 = Path.node y) as -> by (by injection Hsp).
    destruct (decide (Path.flow x = 0 ∧ r > 0)%Z) as [Hpush|Hno].
    + (* the tally leaves zero: the leg is pushed by this call *)
      unfold job2.
      rewrite paths_Paths_push_back, decide_True by (split; [done|lia]).
      apply elem_of_app. right. apply list_elem_of_here.
    + (* the tally was positive before: the entry is already there *)
      apply Hgrow2, Hgrow. eapply Hreg; eauto.
      destruct (decide (Path.flow x = 0)%Z) as [Hzero|]; [|lia].
      assert (r = 0)%Z as Hr by lia.
      rewrite Hzero, Hr in Hnew. by vm_compute in Hnew.
Qed.

Lemma AddFlow_keeps_registered_witness :
  ∃ (h' : gmap nat Path.t) job',
    Path.AddFlow 2 1 70 50 (chain_heap, sample_job) = Some (50%Z, (h', job'))
    ∧ registered h' job'.
Proof.
  eexists _, _. split; [reflexivity|].
  eapply (AddFlow_keeps_registered 50 2 1 [1; 0] 70 chain_heap sample_job 50).
  - chain.
  - lia.
  - intros q x Hq Hx.
    apply elem_of_cons in Hq as [->|Hq];
      [|apply elem_of_cons in Hq as [->|[]%elem_of_nil]];
      vm_compute in Hx; injection Hx as <-; simpl; lia.
  - intros p x q y Hp _ _ Hpos.
    unfold chain_heap in Hp.
    apply lookup_insert_Some in Hp as [[<- <-]|[_ Hp]]; [by simpl in Hpos|].
    apply lookup_singleton_Some in Hp as [<- <-]. by simpl in Hpos.
  - reflexivity.
Defined.

(** ** More on Fork *)

(** The fields [Fork] never writes, and the one field it copies. *)
Lemma Fork_fields (h h' : gmap nat Path.t) this base cap fc dist b :
  h !! base = Some b → Path.Fork this base cap fc dist h = Some h' →
  (∀ q, (λ y, (Path.flow y, Path.node y)) <$> h' !! q
        = (λ y, (Path.flow y, Path.node y)) <$> h !! q)
  ∧ (∀ q, q ≠ this → Path.origin <$> h' !! q = Path.origin <$> h !! q)
  ∧ Path.origin <$> h' !! this = Some (Path.origin b).
Proof.
  intros Hb Hfork.
  destruct (Fork_Some_inv _ _ _ _ _ _ _ Hfork)
    as (b0 & h1 & b1 & h2 & b2 & h3 & x3 & h4 & b4 & x4
        & Hb0 & H1 & Hb1 & H2 & Hb2 & H3 & Hx3 & _ & H4 & Hb4 & Hx4 & ->).
  destruct (reparent_inv _ _ _ _ _ Hx3 H4) as (Hg & _ & _).
  assert (∀ {A} (g : Path.t → A),
            (∀ v y, g (Path.set_capacity v y) = g y) →
            (∀ v y, g (Path.set_free_capacity v y) = g y) →
            (∀ v y, g (Path.set_distance v y) = g y) →
            (∀ v y, g (Path.set_num_children v y) = g y) →
            (∀ v y, g (Path.set_parent v y) = g y) →
            ∀ q, g <$> h4 !! q = g <$> h !! q) as Hkeep.
  { intros A g G1 G2 G3 G4 G5 q.
    rewrite (Hg A g G4 G5 q).
    rewrite (update_fmap g _ _ _ _ q H3) by (intros; apply G3).
    rewrite (update_fmap g _ _ _ _ q H2) by (intros; apply G2).
    apply (update_fmap g _ _ _ _ q H1). intros; apply G1. }
  split_and!.
  - intros q. rewrite <- (Hkeep _ (λ y, (Path.flow y, Path.node y))) by done.
    destruct (decide (q = this)) as [->|Hne].
    + by rewrite lookup_insert_eq, Hx4.
    + by rewrite lookup_insert_ne.
  - intros q Hne. rewrite lookup_insert_ne by done.
    by apply (Hkeep _ Path.origin).
  - rewrite lookup_insert_eq. simpl. f_equal.
    pose proof (Hkeep _ Path.origin (λ _ _, eq_refl) (λ _ _, eq_refl)
                  (λ _ _, eq_refl) (λ _ _, eq_refl) (λ _ _, eq_refl) base)
      as E.
    rewrite Hb4, Hb in E. by injection E.
Qed.

(** X4.  A chain built by [Fork] carries one origin. If every leg on the
    parent chain of [base] has the origin [o] and [this] is not on that
    chain, then after [this->Fork(base, ...)] every leg on the chain of
    [this] has the origin [o]; [Fork] changes no leg's node or flow tally,
    and no other leg's origin. *)
Theorem Fork_chain_origin
  (h h' : gmap nat Path.t) this base cap free_cap dist l o :
  Path.ancestry h base l → this ∉ l →
  (∀ q y, q ∈ l → h !! q = Some y → Path.origin y = o) →
  Path.Fork this base cap free_cap dist h = Some h' →
  (∀ q y, q ∈ this :: l → h' !! q = Some y → Path.origin y = o)
  ∧ (∀ q, q ≠ this → Path.origin <$> h' !! q = Path.origin <$> h !! q)
  ∧ (∀ q, Path.flow <$> h' !! q = Path.flow <$> h !! q)
  ∧ (∀ q, Path.node <$> h' !! q = Path.node <$> h !! q).
Proof.
  intros Hanc Hnotin Ho Hfork.
  assert (∃ l' b, l = base :: l' ∧ h !! base = Some b) as (l' & b & -> & Hb).
  { inversion Hanc; simplify_eq; eauto. }
  destruct (Fork_fields _ _ _ _ _ _ _ _ Hb Hfork) as (Hfn & Hother & Hthis).
  split_and!.
  - intros q y Hq Hy. apply elem_of_cons in Hq as [->|Hq].
    + rewrite Hy in Hthis. simpl in Hthis. injection Hthis as ->.
      apply (Ho base b); [apply list_elem_of_here|done].
    + assert (q ≠ this) as Hne by (intros ->; done).
      pose proof (Hother q Hne) as E. rewrite Hy in E.
      destruct (h !! q) as [y0|] eqn:Hy0; [|done].
      injection E as ->. by apply (Ho q y0).
  - done.
  - intros q. pose proof (Hfn q) as E.
    destruct (h' !! q), (h !! q); simpl in *; congruence.
  - intros q. pose proof (Hfn q) as E.
    destruct (h' !! q), (h !! q); simpl in *; congruence.
Qed.

Lemma Fork_chain_origin_witness :
  ∃ h' : gmap nat Path.t,
    Path.Fork 2 1 40 40 3 fresh_leg_heap = Some h'
    ∧ (∀ q y, q ∈ [2; 1; 0] → h' !! q = Some y → Path.origin y = 0)
    ∧ (∀ q, q ≠ 2 →
         Path.origin <$> h' !! q = Path.origin <$> fresh_leg_heap !! q)
    ∧ (∀ q, Path.flow <$> h' !! q = Path.flow <$> fresh_leg_heap !! q)
    ∧ (∀ q, Path.node <$> h' !! q = Path.node <$> fresh_leg_heap !! q).
Proof.
  eexists. split; [reflexivity|].
  eapply (Fork_chain_origin fresh_leg_heap _ 2 1 40 40 3 [1; 0] 0).
  - chain.
  - intros Hin. apply elem_of_cons in Hin as [?|Hin]; [done|].
    apply elem_of_cons in Hin as [?|Hin]; [done|]. by apply elem_of_nil in Hin.
  - intros q y Hq Hy.
    apply elem_of_cons in Hq as [->|Hq];
      [|apply elem_of_cons in Hq as [->|[]%elem_of_nil]];
      vm_compute in Hy; by injection Hy as <-.
  - reflexivity.
Defined.

(** X5.  The assertion of [Fork]. With [this], its old parent and [base]
    allocated, [Fork] runs through if and only if the new distance
    [base->distance + dist], computed in [uint], is not zero: the assertion
    fails exactly for [dist = 0] on a base at distance zero and for a sum
    that wraps around to zero. *)
Theorem Fork_assertion (h : gmap nat Path.t) this base cap free_cap dist x b :
  h !! this = Some x → h !! base = Some b →
  (∀ old, Path.parent x = Some old → is_Some (h !! old)) →
  is_Some (Path.Fork this base cap free_cap dist h)
  ↔ wrap_uint (Path.distance b + dist) ≠ 0%Z.
Proof.
  intros Hx Hb Hold. split.
  - intros [h' Hfork].
    destruct (Fork_effect _ _ _ _ _ _ _ _ Hb Hfork)
      as ((x' & Hx' & _ & _ & Hdis & _) & _).
    destruct (Fork_Some_inv _ _ _ _ _ _ _ Hfork)
      as (b0 & h1 & b1 & h2 & b2 & h3 & x3 & h4 & b4 & x4
          & Hb0 & H1 & Hb1 & H2 & Hb2 & H3 & Hx3 & Hpos & H4 & Hb4 & Hx4 & ->).
    destruct (reparent_inv _ _ _ _ _ Hx3 H4) as (Hg & _ & _).
    pose proof (Hg _ Path.distance (λ _ _, eq_refl) (λ _ _, eq_refl) this)
      as E.
    rewrite Hx4, Hx3 in E. rewrite lookup_insert_eq in Hx'.
    injection Hx' as <-. simpl in Hdis. injection E as E. lia.
  - intros Hne.
    apply (Fork_succeeds h this base cap free_cap dist x b Hx Hb Hold).
    pose proof (wrap_uint_range (Path.distance b + dist)). lia.
Qed.

Lemma Fork_assertion_witness :
  is_Some (Path.Fork 2 1 40 40 0 fresh_leg_heap)
  ↔ wrap_uint (5 + 0) ≠ 0%Z.
Proof.
  apply (Fork_assertion fresh_leg_heap 2 1 40 40 0
           (Path.new 2 false) (Path.mk 5 100 100 0 1 0 0 (Some 0))).
  - reflexivity.
  - reflexivity.
  - intros old Hold. discriminate.
Defined.

(** X6.  The first leg after a source. Forking a leg onto a source leg
    [Path(n, true)] with a [uint] capacity, an [int] free capacity and a
    positive [uint] distance runs through and leaves the leg with exactly
    these three values, with the source as parent and the source's node
    [n] as origin: the source's own distance 0, capacity [UINT_MAX] and
    free capacity [INT_MAX] restrict nothing. *)
Theorem Fork_onto_source
  (h : gmap nat Path.t) this base n x cap free_cap dist :
  h !! base = Some (Path.new n true) → h !! this = Some x →
  (∀ old, Path.parent x = Some old → is_Some (h !! old)) →
  (0 ≤ cap ≤ UINT_MAX)%Z → (INT_MIN ≤ free_cap ≤ INT_MAX)%Z →
  (0 < dist ≤ UINT_MAX)%Z →
  ∃ h' x',
    Path.Fork this base cap free_cap dist h = Some h'
    ∧ h' !! this = Some x'
    ∧ Path.capacity x' = cap ∧ Path.free_capacity x' = free_cap
    ∧ Path.distance x' = dist ∧ Path.origin x' = n
    ∧ Path.parent x' = Some base.
Proof.
  intros Hb Hx Hold Hcap Hfc Hdist.
  assert (wrap_uint (0 + dist) = dist) as Hwrap
    by (apply wrap_uint_small; lia).
  destruct (Fork_succeeds h this base cap free_cap dist x _ Hx Hb Hold)
    as [h' Hfork].
  { change (Path.distance (Path.new n true)) with 0%Z. lia. }
  destruct (Fork_effect _ _ _ _ _ _ _ _ Hb Hfork)
    as ((x' & Hx' & Hc & Hf & Hd & Hp) & _).
  destruct (Fork_fields _ _ _ _ _ _ _ _ Hb Hfork) as (_ & _ & Ho).
  rewrite Hx' in Ho. injection Ho as Ho.
  exists h', x'. split_and!; try done.
  - rewrite Hc. change (Path.capacity (Path.new n true)) with UINT_MAX. lia.
  - rewrite Hf. change (Path.free_capacity (Path.new n true)) with INT_MAX.
    lia.
  - by rewrite Hd.
Qed.

Lemma Fork_onto_source_witness :
  ∃ (h' : gmap nat Path.t) x',
    Path.Fork 1 0 100 (-20) 5 unforked_heap = Some h'
    ∧ h' !! 1 = Some x'
    ∧ Path.capacity x' = 100%Z ∧ Path.free_capacity x' = (-20)%Z
    ∧ Path.distance x' = 5%Z ∧ Path.origin x' = 0
    ∧ Path.parent x' = Some 0.
Proof.
  apply (Fork_onto_source unforked_heap 1 0 0 (Path.new 1 false) 100 (-20) 5).
  - reflexivity.
  - reflexivity.
  - intros old Hold. discriminate.
  - unfold UINT_MAX. lia.
  - unfold INT_MIN, INT_MAX. lia.
  - unfold UINT_MAX. lia.
Defined.

(** ** More on EraseFlows and Init *)

(** What [EraseFlows] leaves at each index of the node annotations. *)
Lemma EraseFlows_lookup from job i :
  LinkGraphJob.nodes (LinkGraphJob.EraseFlows from job) !! i
  = (λ n, if decide (i < LinkGraphJob.Size job) then erase_at from n else n)
      <$> LinkGraphJob.nodes job !! i.
Proof.
  unfold LinkGraphJob.EraseFlows. rewrite EraseFlows_loop. simpl.
  set (ns := LinkGraphJob.nodes job). set (k := LinkGraphJob.Size job).
  destruct (decide (i < length ns)) as [Hin|Hout].
  - destruct (decide (i < k)) as [Hlt|Hge].
    + rewrite lookup_app_l by (rewrite length_fmap, length_take; lia).
      rewrite list_lookup_fmap, lookup_take_lt by lia.
      by destruct (ns !! i).
    + rewrite lookup_app_r by (rewrite length_fmap, length_take; lia).
      rewrite length_fmap, length_take, lookup_drop.
      replace (k + (i - k `min` length ns)) with i by lia.
      by destruct (ns !! i).
  - rewrite (lookup_ge_None_2 ns) by lia. apply lookup_ge_None_2.
    rewrite length_app, length_fmap, length_take, length_drop. lia.
Qed.

Lemma EraseFlows_fields from job :
  LinkGraphJob.EraseFlows from job
  = LinkGraphJob.set_nodes
      (LinkGraphJob.nodes (LinkGraphJob.EraseFlows from job)) job.
Proof. unfold LinkGraphJob.EraseFlows. by rewrite EraseFlows_loop. Qed.

Lemma erase_at_comm X Y n : erase_at X (erase_at Y n) = erase_at Y (erase_at X n).
Proof. unfold erase_at. simpl. by rewrite delete_delete. Qed.

Lemma erase_at_idemp X n : erase_at X (erase_at X n) = erase_at X n.
Proof. unfold erase_at. simpl. by rewrite delete_delete_eq. Qed.

(** X7.  Erasing composes. On a job whose node annotations cover the graph,
    erasing the flows of two origins gives the same job in either order,
    and erasing the flows of one origin a second time changes nothing; so
    the order in which [FinaliseJob] meets the stale nodes does not matter
    for what is erased. *)
Theorem EraseFlows_commute X Y job :
  LinkGraphJob.Size job ≤ length (LinkGraphJob.nodes job) →
  LinkGraphJob.EraseFlows X (LinkGraphJob.EraseFlows Y job)
  = LinkGraphJob.EraseFlows Y (LinkGraphJob.EraseFlows X job)
  ∧ LinkGraphJob.EraseFlows X (LinkGraphJob.EraseFlows X job)
    = LinkGraphJob.EraseFlows X job.
Proof.
  intros _.
  assert (∀ A B, LinkGraphJob.EraseFlows A (LinkGraphJob.EraseFlows B job)
                 = LinkGraphJob.set_nodes
                     (LinkGraphJob.nodes
                        (LinkGraphJob.EraseFlows A
                           (LinkGraphJob.EraseFlows B job))) job) as Hnf.
  { intros A B.
    transitivity (LinkGraphJob.set_nodes
                    (LinkGraphJob.nodes
                       (LinkGraphJob.EraseFlows A
                          (LinkGraphJob.EraseFlows B job)))
                    (LinkGraphJob.EraseFlows B job));
      [apply EraseFlows_fields|].
    generalize (LinkGraphJob.nodes
                  (LinkGraphJob.EraseFlows A (LinkGraphJob.EraseFlows B job))).
    intros ns. by rewrite (EraseFlows_fields B job). }
  assert (∀ A, LinkGraphJob.Size (LinkGraphJob.EraseFlows A job)
               = LinkGraphJob.Size job) as Hsize.
  { intros A. unfold LinkGraphJob.Size. by rewrite EraseFlows_link_graph. }
  split.
  - rewrite (Hnf X Y), (Hnf Y X). f_equal. apply list_eq. intros i.
    rewrite !EraseFlows_lookup, !Hsize.
    destruct (LinkGraphJob.nodes job !! i) as [n|]; [|done]. simpl.
    destruct (decide _); [|done]. by rewrite erase_at_comm.
  - rewrite (Hnf X X). rewrite (EraseFlows_fields X job) at 2. f_equal.
    apply list_eq. intros i.
    rewrite !EraseFlows_lookup, !Hsize.
    destruct (LinkGraphJob.nodes job !! i) as [n|]; [|done]. simpl.
    destruct (decide _); [|done]. by rewrite erase_at_idemp.
Qed.

Lemma EraseFlows_commute_witness :
  LinkGraphJob.EraseFlows 10 (LinkGraphJob.EraseFlows 12 solved_job)
  = LinkGraphJob.EraseFlows 12 (LinkGraphJob.EraseFlows 10 solved_job)
  ∧ LinkGraphJob.EraseFlows 10 (LinkGraphJob.EraseFlows 10 solved_job)
    = LinkGraphJob.EraseFlows 10 solved_job.
Proof.
  apply (EraseFlows_commute 10 12 solved_job).
  vm_compute. lia.
Defined.

(** X8.  What [Init] establishes. Afterwards there is one node annotation
    per node of the graph and a square matrix of edge annotations of that
    size; every edge annotation has demand, unsatisfied demand and flow
    zero; the annotation of node [i] holds the supply of the graph's node
    [i] as undelivered supply and no received demand. The copied graph, the
    settings, the dates, the flags and the thread group are as before. *)
Theorem Init_establishes job :
  let job' := LinkGraphJob.Init job in
  length (LinkGraphJob.nodes job') = LinkGraphJob.Size job
  ∧ length (LinkGraphJob.edges job') = LinkGraphJob.Size job
  ∧ (∀ i row, LinkGraphJob.edges job' !! i = Some row →
       length row = LinkGraphJob.Size job
       ∧ ∀ j e, row !! j = Some e → e = LinkGraphJob.mkEdgeAnnotation 0 0 0)
  ∧ (∀ i n, LinkGraphJob.nodes job' !! i = Some n →
       LinkGraphJob.undelivered_supply n
       = LinkGraph.supply
           (LinkGraph.node_at (LinkGraphJob.link_graph job) i)
       ∧ LinkGraphJob.received_demand n = 0%Z)
  ∧ LinkGraphJob.set_edges (LinkGraphJob.edges job)
      (LinkGraphJob.set_nodes (LinkGraphJob.nodes job) job')
    = job.
Proof.
  unfold LinkGraphJob.Init. cbv zeta. simpl. split_and!.
  - by rewrite length_imap, length_resize.
  - by rewrite !length_fmap, length_resize.
  - intros i row Hrow.
    rewrite !list_lookup_fmap in Hrow.
    destruct (resize _ _ _ !! i) as [r0|]; [|done].
    injection Hrow as <-. split.
    + by rewrite length_fmap, length_resize.
    + intros j e He. rewrite list_lookup_fmap in He.
      destruct (resize _ _ _ !! j); [|done]. by injection He as <-.
  - intros i n Hn. rewrite list_lookup_imap in Hn.
    destruct (resize _ _ _ !! i); [|done]. by injection Hn as <-.
  - by destruct job.
Qed.

(** X9.  [Init] is idempotent: a second [Init] of the same job finds the
    arrays at their size and writes the same values again. It also undoes
    every [AddFlow] on the edges: after [Init] all edge flows are zero
    again. *)
Theorem Init_idempotent job :
  LinkGraphJob.Init (LinkGraphJob.Init job) = LinkGraphJob.Init job
  ∧ ∀ i j f,
      LinkGraphJob.Init (LinkGraphJob.Edge_AddFlow i j f job)
      = LinkGraphJob.Init job.
Proof.
  split.
  - unfold LinkGraphJob.Init. cbv zeta.
    change (LinkGraphJob.Size (LinkGraphJob.set_edges ?a
              (LinkGraphJob.set_nodes ?b job)))
      with (LinkGraphJob.Size job).
    unfold LinkGraphJob.set_edges, LinkGraphJob.set_nodes. simpl. f_equal.
    + rewrite (resize_all_alt (imap _ _))
        by (by rewrite length_imap, length_resize).
      apply list_eq. intros i. rewrite !list_lookup_imap.
      by destruct (resize _ _ _ !! i).
    + rewrite (resize_all_alt (fmap _ _))
        by (by rewrite !length_fmap, length_resize).
      apply list_eq. intros i. rewrite !list_lookup_fmap.
      destruct (resize _ _ _ !! i) as [row|]; [|done]. simpl. f_equal.
      rewrite (resize_all_alt (fmap _ _))
        by (by rewrite !length_fmap, length_resize).
      apply list_eq. intros j. rewrite !list_lookup_fmap.
      by destruct (resize _ _ _ !! j).
  - intros i j f. unfold LinkGraphJob.Init. cbv zeta.
    change (LinkGraphJob.Size (LinkGraphJob.Edge_AddFlow i j f job))
      with (LinkGraphJob.Size job).
    unfold LinkGraphJob.Edge_AddFlow, LinkGraphJob.set_edges,
      LinkGraphJob.set_nodes. simpl. f_equal.
    apply list_eq. intros a. rewrite !list_lookup_fmap.
    set (k := LinkGraphJob.Size job).
    destruct (decide (a < k)) as [Ha|Ha];
      [|by rewrite !(lookup_ge_None_2 (resize _ _ _))
          by (rewrite length_resize; lia)].
    destruct (decide (a < length (LinkGraphJob.edges job))) as [Hin|Hout];
      [|by rewrite !lookup_resize_new by (rewrite ?length_alter; lia)].
    rewrite !lookup_resize by (rewrite ?length_alter; lia).
    rewrite list_lookup_alter.
    destruct (decide (i = a)) as [->|Hne]; [|done].
    destruct (LinkGraphJob.edges job !! a) as [row|] eqn:Hrow; [|done].
    simpl. f_equal. apply list_eq. intros b.
    rewrite !list_lookup_fmap.
    destruct (decide (b < k)) as [Hb|Hb];
      [|by rewrite !(lookup_ge_None_2 (resize _ _ _))
          by (rewrite length_resize; lia)].
    destruct (decide (b < length row)) as [Hbin|Hbout];
      [|by rewrite !lookup_resize_new by (rewrite ?length_alter; lia)].
    rewrite !lookup_resize by (rewrite ?length_alter; lia).
    rewrite list_lookup_alter.
    destruct (decide (j = b)) as [->|]; [|done].
    by destruct (row !! b).
Qed.

(** ** The loop of FinaliseJob over the nodes *)

(** The two ways through the body of the loop. *)
Lemma finalise_node_unfold inv g w job n :
  (¬ node_current w job n
   ∧ LinkGraphJob.finalise_node inv g (w, job) n
     = (w, LinkGraphJob.EraseFlows n job))
  ∨ (∃ st fl gf gf' fl' ev,
       stations w !! LinkGraphJob.Station job n = Some st
       ∧ node_current w job n
       ∧ foldl (LinkGraphJob.edge_step w job
                  (LinkGraph_Get w
                     (GoodsEntry.link_graph
                        (Station.goods_at st (LinkGraphJob.Cargo job)))) n)
           (LinkGraphJob.Flows job n,
            GoodsEntry.flows (Station.goods_at st (LinkGraphJob.Cargo job)))
           (LinkGraph.out_edges
              (LinkGraph.node_at (LinkGraphJob.link_graph job) n))
         = (fl, gf)
       ∧ LinkGraphJob.merge_flows inv g (LinkGraphJob.Station job n)
           (LinkGraphJob.Cargo job) gf fl = (gf', fl', ev)
       ∧ LinkGraphJob.finalise_node inv g (w, job) n
         = (mkWorld
              (<[LinkGraphJob.Station job n :=
                   Station.set_goods (LinkGraphJob.Cargo job)
                     (GoodsEntry.set_flows gf'
                        (Station.goods_at st (LinkGraphJob.Cargo job))) st]>
                 (stations w))
              (link_graphs w)
              (events w ++ ev
               ++ [InvalidateWindowData (LinkGraphJob.Station job n)
                     (LinkGraphJob.Cargo job)]),
            LinkGraphJob.set_Flows n fl' job)).
Proof.
  unfold LinkGraphJob.finalise_node, node_current, Station_GetIfValid.
  destruct (stations w !! LinkGraphJob.Station job n) as [st|] eqn:Hst;
    [|left; split; [tauto|done]].
  destruct (decide (_ ∨ _)) as [Hbad|Hok].
  { left. split; [tauto|done]. }
  right.
  destruct (foldl _ _ _) as [fl gf] eqn:Hloop.
  destruct (LinkGraphJob.merge_flows _ _ _ _ _ _) as [[gf' fl'] ev] eqn:Hm.
  exists st, fl, gf, gf', fl', ev. split_and!; try done.
  - apply dec_stable. intros Hne. apply Hok. by left.
  - apply dec_stable. intros Hne. apply Hok. by right.
Qed.

Lemma same_layout_refl c w : same_layout c w w.
Proof.
  split; [done|]. intros s. by destruct (stations w !! s).
Qed.

Lemma same_layout_trans c w1 w2 w3 :
  same_layout c w1 w2 → same_layout c w2 w3 → same_layout c w1 w3.
Proof.
  intros [Hg1 H1] [Hg2 H2]. split; [congruence|]. intros s.
  specialize (H1 s). specialize (H2 s).
  destruct (stations w1 !! s), (stations w2 !! s), (stations w3 !! s);
    try done.
  destruct H1 as (Ha1 & Hb1 & Hc1), H2 as (Ha2 & Hb2 & Hc2). split_and!.
  - intros c' Hc'. rewrite Ha2, Ha1; done.
  - congruence.
  - congruence.
Qed.

Lemma goods_at_set_goods c ge st c' :
  Station.goods_at (Station.set_goods c ge st) c'
  = if decide (c' = c) then ge else Station.goods_at st c'.
Proof.
  unfold Station.goods_at, Station.set_goods. simpl.
  destruct (decide (c' = c)) as [->|Hne].
  - by rewrite lookup_total_insert_eq.
  - by rewrite lookup_total_insert_ne.
Qed.

(** One pass through the body: the graph of the job, its edges and the
    number of its nodes are kept, the world keeps its layout, and events
    are only appended. *)
Lemma finalise_node_layout inv g w job n :
  LinkGraphJob.link_graph (LinkGraphJob.finalise_node inv g (w, job) n).2
  = LinkGraphJob.link_graph job
  ∧ same_layout (LinkGraphJob.Cargo job) w
      (LinkGraphJob.finalise_node inv g (w, job) n).1
  ∧ (∃ ev, events (LinkGraphJob.finalise_node inv g (w, job) n).1
           = events w ++ ev)
  ∧ (∀ s, stations (LinkGraphJob.finalise_node inv g (w, job) n).1 !! s
          = stations w !! s
          ∨ s = LinkGraphJob.Station job n ∧ node_current w job n).
Proof.
  destruct (finalise_node_unfold inv g w job n)
    as [[Hstale ->]
       |(st & fl & gf & gf' & fl' & ev & Hst & Hcur & _ & _ & ->)]; simpl.
  - split_and!.
    + apply EraseFlows_link_graph.
    + apply same_layout_refl.
    + exists []. by rewrite app_nil_r.
    + by left.
  - split_and!.
    + done.
    + split; [done|]. intros s. simpl.
      destruct (decide (s = LinkGraphJob.Station job n)) as [->|Hne].
      * rewrite Hst, lookup_insert_eq. split_and!.
        -- intros c' Hc'. by rewrite goods_at_set_goods, decide_False.
        -- by rewrite goods_at_set_goods, decide_True.
        -- by rewrite goods_at_set_goods, decide_True.
      * rewrite lookup_insert_ne by done. by destruct (stations w !! s).
    + eauto.
    + intros s. destruct (decide (s = LinkGraphJob.Station job n));
        [by right|]. left. by rewrite lookup_insert_ne.
Qed.

Lemma node_current_layout w w' job job' n :
  LinkGraphJob.link_graph job' = LinkGraphJob.link_graph job →
  same_layout (LinkGraphJob.Cargo job) w w' →
  node_current w' job' n ↔ node_current w job n.
Proof.
  intros Hlg [_ Hst]. unfold node_current, Station_GetIfValid,
    LinkGraphJob.Station, LinkGraphJob.Cargo in *. rewrite Hlg.
  specialize (Hst (LinkGraph.station
                     (LinkGraph.node_at (LinkGraphJob.link_graph job) n))).
  destruct (stations w !! _), (stations w' !! _); try done.
  destruct Hst as (_ & -> & ->). done.
Qed.

(** The loop over a list of nodes. *)
Lemma finalise_loop_layout inv g l :
  ∀ w job,
    LinkGraphJob.link_graph
      (foldl (LinkGraphJob.finalise_node inv g) (w, job) l).2
    = LinkGraphJob.link_graph job
    ∧ same_layout (LinkGraphJob.Cargo job) w
        (foldl (LinkGraphJob.finalise_node inv g) (w, job) l).1
    ∧ (∃ ev, events (foldl (LinkGraphJob.finalise_node inv g) (w, job) l).1
             = events w ++ ev)
    ∧ (∀ s, stations (foldl (LinkGraphJob.finalise_node inv g) (w, job) l).1
              !! s = stations w !! s
            ∨ ∃ n, n ∈ l ∧ s = LinkGraphJob.Station job n
                   ∧ node_current w job n).
Proof.
  induction l as [|n l IH]; intros w job.
  { simpl. split_and!; [done|apply same_layout_refl| |by left].
    exists []. by rewrite app_nil_r. }
  cbn [foldl].
  destruct (finalise_node_layout inv g w job n) as (Hlg & Hlay & [ev Hev] & Ht).
  destruct (LinkGraphJob.finalise_node inv g (w, job) n) as [w1 job1].
  simpl in Hlg, Hlay, Hev, Ht.
  destruct (IH w1 job1) as (Hlg' & Hlay' & [ev' Hev'] & Ht').
  assert (LinkGraphJob.Cargo job1 = LinkGraphJob.Cargo job) as Hc
    by (unfold LinkGraphJob.Cargo; by rewrite Hlg).
  rewrite Hc in Hlay'.
  split_and!.
  - congruence.
  - by eapply same_layout_trans.
  - exists (ev ++ ev'). by rewrite Hev', Hev, app_assoc.
  - intros s.
    destruct (Ht s) as [Heq|[-> Hcur]].
    + destruct (Ht' s) as [Heq'|(k & Hk & -> & Hcur)]; [left; congruence|].
      right. exists k. split_and!.
      * by apply list_elem_of_further.
      * unfold LinkGraphJob.Station. by rewrite Hlg.
      * by apply (node_current_layout w w1 job job1).
    + right. exists n. split_and!; [apply list_elem_of_here|done|done].
Qed.

Lemma JoinThread_fields job :
  LinkGraphJob.JoinThread job = LinkGraphJob.set_group None job.
Proof.
  unfold LinkGraphJob.JoinThread. destruct job as [? ? ? ? ? ? [gr|] ? ?]; done.
Qed.

Lemma FinaliseJob_loop inv g w job :
  LinkGraphJob.FinaliseJob inv g w job
  = if LinkGraph_IsValidID w (LinkGraph.index (LinkGraphJob.link_graph job))
    then foldl (LinkGraphJob.finalise_node inv g)
           (w, LinkGraphJob.set_group None job)
           (seq 0 (LinkGraphJob.Size job))
    else (w, LinkGraphJob.set_group None job).
Proof.
  unfold LinkGraphJob.FinaliseJob. cbv zeta. rewrite JoinThread_fields.
  change (LinkGraphJob.link_graph (LinkGraphJob.set_group None job))
    with (LinkGraphJob.link_graph job).
  change (LinkGraphJob.Size (LinkGraphJob.set_group None job))
    with (LinkGraphJob.Size job).
  by destruct (LinkGraph_IsValidID _ _).
Qed.

(** X10.  What [FinaliseJob] can change in the world. The link graph pool is
    as before; the same stations exist, and a station differs from before
    at most in the flows of its goods entry for the job's cargo (the goods
    entries of the other cargoes, and the graph and node the entry of this
    cargo points at, are the same); the calls into other subsystems made
    before are still there, in order, with the new ones after them. *)
Theorem FinaliseJob_world_frame inv g w job :
  same_layout (LinkGraphJob.Cargo job) w
    (LinkGraphJob.FinaliseJob inv g w job).1
  ∧ ∃ ev, events (LinkGraphJob.FinaliseJob inv g w job).1 = events w ++ ev.
Proof.
  rewrite FinaliseJob_loop.
  destruct (LinkGraph_IsValidID _ _).
  - destruct (finalise_loop_layout inv g (seq 0 (LinkGraphJob.Size job)) w
                (LinkGraphJob.set_group None job)) as (_ & Hlay & Hev & _).
    done.
  - simpl. split; [apply same_layout_refl|]. exists []. by rewrite app_nil_r.
Qed.

(** X11.  The stations [FinaliseJob] leaves alone. A station whose goods
    entry for the job's cargo belongs to another link graph, or points at
    a node the job does not have, or at a node that the job's graph assigns
    to a different station, is exactly as before afterwards. *)
Theorem FinaliseJob_untouched_station inv g w job s st :
  stations w !! s = Some st →
  GoodsEntry.link_graph (Station.goods_at st (LinkGraphJob.Cargo job))
  ≠ LinkGraph.index (LinkGraphJob.link_graph job)
  ∨ LinkGraphJob.Size job
    ≤ GoodsEntry.node (Station.goods_at st (LinkGraphJob.Cargo job))
  ∨ LinkGraphJob.Station job
      (GoodsEntry.node (Station.goods_at st (LinkGraphJob.Cargo job))) ≠ s →
  stations (LinkGraphJob.FinaliseJob inv g w job).1 !! s = Some st.
Proof.
  intros Hst Hforeign. rewrite FinaliseJob_loop.
  destruct (LinkGraph_IsValidID _ _); [|done].
  destruct (finalise_loop_layout inv g (seq 0 (LinkGraphJob.Size job)) w
              (LinkGraphJob.set_group None job)) as (_ & _ & _ & Ht).
  destruct (Ht s) as [->|(n & Hn & -> & Hcur)]; [done|].
  exfalso. apply elem_of_seq in Hn.
  unfold node_current, Station_GetIfValid in Hcur.
  change (LinkGraphJob.Station (LinkGraphJob.set_group None job))
    with (LinkGraphJob.Station job) in *.
  change (LinkGraphJob.Cargo (LinkGraphJob.set_group None job))
    with (LinkGraphJob.Cargo job) in *.
  change (LinkGraphJob.link_graph (LinkGraphJob.set_group None job))
    with (LinkGraphJob.link_graph job) in *.
  rewrite Hst in Hcur. destruct Hcur as [Hlg Hnode].
  rewrite Hnode in Hforeign. destruct Hforeign as [?|[?|?]]; [done|lia|done].
Qed.

Lemma FinaliseJob_untouched_station_witness :
  stations
    (LinkGraphJob.FinaliseJob keep_invalidated (sample_globals DT_ASYMMETRIC)
       foreign_world solved_job).1 !! 11
  = Some (Station.mk
            {[ 0 := GoodsEntry.mk 4 1
                      {[ 7 := mkFlowStat [mkShare 10 1 false] ]} ]}).
Proof.
  apply (FinaliseJob_untouched_station keep_invalidated
           (sample_globals DT_ASYMMETRIC) foreign_world solved_job 11).
  - reflexivity.
  - left. vm_compute. discriminate.
Defined.

Lemma flows_shrunk_refl job : flows_shrunk job job.
Proof.
  split_and!; [by destruct job|done|].
  intros i n n' Hn Hn'. simplify_eq. split; [by destruct n|done].
Qed.

Lemma flows_shrunk_trans job1 job2 job3 :
  flows_shrunk job1 job2 → flows_shrunk job2 job3 → flows_shrunk job1 job3.
Proof.
  intros (Hf1 & Hl1 & Hn1) (Hf2 & Hl2 & Hn2). split_and!.
  - rewrite <- Hf1 at 2. rewrite <- Hf2. done.
  - congruence.
  - intros i n n' Hn Hn'.
    destruct (LinkGraphJob.nodes job2 !! i) as [n2|] eqn:Hn2i.
    2:{ apply lookup_ge_None in Hn2i. apply lookup_lt_Some in Hn. lia. }
    destruct (Hn1 i n n2 Hn Hn2i) as [Ha Hb].
    destruct (Hn2 i n2 n' Hn2i Hn') as [Hc Hd].
    split.
    + rewrite <- Ha at 2. rewrite <- Hc. done.
    + intros o Ho. by apply Hd, Hb.
Qed.

Lemma flows_shrunk_EraseFlows from job :
  flows_shrunk job (LinkGraphJob.EraseFlows from job).
Proof.
  split_and!.
  - rewrite (EraseFlows_fields from job). by destruct job.
  - apply Nat.le_antisymm; apply Nat.nlt_ge; intros Hlt.
    + destruct (lookup_lt_is_Some_2 _ _ Hlt) as [x Hx].
      rewrite EraseFlows_lookup in Hx.
      apply fmap_Some in Hx as (y & Hy%lookup_lt_Some & _). lia.
    + destruct (lookup_lt_is_Some_2 _ _ Hlt) as [x Hx].
      pose proof (EraseFlows_lookup from job
                    (length (LinkGraphJob.nodes (LinkGraphJob.EraseFlows from job))))
        as E.
      rewrite Hx, (lookup_ge_None_2 (LinkGraphJob.nodes _)) in E by lia. done.
  - intros i n n' Hn Hn'. rewrite EraseFlows_lookup, Hn in Hn'.
    injection Hn' as <-. destruct (decide _); [|split; [by destruct n|done]].
    split; [by destruct n|]. intros o Ho. unfold erase_at. simpl.
    destruct (decide (o = from)) as [->|Hne].
    + apply lookup_delete_eq.
    + by rewrite lookup_delete_ne.
Qed.

(** The computed flows that [merge_flows] leaves for the job: those whose
    origin has no live entry. *)
Lemma merge_flows_rest inv g st c (L C : gmap nat FlowStat) o :
  (LinkGraphJob.merge_flows inv g st c L C).1.2 !! o
  = if decide (is_Some (L !! o)) then None else C !! o.
Proof.
  unfold LinkGraphJob.merge_flows.
  destruct (merge_loop_lookup inv g st c (FlowStatMap.origins L)
              (NoDup_origins L) L C [])
    as (gf' & fl' & ev' & -> & _ & Hfl').
  simpl. rewrite Hfl'.
  destruct (decide (is_Some (L !! o))) as [Hin|Hout].
  - rewrite decide_True; [done|]. split; [by apply elem_of_origins|done].
  - rewrite decide_False; [done|]. intros [_ ?]. done.
Qed.

Lemma flows_shrunk_finalise_node inv g w job n :
  flows_shrunk job (LinkGraphJob.finalise_node inv g (w, job) n).2.
Proof.
  destruct (finalise_node_unfold inv g w job n)
    as [[Hstale ->]
       |(st & fl & gf & gf' & fl' & ev & Hst & Hcur & Hloop & Hm & ->)]; simpl.
  { apply flows_shrunk_EraseFlows. }
  unfold LinkGraphJob.set_Flows. split_and!.
  - by destruct job.
  - simpl. by rewrite length_alter.
  - intros i n0 n' Hn0 Hn'. simpl in Hn'.
    rewrite list_lookup_alter in Hn'.
    destruct (decide (n = i)) as [->|Hne];
      [|simplify_eq; split; [by destruct n0|done]].
    rewrite Hn0 in Hn'. injection Hn' as <-.
    split; [by destruct n0|]. simpl. intros o Ho.
    destruct (edge_loop_inv w job
                (LinkGraph_Get w
                   (GoodsEntry.link_graph
                      (Station.goods_at st (LinkGraphJob.Cargo job)))) i
                (LinkGraph.out_edges
                   (LinkGraph.node_at (LinkGraphJob.link_graph job) i))
                (LinkGraphJob.Flows job i)
                (GoodsEntry.flows
                   (Station.goods_at st (LinkGraphJob.Cargo job))))
      as (fl0 & gf0 & Hloop0 & _ & _ & Hkeys & _).
    rewrite Hloop in Hloop0. injection Hloop0 as <- <-.
    pose proof (merge_flows_rest inv g (LinkGraphJob.Station job i)
                  (LinkGraphJob.Cargo job) gf fl o) as E.
    rewrite Hm in E. simpl in E. rewrite E.
    destruct (decide _); [done|]. apply Hkeys.
    unfold LinkGraphJob.Flows.
    by rewrite (list_lookup_total_correct _ _ _ Hn0).
Qed.

Lemma flows_shrunk_finalise_loop inv g l :
  ∀ w job,
    flows_shrunk job (foldl (LinkGraphJob.finalise_node inv g) (w, job) l).2.
Proof.
  induction l as [|n l IH]; intros w job; [apply flows_shrunk_refl|].
  cbn [foldl].
  pose proof (flows_shrunk_finalise_node inv g w job n) as H1.
  destruct (LinkGraphJob.finalise_node inv g (w, job) n) as [w1 job1].
  eapply flows_shrunk_trans; [exact H1|apply IH].
Qed.

(** X12.  What [FinaliseJob] can change in the job. Afterwards the job holds
    no thread group; its copy of the graph, its settings, dates and flags
    and its edge annotations are as before, and so are the number of node
    annotations and, in each, the supply, the demand and the registered
    paths. Only the computed flows of the nodes change, and they never
    gain an origin: what a node's flows did not hold before, they do not
    hold afterwards. *)
Theorem FinaliseJob_job_frame inv g w job :
  LinkGraphJob.group (LinkGraphJob.FinaliseJob inv g w job).2 = None
  ∧ flows_shrunk (LinkGraphJob.set_group None job)
      (LinkGraphJob.FinaliseJob inv g w job).2.
Proof.
  rewrite FinaliseJob_loop.
  destruct (LinkGraph_IsValidID _ _).
  - pose proof (flows_shrunk_finalise_loop inv g
                  (seq 0 (LinkGraphJob.Size job)) w
                  (LinkGraphJob.set_group None job)) as Hs.
    split; [|done]. destruct Hs as (Hf & _).
    exact (f_equal LinkGraphJob.group Hf).
  - split; [done|apply flows_shrunk_refl].
Qed.

Lemma node_current_set_group w job gr n :
  node_current w (LinkGraphJob.set_group gr job) n ↔ node_current w job n.
Proof. done. Qed.

Lemma seq_split_at m k :
  m < k → seq 0 k = seq 0 m ++ m :: seq (S m) (k - S m).
Proof.
  intros Hk. replace k with (m + S (k - S m)) at 1 by lia.
  by rewrite seq_app.
Qed.

(** X13.  Flows of a stale node are gone for good. Let the job's graph still
    exist and the node annotations be sized to it. If node [m] is stale
    (its station no longer exists, or the station's goods entry does not
    point back at the job's graph and at [m]), then after [FinaliseJob] no
    node of the job holds computed flows under the key [m]: [EraseFlows(m)]
    takes them away when the loop meets [m], and nothing the loop does
    later brings them back. *)
Theorem FinaliseJob_stale_origin inv g w job m :
  LinkGraph_IsValidID w (LinkGraph.index (LinkGraphJob.link_graph job))
  = true →
  length (LinkGraphJob.nodes job) = LinkGraphJob.Size job →
  m < LinkGraphJob.Size job →
  ¬ node_current w job m →
  ∀ i, LinkGraphJob.Flows (LinkGraphJob.FinaliseJob inv g w job).2 i !! m
       = None.
Proof.
  intros Hvalid Hlen Hm Hstale i.
  rewrite FinaliseJob_loop, Hvalid.
  set (job0 := LinkGraphJob.set_group None job).
  rewrite (seq_split_at m (LinkGraphJob.Size job)) by done.
  rewrite foldl_app. cbn [foldl].
  destruct (finalise_loop_layout inv g (seq 0 m) w job0)
    as (Hlg1 & Hlay1 & _ & _).
  pose proof (flows_shrunk_finalise_loop inv g (seq 0 m) w job0)
    as (_ & Hlen1 & _).
  destruct (foldl (LinkGraphJob.finalise_node inv g) (w, job0) (seq 0 m))
    as [w1 job1].
  simpl in Hlg1, Hlay1, Hlen1.
  destruct (finalise_node_unfold inv g w1 job1 m)
    as [[_ ->]|(st & fl & gf & gf' & fl' & ev & _ & Hcur & _)].
  2:{ exfalso. apply Hstale. apply (node_current_set_group w job None).
      by apply (node_current_layout w w1 job0 job1). }
  pose proof (flows_shrunk_finalise_loop inv g
                (seq (S m) (LinkGraphJob.Size job - S m)) w1
                (LinkGraphJob.EraseFlows m job1)) as (_ & Hlen2 & Hkeys).
  destruct (foldl _ (w1, LinkGraphJob.EraseFlows m job1) _) as [w2 job2].
  simpl in *.
  unfold LinkGraphJob.Flows. rewrite list_lookup_total_alt.
  destruct (LinkGraphJob.nodes job2 !! i) as [n2|] eqn:Hn2; [|done].
  simpl.
  destruct (LinkGraphJob.nodes (LinkGraphJob.EraseFlows m job1) !! i)
    as [n1|] eqn:Hn1.
  2:{ apply lookup_ge_None in Hn1. apply lookup_lt_Some in Hn2. lia. }
  destruct (Hkeys i n1 n2 Hn1 Hn2) as [_ Hnone]. apply Hnone.
  rewrite EraseFlows_lookup in Hn1.
  apply fmap_Some in Hn1 as (n0 & Hn0 & ->).
  assert (i < LinkGraphJob.Size job1) as Hi.
  { apply lookup_lt_Some in Hn0. unfold LinkGraphJob.Size in *.
    rewrite Hlg1. change (LinkGraphJob.link_graph job0)
      with (LinkGraphJob.link_graph job). 
    change (LinkGraphJob.nodes job0) with (LinkGraphJob.nodes job) in Hlen1.
    lia. }
  rewrite decide_True by done. unfold erase_at. simpl.
  apply lookup_delete_eq.
Qed.

Lemma FinaliseJob_stale_origin_witness :
  LinkGraphJob.Flows
    (LinkGraphJob.FinaliseJob keep_invalidated
       (sample_globals DT_ASYMMETRIC) foreign_world stale_job).2 0 !! 1
  = None.
Proof.
  apply (FinaliseJob_stale_origin keep_invalidated
           (sample_globals DT_ASYMMETRIC) foreign_world stale_job 1).
  - reflexivity.
  - reflexivity.
  - vm_compute. lia.
  - vm_compute. intros [? _]. discriminate.
Defined.

(** ** The passes of the loop do not interfere *)

Lemma edge_removed_layout w w' job job' lg n to_node :
  LinkGraphJob.link_graph job' = LinkGraphJob.link_graph job →
  same_layout (LinkGraphJob.Cargo job) w w' →
  LinkGraphJob.edge_removed w' job' lg n to_node
  ↔ LinkGraphJob.edge_removed w job lg n to_node.
Proof.
  intros Hlg [_ Hst].
  unfold LinkGraphJob.edge_removed, Station_GetIfValid,
    LinkGraphJob.Station, LinkGraphJob.Cargo in *. rewrite Hlg.
  specialize (Hst (LinkGraph.station
                     (LinkGraph.node_at (LinkGraphJob.link_graph job)
                        to_node))).
  destruct (stations w !! _), (stations w' !! _); try done.
  destruct Hst as (_ & -> & ->). done.
Qed.

Lemma edge_step_layout w w' job job' lg n acc to_node :
  LinkGraphJob.link_graph job' = LinkGraphJob.link_graph job →
  LinkGraphJob.edges job' = LinkGraphJob.edges job →
  same_layout (LinkGraphJob.Cargo job) w w' →
  LinkGraphJob.edge_step w' job' lg n acc to_node
  = LinkGraphJob.edge_step w job lg n acc to_node.
Proof.
  intros Hlg Hedges Hlay. unfold LinkGraphJob.edge_step.
  destruct acc as [flows ge_flows].
  assert (LinkGraphJob.Flow job' n to_node = LinkGraphJob.Flow job n to_node)
    as -> by (unfold LinkGraphJob.Flow; by rewrite Hedges).
  assert (LinkGraphJob.Station job' to_node = LinkGraphJob.Station job to_node)
    as -> by (unfold LinkGraphJob.Station; by rewrite Hlg).
  destruct (decide (LinkGraphJob.Flow job n to_node = 0%Z)); [done|].
  apply decide_ext. by apply edge_removed_layout.
Qed.

Lemma edge_loop_layout w w' job job' lg n tos :
  LinkGraphJob.link_graph job' = LinkGraphJob.link_graph job →
  LinkGraphJob.edges job' = LinkGraphJob.edges job →
  same_layout (LinkGraphJob.Cargo job) w w' →
  ∀ acc,
    foldl (LinkGraphJob.edge_step w' job' lg n) acc tos
    = foldl (LinkGraphJob.edge_step w job lg n) acc tos.
Proof.
  intros Hlg Hedges Hlay.
  induction tos as [|t tos IH]; intros acc; [done|].
  cbn [foldl]. by rewrite (edge_step_layout w w' job job'), IH.
Qed.

(** The pass for a node reads the station of the node, the layout of the
    world, the graph and the edges of the job and the flows computed for
    the node, and nothing else. *)
Lemma finalise_node_station_cong inv g w w' job job' n :
  LinkGraphJob.link_graph job' = LinkGraphJob.link_graph job →
  LinkGraphJob.edges job' = LinkGraphJob.edges job →
  LinkGraphJob.Flows job' n = LinkGraphJob.Flows job n →
  same_layout (LinkGraphJob.Cargo job) w w' →
  stations w' !! LinkGraphJob.Station job n
  = stations w !! LinkGraphJob.Station job n →
  stations (LinkGraphJob.finalise_node inv g (w', job') n).1
    !! LinkGraphJob.Station job n
  = stations (LinkGraphJob.finalise_node inv g (w, job) n).1
      !! LinkGraphJob.Station job n.
Proof.
  intros Hlg Hedges Hflows Hlay Hst.
  unfold LinkGraphJob.finalise_node.
  assert (LinkGraphJob.Station job' n = LinkGraphJob.Station job n) as ->
    by (unfold LinkGraphJob.Station; by rewrite Hlg).
  assert (LinkGraphJob.Cargo job' = LinkGraphJob.Cargo job) as ->
    by (unfold LinkGraphJob.Cargo; by rewrite Hlg).
  rewrite Hlg, Hflows. unfold Station_GetIfValid. rewrite Hst.
  destruct (stations w !! LinkGraphJob.Station job n) as [st|] eqn:Hs;
    [|simpl; congruence].
  destruct (decide (_ ∨ _)); [simpl; congruence|].
  assert (LinkGraph_Get w' (GoodsEntry.link_graph
                              (Station.goods_at st (LinkGraphJob.Cargo job)))
          = LinkGraph_Get w (GoodsEntry.link_graph
                               (Station.goods_at st (LinkGraphJob.Cargo job))))
    as -> by (unfold LinkGraph_Get; by rewrite (proj1 Hlay)).
  rewrite (edge_loop_layout w w' job job') by done.
  destruct (foldl _ _ _) as [fl gf].
  destruct (LinkGraphJob.merge_flows _ _ _ _ _ _) as [[gf' fl'] ev].
  simpl. by rewrite !lookup_insert_eq.
Qed.

(** Passes for other nodes leave the station of a current node alone. *)
Lemma finalise_loop_other_station inv g l w job n :
  node_current w job n → n ∉ l →
  stations (foldl (LinkGraphJob.finalise_node inv g) (w, job) l).1
    !! LinkGraphJob.Station job n
  = stations w !! LinkGraphJob.Station job n.
Proof.
  intros Hcur Hn.
  destruct (finalise_loop_layout inv g l w job) as (_ & _ & _ & Ht).
  destruct (Ht (LinkGraphJob.Station job n)) as [->|(k & Hk & Hs & Hcurk)];
    [done|].
  exfalso. unfold node_current in Hcur, Hcurk. rewrite <- Hs in Hcurk.
  destruct (Station_GetIfValid w (LinkGraphJob.Station job n)); [|done].
  destruct Hcur as [_ <-], Hcurk as [_ <-]. done.
Qed.

(** Passes for current nodes leave the flows computed for the other nodes
    alone. *)
Lemma finalise_loop_other_flows inv g n l :
  ∀ w job,
    n ∉ l → (∀ k, k ∈ l → node_current w job k) →
    LinkGraphJob.Flows
      (foldl (LinkGraphJob.finalise_node inv g) (w, job) l).2 n
    = LinkGraphJob.Flows job n.
Proof.
  induction l as [|k l IH]; intros w job Hn Hcur; [done|].
  cbn [foldl].
  destruct (finalise_node_layout inv g w job k) as (Hlg & Hlay & _ & _).
  destruct (finalise_node_unfold inv g w job k)
    as [[Hstale _]|(st & fl & gf & gf' & fl' & ev & _ & _ & _ & _ & Hrun)].
  { exfalso. apply Hstale, Hcur, list_elem_of_here. }
  rewrite Hrun in *. simpl in Hlg, Hlay.
  rewrite IH.
  - unfold LinkGraphJob.Flows, LinkGraphJob.set_Flows. simpl.
    rewrite list_lookup_total_alter_ne; [done|].
    intros ->. apply Hn, list_elem_of_here.
  - intros Hin. by apply Hn, list_elem_of_further.
  - intros k' Hk'.
    apply (node_current_layout w _ job _ k' Hlg Hlay).
    by apply Hcur, list_elem_of_further.
Qed.

(** X14.  The passes of the loop do not interfere. Let the job's graph still
    exist, let [n] be a node of the job that is current (its station
    exists and points back at the job's graph and at [n]), and let all
    nodes before [n] be current too. Then what [FinaliseJob] leaves in the
    station of [n] is what the pass for [n] alone, run on the world and
    the job as they were, leaves there: the passes for the other nodes
    neither write this station nor change what the pass for [n] reads. *)
Theorem FinaliseJob_node_independent inv g w job n :
  LinkGraph_IsValidID w (LinkGraph.index (LinkGraphJob.link_graph job))
  = true →
  n < LinkGraphJob.Size job →
  (∀ k, k ≤ n → node_current w job k) →
  stations (LinkGraphJob.FinaliseJob inv g w job).1
    !! LinkGraphJob.Station job n
  = stations (LinkGraphJob.finalise_node inv g (w, job) n).1
      !! LinkGraphJob.Station job n.
Proof.
  intros Hvalid Hn Hcur.
  rewrite FinaliseJob_loop, Hvalid.
  set (job0 := LinkGraphJob.set_group None job).
  rewrite (seq_split_at n (LinkGraphJob.Size job)) by done.
  rewrite foldl_app. cbn [foldl].
  assert (n ∉ seq 0 n) as Hpre by (rewrite elem_of_seq; lia).
  assert (n ∉ seq (S n) (LinkGraphJob.Size job - S n)) as Hpost
    by (rewrite elem_of_seq; lia).
  assert (node_current w job0 n) as Hcur0 by (apply Hcur; lia).
  destruct (finalise_loop_layout inv g (seq 0 n) w job0)
    as (Hlg1 & Hlay1 & _ & _).
  pose proof (flows_shrunk_finalise_loop inv g (seq 0 n) w job0)
    as (Hf1 & _ & _).
  pose proof (finalise_loop_other_station inv g (seq 0 n) w job0 n Hcur0 Hpre)
    as Hst1.
  assert (∀ k, k ∈ seq 0 n → node_current w job0 k) as Hall
    by (intros k Hk; apply elem_of_seq in Hk; apply Hcur; lia).
  pose proof (finalise_loop_other_flows inv g n (seq 0 n) w job0 Hpre Hall)
    as Hfl1.
  destruct (foldl (LinkGraphJob.finalise_node inv g) (w, job0) (seq 0 n))
    as [w1 job1].
  simpl in Hlg1, Hlay1, Hf1, Hst1, Hfl1.
  assert (LinkGraphJob.edges job1 = LinkGraphJob.edges job) as Hedges1
    by exact (f_equal LinkGraphJob.edges Hf1).
  pose proof (finalise_node_station_cong inv g w w1 job0 job1 n
                Hlg1 Hedges1 Hfl1 Hlay1 Hst1) as Hstep.
  assert (node_current w1 job1 n) as Hcur1
    by (by apply (node_current_layout w w1 job0 job1)).
  destruct (finalise_node_layout inv g w1 job1 n) as (Hlg2 & Hlay2 & _ & _).
  destruct (LinkGraphJob.finalise_node inv g (w1, job1) n) as [w2 job2].
  simpl in Hstep, Hlg2, Hlay2.
  assert (node_current w2 job2 n) as Hcur2
    by (by apply (node_current_layout w1 w2 job1 job2)).
  pose proof (finalise_loop_other_station inv g
                (seq (S n) (LinkGraphJob.Size job - S n)) w2 job2 n
                Hcur2 Hpost) as Hst2.
  assert (LinkGraphJob.Station job2 n = LinkGraphJob.Station job n) as Hs2.
  { unfold LinkGraphJob.Station. by rewrite Hlg2, Hlg1. }
  rewrite Hs2 in Hst2. rewrite Hst2.
  change (LinkGraphJob.Station job0 n) with (LinkGraphJob.Station job n)
    in Hstep.
  rewrite Hstep.
  apply (finalise_node_station_cong inv g w w job job0 n);
    [done|done|done|apply same_layout_refl|done].
Qed.

Lemma FinaliseJob_node_independent_witness :
  stations
    (LinkGraphJob.FinaliseJob keep_invalidated (sample_globals DT_ASYMMETRIC)
       sample_world solved_job).1 !! LinkGraphJob.Station solved_job 1
  = stations
      (LinkGraphJob.finalise_node keep_invalidated
         (sample_globals DT_ASYMMETRIC) (sample_world, solved_job) 1).1
      !! LinkGraphJob.Station solved_job 1.
Proof.
  apply (FinaliseJob_node_independent keep_invalidated
           (sample_globals DT_ASYMMETRIC) sample_world solved_job 1).
  - reflexivity.
  - vm_compute. lia.
  - intros k Hk.
    destruct k as [|[|k]]; [vm_compute; done|vm_compute; done|lia].
Defined.

(** ** The calls made by the merge loop *)

Section merge_calls.

Context (inv : FlowStat → FlowStat * bool) (g : Globals) (st c : nat).

Lemma merge_step_calls (gf fl : gmap nat FlowStat) ev k :
  (LinkGraphJob.merge_step inv g st c (gf, fl, ev) k).2
  = ev ++ rerouted inv g st c gf fl k.
Proof.
  unfold LinkGraphJob.merge_step, rerouted.
  destruct (gf !! k) as [it|]; [|by rewrite app_nil_r].
  destruct (fl !! k) as [new_it|]; simpl; [by rewrite app_nil_r|].
  destruct (decide (GetDistributionType _ _ ≠ DT_MANUAL)); [|done].
  destruct (inv it) as [it' []]; simpl; [done|by rewrite app_nil_r].
Qed.

Lemma rerouted_ext (L L' C C' : gmap nat FlowStat) o :
  L' !! o = L !! o → C' !! o = C !! o →
  rerouted inv g st c L' C' o = rerouted inv g st c L C o.
Proof. unfold rerouted. by intros -> ->. Qed.

Lemma merge_loop_calls ks :
  NoDup ks →
  ∀ (gf fl : gmap nat FlowStat) ev,
    (foldl (LinkGraphJob.merge_step inv g st c) (gf, fl, ev) ks).2
    = ev ++ (ks ≫= rerouted inv g st c gf fl).
Proof.
  induction 1 as [|k ks Hk Hnd IH]; intros gf fl ev.
  { simpl. by rewrite app_nil_r. }
  cbn [foldl].
  pose proof (merge_step_calls gf fl ev k) as Hev.
  destruct (merge_step_lookup inv g st c gf fl ev k)
    as (gf1 & fl1 & ev1 & Hstep & Hgf1 & Hfl1).
  rewrite Hstep in Hev |- *. simpl in Hev. subst ev1.
  rewrite IH. rewrite bind_cons, app_assoc. f_equal.
  clear IH Hstep Hnd. induction ks as [|o ks IHks]; [done|].
  rewrite !bind_cons.
  apply not_elem_of_cons in Hk as [Hne Hk].
  rewrite (IHks Hk). f_equal.
  apply rerouted_ext.
  - rewrite Hgf1. by rewrite decide_False.
  - rewrite Hfl1. rewrite decide_False; [done|]. by intros [? _].
Qed.

Lemma merge_flows_calls (L C : gmap nat FlowStat) :
  (LinkGraphJob.merge_flows inv g st c L C).2
  = FlowStatMap.origins L ≫= rerouted inv g st c L C.
Proof.
  unfold LinkGraphJob.merge_flows.
  pose proof (merge_loop_calls (FlowStatMap.origins L) (NoDup_origins L)
                L C []) as Hev.
  destruct (foldl _ _ _) as [[gf fl] ev]. by simpl in *.
Qed.

(** X15.  The calls of the merge loop. The loop calls [RerouteCargo] once
    for every share of every live entry that it erases, in the order of
    the origins and, under an origin, of the shares, each time for the
    station itself, the job's cargo and the share's next hop, and with the
    station itself as second station to avoid; it makes no other call.
    Whether an entry is erased is decided against the flows computed by
    the job as they were before the loop. In particular no cargo is
    rerouted when the job has computed flows for every origin the station
    has live flows for. *)
Theorem merge_flows_events (L C : gmap nat FlowStat) :
  (LinkGraphJob.merge_flows inv g st c L C).2
  = FlowStatMap.origins L ≫= rerouted inv g st c L C
  ∧ (∀ e, e ∈ (LinkGraphJob.merge_flows inv g st c L C).2 →
       ∃ o it s, L !! o = Some it ∧ C !! o = None
                 ∧ s ∈ shares (if decide (GetDistributionType
                                           (settings_game_linkgraph g) c
                                         ≠ DT_MANUAL)
                               then (inv it).1 else it)
                 ∧ e = RerouteCargo st c (share_via s) st)
  ∧ ((∀ o, is_Some (L !! o) → is_Some (C !! o)) →
     (LinkGraphJob.merge_flows inv g st c L C).2 = []).
Proof.
  rewrite merge_flows_calls. split_and!.
  - done.
  - intros e He. apply list_elem_of_bind in He as (o & He & _).
    unfold rerouted in He.
    destruct (L !! o) as [it|] eqn:HL; [|by apply elem_of_nil in He].
    destruct (C !! o) eqn:HC; [by apply elem_of_nil in He|].
    exists o, it.
    destruct (decide (GetDistributionType _ _ ≠ DT_MANUAL)).
    + destruct (inv it) as [it' []]; [|by apply elem_of_nil in He].
      apply list_elem_of_fmap in He as (s & -> & Hs). by exists s.
    + apply list_elem_of_fmap in He as (s & -> & Hs). by exists s.
  - intros Hcov. induction (FlowStatMap.origins L) as [|o ks IH]; [done|].
    rewrite bind_cons, IH, app_nil_r. unfold rerouted.
    destruct (L !! o) as [it|] eqn:HL; [|done].
    destruct (Hcov o) as [fs ->]; [by rewrite HL|done].
Qed.

End merge_calls.

(** ** A node whose edges are all intact *)

(** The edge loop changes nothing when every edge with flow is neither
    removed nor fully restricted. *)
Lemma edge_loop_intact w job lg n tos :
  ∀ acc,
    (∀ to_node, to_node ∈ tos →
       LinkGraphJob.Flow job n to_node ≠ 0%Z →
       ¬ LinkGraphJob.edge_removed w job lg n to_node
       ∧ LinkGraph.last_unrestricted_update (LinkGraph.edge_at lg n to_node)
         ≠ INVALID_DATE) →
    foldl (LinkGraphJob.edge_step w job lg n) acc tos = acc.
Proof.
  induction tos as [|t tos IH]; intros acc Hok; [done|].
  cbn [foldl].
  assert (LinkGraphJob.edge_step w job lg n acc t = acc) as ->.
  { unfold LinkGraphJob.edge_step. destruct acc as [flows ge_flows].
    destruct (decide (LinkGraphJob.Flow job n t = 0%Z)) as [|Hflow]; [done|].
    destruct (Hok t (list_elem_of_here _ _) Hflow) as [Hkept Hopen].
    rewrite decide_False by done. by rewrite decide_False by done. }
  apply IH. intros to_node Hin. apply Hok. by apply list_elem_of_further.
Qed.

(** X16.  The flows of an intact node are applied as computed. Let node [n]
    be current (its station [st] exists and points back at the job's graph
    and at [n]), and let every edge of [n] that carries flow still be in
    place and not fully restricted. Then after the pass for [n] the live
    flows of the station hold, for every origin the job has computed flows
    for, exactly the computed entry, and for every other origin what the
    merge keeps of the live entry; and the pass makes the [RerouteCargo]
    calls of the merge followed by one [InvalidateWindowData] for the
    station and the cargo. *)
Theorem finalise_node_applies_flows inv g w job n st :
  stations w !! LinkGraphJob.Station job n = Some st →
  GoodsEntry.link_graph (Station.goods_at st (LinkGraphJob.Cargo job))
  = LinkGraph.index (LinkGraphJob.link_graph job) →
  GoodsEntry.node (Station.goods_at st (LinkGraphJob.Cargo job)) = n →
  (∀ to_node,
     to_node ∈ LinkGraph.out_edges
                 (LinkGraph.node_at (LinkGraphJob.link_graph job) n) →
     LinkGraphJob.Flow job n to_node ≠ 0%Z →
     ¬ LinkGraphJob.edge_removed w job
         (LinkGraph_Get w (LinkGraph.index (LinkGraphJob.link_graph job)))
         n to_node
     ∧ LinkGraph.last_unrestricted_update
         (LinkGraph.edge_at
            (LinkGraph_Get w (LinkGraph.index (LinkGraphJob.link_graph job)))
            n to_node)
       ≠ INVALID_DATE) →
  ∃ st',
    stations (LinkGraphJob.finalise_node inv g (w, job) n).1
      !! LinkGraphJob.Station job n = Some st'
    ∧ (∀ o,
         GoodsEntry.flows (Station.goods_at st' (LinkGraphJob.Cargo job)) !! o
         = match LinkGraphJob.Flows job n !! o with
           | Some fs => Some fs
           | None =>
               GoodsEntry.flows (Station.goods_at st (LinkGraphJob.Cargo job))
                 !! o ≫= kept inv g (LinkGraphJob.Cargo job)
           end)
    ∧ events (LinkGraphJob.finalise_node inv g (w, job) n).1
      = events w
        ++ (FlowStatMap.origins
              (GoodsEntry.flows (Station.goods_at st (LinkGraphJob.Cargo job)))
            ≫= rerouted inv g (LinkGraphJob.Station job n)
                 (LinkGraphJob.Cargo job)
                 (GoodsEntry.flows
                    (Station.goods_at st (LinkGraphJob.Cargo job)))
                 (LinkGraphJob.Flows job n))
        ++ [InvalidateWindowData (LinkGraphJob.Station job n)
              (LinkGraphJob.Cargo job)].
Proof.
  intros Hst Hlg Hnode Hintact.
  destruct (finalise_node_unfold inv g w job n)
    as [[Hstale _]
       |(st0 & fl & gf & gf' & fl' & ev & Hst0 & _ & Hloop & Hm & ->)].
  { exfalso. apply Hstale. unfold node_current, Station_GetIfValid.
    by rewrite Hst. }
  rewrite Hst in Hst0. injection Hst0 as <-.
  rewrite Hlg, edge_loop_intact in Hloop by done.
  injection Hloop as <- <-.
  eexists. simpl. split_and!.
  - apply lookup_insert_eq.
  - intros o. rewrite goods_at_set_goods, decide_True by done. simpl.
    pose proof (merge_flows_lookup inv g (LinkGraphJob.Station job n)
                  (LinkGraphJob.Cargo job)
                  (GoodsEntry.flows
                     (Station.goods_at st (LinkGraphJob.Cargo job)))
                  (LinkGraphJob.Flows job n) o) as E.
    by rewrite Hm in E.
  - pose proof (merge_flows_calls inv g (LinkGraphJob.Station job n)
                  (LinkGraphJob.Cargo job)
                  (GoodsEntry.flows
                     (Station.goods_at st (LinkGraphJob.Cargo job)))
                  (LinkGraphJob.Flows job n)) as E.
    rewrite Hm in E. simpl in E. by rewrite E.
Qed.

Lemma finalise_node_applies_flows_witness :
  ∃ st',
    stations
      (LinkGraphJob.finalise_node keep_invalidated
         (sample_globals DT_MANUAL) (sample_world, solved_job) 0).1
      !! LinkGraphJob.Station solved_job 0 = Some st'
    ∧ (∀ o,
         GoodsEntry.flows (Station.goods_at st' (LinkGraphJob.Cargo solved_job))
           !! o
         = match LinkGraphJob.Flows solved_job 0 !! o with
           | Some fs => Some fs
           | None =>
               GoodsEntry.flows
                 (Station.goods_at sample_station
                    (LinkGraphJob.Cargo solved_job)) !! o
               ≫= kept keep_invalidated (sample_globals DT_MANUAL)
                    (LinkGraphJob.Cargo solved_job)
           end)
    ∧ events
        (LinkGraphJob.finalise_node keep_invalidated
           (sample_globals DT_MANUAL) (sample_world, solved_job) 0).1
      = events sample_world
        ++ (FlowStatMap.origins
              (GoodsEntry.flows
                 (Station.goods_at sample_station
                    (LinkGraphJob.Cargo solved_job)))
            ≫= rerouted keep_invalidated (sample_globals DT_MANUAL)
                 (LinkGraphJob.Station solved_job 0)
                 (LinkGraphJob.Cargo solved_job)
                 (GoodsEntry.flows
                    (Station.goods_at sample_station
                       (LinkGraphJob.Cargo solved_job)))
                 (LinkGraphJob.Flows solved_job 0))
        ++ [InvalidateWindowData (LinkGraphJob.Station solved_job 0)
              (LinkGraphJob.Cargo solved_job)].
Proof.
  apply (finalise_node_applies_flows keep_invalidated
           (sample_globals DT_MANUAL) sample_world solved_job 0
           sample_station).
  - reflexivity.
  - reflexivity.
  - reflexivity.
  - intros to_node Hin _.
    apply list_elem_of_singleton in Hin as ->. split.
    + intros [H|[H|H]]; [by apply H|by apply H|discriminate H].
    + discriminate.
Defined.

(** ** The dates of a new job *)

Lemma wrap_int_small z : (INT_MIN ≤ z ≤ INT_MAX)%Z → wrap_int z = z.
Proof.
  unfold wrap_int, INT_MIN, INT_MAX. intros Hz.
  rewrite Z.mod_small by lia. lia.
Qed.

(** X17.  A job never joins before it starts. For a recalculation time, a
    duration multiplier and a date that are not negative, a positive day
    length factor, and as long as the tick counts stay within [DateTicks],
    the constructor sets the join date to the start date plus
    [recalc_time * DAY_TICKS * duration_multiplier] ticks, divided by the
    day length factor (rounding down) when the recalculation time is not
    scaled by the day length; so the join date is not before the start
    date. It copies the graph it is given, with its index, and the link
    graph settings as they are at that moment. *)
Theorem new_join_after_start g orig duration_multiplier :
  (0 ≤ recalc_time (settings_game_linkgraph g))%Z →
  (0 ≤ duration_multiplier)%Z →
  (0 < day_length_factor g)%Z →
  (0 ≤ date g * DAY_TICKS + date_fract g)%Z →
  (recalc_time (settings_game_linkgraph g) * DAY_TICKS * duration_multiplier
   + date g * DAY_TICKS + date_fract g ≤ INT_MAX)%Z →
  let job := LinkGraphJob.new g orig duration_multiplier in
  LinkGraphJob.join_date_ticks job
  = (LinkGraphJob.start_date_ticks job
     + (if recalc_not_scaled_by_daylength (settings_game_linkgraph g)
        then recalc_time (settings_game_linkgraph g) * DAY_TICKS
             * duration_multiplier / day_length_factor g
        else recalc_time (settings_game_linkgraph g) * DAY_TICKS
             * duration_multiplier))%Z
  ∧ (LinkGraphJob.start_date_ticks job ≤ LinkGraphJob.join_date_ticks job)%Z
  ∧ LinkGraphJob.link_graph job = orig
  ∧ LinkGraphJob.settings job = settings_game_linkgraph g.
Proof.
  intros Hrt Hm Hf Hd Hsum. cbv zeta.
  unfold LinkGraphJob.new, LinkGraphJob.GetLinkGraphJobJoinDateTicks.
  cbn [LinkGraphJob.join_date_ticks LinkGraphJob.start_date_ticks
       LinkGraphJob.link_graph LinkGraphJob.settings].
  set (q := (recalc_time (settings_game_linkgraph g) * DAY_TICKS
             * duration_multiplier)%Z) in *.
  assert (0 ≤ q)%Z as Hq by (unfold q, DAY_TICKS; nia).
  assert (INT_MAX ≤ UINT_MAX)%Z as Hmax by (unfold INT_MAX, UINT_MAX; lia).
  assert (INT_MIN ≤ 0)%Z as Hmin by (unfold INT_MIN; lia).
  rewrite (wrap_uint_small q) by lia.
  rewrite (wrap_int_small q) by lia.
  rewrite (wrap_int_small (date g * DAY_TICKS + date_fract g)) by lia.
  assert (0 ≤ q / day_length_factor g ≤ q)%Z as Hdiv.
  { split; [apply Z.div_pos; lia|]. apply Z.div_le_upper_bound; nia. }
  destruct (recalc_not_scaled_by_daylength (settings_game_linkgraph g)).
  - rewrite Z.quot_div_nonneg by lia.
    rewrite wrap_int_small by lia. split_and!; [lia|lia|done|done].
  - rewrite wrap_int_small by lia. split_and!; [lia|lia|done|done].
Qed.

Lemma new_join_after_start_witness :
  LinkGraphJob.join_date_ticks
    (LinkGraphJob.new (sample_globals DT_ASYMMETRIC) sample_graph 3)
  = (LinkGraphJob.start_date_ticks
       (LinkGraphJob.new (sample_globals DT_ASYMMETRIC) sample_graph 3)
     + 16 * DAY_TICKS * 3)%Z
  ∧ (LinkGraphJob.start_date_ticks
       (LinkGraphJob.new (sample_globals DT_ASYMMETRIC) sample_graph 3)
     ≤ LinkGraphJob.join_date_ticks
         (LinkGraphJob.new (sample_globals DT_ASYMMETRIC) sample_graph 3))%Z
  ∧ LinkGraphJob.link_graph
      (LinkGraphJob.new (sample_globals DT_ASYMMETRIC) sample_graph 3)
    = sample_graph
  ∧ LinkGraphJob.settings
      (LinkGraphJob.new (sample_globals DT_ASYMMETRIC) sample_graph 3)
    = sample_settings DT_ASYMMETRIC.
Proof.
  apply (new_join_after_start (sample_globals DT_ASYMMETRIC) sample_graph 3);
    vm_compute; done.
Defined.
